(** * modpack-downloader: a shallow embedding of [src/index.ts] and of its
    earlier build ([src/unnamed/part_000]).

    The program is I/O orchestration: it parses a [curseforge://] URI,
    fetches an archive, downloads every file of the archive's manifest
    concurrently and unpacks the archive's [overrides/] subtree.  Its
    functions are embedded as functions on an explicit [World] (filesystem,
    standard error, log of issued HTTP requests); the platform services it
    calls (WHATWG [URL], Node's [path] and [fs], JSZip, the network) are
    modelled next to them, each model saying what it covers.  A
    JavaScript string is represented by its UTF-8 encoding. *)

From Stdlib Require Import Ascii String.
From Stdlib Require DecimalString.
From stdpp Require Import gmap strings list.

Set Default Proof Using "Type".

(* ===================================================================== *)
(** ** Characters and strings *)
(* ===================================================================== *)

Module Chars.

Definition code (c : ascii) : nat := nat_of_ascii c.

Definition eqc (c d : ascii) : bool := Ascii.eqb c d.

Definition is_digit (c : ascii) : bool :=
  (48 <=? code c) && (code c <=? 57).
Definition is_upper (c : ascii) : bool :=
  (65 <=? code c) && (code c <=? 90).
Definition is_lower (c : ascii) : bool :=
  (97 <=? code c) && (code c <=? 122).
Definition is_alpha (c : ascii) : bool := is_upper c || is_lower c.
Definition is_alnum (c : ascii) : bool := is_alpha c || is_digit c.

(** ASCII lower-casing, as the URL parser applies it to a scheme. *)
Definition lower (c : ascii) : ascii :=
  if is_upper c then ascii_of_nat (code c + 32) else c.

(** C0 control or space: what the URL parser strips at both ends. *)
Definition is_c0_or_space (c : ascii) : bool := code c <=? 32.
(** Tab, LF, CR: what the URL parser removes everywhere. *)
Definition is_tab_or_newline (c : ascii) : bool :=
  (code c =? 9) || (code c =? 10) || (code c =? 13).

Definition hex_value (c : ascii) : option nat :=
  if is_digit c then Some (code c - 48)
  else if (65 <=? code c) && (code c <=? 70) then Some (code c - 55)
  else if (97 <=? code c) && (code c <=? 102) then Some (code c - 87)
  else None.

End Chars.

Abbreviation chars := (list ascii).

Definition str (l : chars) : string := string_of_list_ascii l.
Definition unstr (s : string) : chars := list_ascii_of_string s.

Fixpoint drop_while {A} (p : A → bool) (l : list A) : list A :=
match l with
| [] => []
| x :: l' => if p x then drop_while p l' else l
end.

(** [span p l]: the longest prefix of [l] without a [p] character, and the
  rest (which starts with the first [p] character, when there is one). *)
Fixpoint span {A} (p : A → bool) (l : list A) : list A * list A :=
match l with
| [] => ([], [])
| x :: l' =>
    if p x then ([], l)
    else let '(a, b) := span p l' in (x :: a, b)
end.

(** JavaScript's [s.split(sep)] for a one-character separator. *)
Fixpoint split_on (sep : ascii) (l : chars) : list chars :=
match l with
| [] => [[]]
| c :: l' =>
    if Chars.eqc c sep then [] :: split_on sep l'
    else match split_on sep l' with
         | [] => [[c]]
         | h :: t => (c :: h) :: t
         end
end.

Fixpoint join_with (sep : ascii) (segs : list chars) : chars :=
match segs with
| [] => []
| [s] => s
| s :: rest => s ++ sep :: join_with sep rest
end.

Definition chars_eqb (a b : chars) : bool := bool_decide (a = b).

(* ===================================================================== *)
(** ** Node's [path] module (POSIX flavour): [normalize], [join], [dirname] *)
(* ===================================================================== *)

Module Path.

Definition slash : ascii := "/"%char.
Definition dot : ascii := "."%char.
Definition is_slash (c : ascii) : bool := Chars.eqc c slash.

(** [normalizeString]: the segments of the path, with empty and [.]
    segments dropped and [..] resolved against the segment before it.
    [acc] is the stack of kept segments, last one first. *)
Fixpoint normalize_segments (allowAboveRoot : bool)
    (segs : list chars) (acc : list chars) : list chars :=
  match segs with
  | [] => rev acc
  | seg :: rest =>
      if chars_eqb seg [] || chars_eqb seg [dot] then
        normalize_segments allowAboveRoot rest acc
      else if chars_eqb seg [dot; dot] then
        match acc with
        | top :: acc' =>
            if chars_eqb top [dot; dot] then
              normalize_segments allowAboveRoot rest
                (if allowAboveRoot then seg :: acc else acc)
            else normalize_segments allowAboveRoot rest acc'
        | [] =>
            normalize_segments allowAboveRoot rest
              (if allowAboveRoot then [seg] else [])
        end
      else normalize_segments allowAboveRoot rest (seg :: acc)
  end.

Definition normalizeString (path : chars) (allowAboveRoot : bool) : chars :=
  join_with slash (normalize_segments allowAboveRoot (split_on slash path) []).

Definition normalize_chars (path : chars) : chars :=
  match path with
  | [] => [dot]
  | c0 :: _ =>
      let isAbsolute := is_slash c0 in
      let trailingSeparator :=
        match last path with Some c => is_slash c | None => false end in
      let p := normalizeString path (negb isAbsolute) in
      match p with
      | [] =>
          if isAbsolute then [slash]
          else if trailingSeparator then [dot; slash] else [dot]
      | _ =>
          let p := if trailingSeparator then p ++ [slash] else p in
          if isAbsolute then slash :: p else p
      end
  end.

Definition normalize (path : string) : string := str (normalize_chars (unstr path)).

(** [path.join(...args)]: empty arguments are skipped, the others are
    joined with [/] and the result is normalized. *)
Definition join (args : list string) : string :=
  match filter (λ a, a ≠ []) (unstr <$> args) with
  | [] => "."
  | parts => str (normalize_chars (join_with slash parts))
  end.

(** [path.dirname]: the loop of the original scans from the end down to
    index 1, skips trailing separators, then the last segment, and cuts
    at the separator it meets next. *)
Definition dirname_chars (path : chars) : chars :=
  match path with
  | [] => [dot]
  | c0 :: rest =>
      let hasRoot := is_slash c0 in
      let r1 := drop_while is_slash (rev rest) in
      let r2 := drop_while (λ c, negb (is_slash c)) r1 in
      match r2 with
      | [] => if hasRoot then [slash] else [dot]
      | _ :: before =>
          if hasRoot && bool_decide (before = []) then [slash; slash]
          else c0 :: rev before
      end
  end.

Definition dirname (path : string) : string := str (dirname_chars (unstr path)).

Definition has_trailing_slash (path : string) : bool :=
  match last (unstr path) with Some c => is_slash c | None => false end.

End Path.

(* ===================================================================== *)
(** ** The WHATWG [URL] class, as far as [parseCommandLineArgs] reads it *)
(* ===================================================================== *)

(** A model of [new URL(s)] without a base URL, after the URL Standard:
    scheme, authority (credentials, host, port), path, query, fragment,
    and the [application/x-www-form-urlencoded] parser behind
    [searchParams].  A string stands for its UTF-8 encoding.

    The model covers the schemes that are not special, which [curseforge]
    is.  For the special schemes ([ftp], [file], [http], [https], [ws],
    [wss]) the parser needs the host rules of domains (IDNA, IPv4), which
    are not modelled: [parse] answers [Special] for them, and what the
    platform makes of such a string is left to the environment. *)
Module Url.

Record URL := {
  protocol : string;
  hostname : string;
  query : string;
  searchParams : list (string * string);
}.

Inductive result :=
  | Parsed (u : URL)
  | Invalid                      (* the constructor throws its [TypeError] *)
  | Special (scheme : string).   (* a special scheme: not modelled *)

Definition strip (l : chars) : chars :=
  rev (drop_while Chars.is_c0_or_space (rev (drop_while Chars.is_c0_or_space l))).

Definition preprocess (l : chars) : chars :=
  List.filter (λ c, negb (Chars.is_tab_or_newline c)) (strip l).

Definition is_scheme_char (c : ascii) : bool :=
  Chars.is_alnum c || Chars.eqc c "+" || Chars.eqc c "-" || Chars.eqc c ".".

(** Scheme start state and scheme state: a letter, then scheme characters
    up to a colon; the scheme is lower-cased. *)
Definition parse_scheme (l : chars) : option (chars * chars) :=
  match l with
  | c :: _ =>
      if Chars.is_alpha c then
        match span (λ c, negb (is_scheme_char c)) l with
        | (s, d :: rest) =>
            if Chars.eqc d ":" then Some (Chars.lower <$> s, rest) else None
        | (_, []) => None
        end
      else None
  | [] => None
  end.

Definition is_special (scheme : chars) : bool :=
  existsb (λ s, chars_eqb scheme (unstr s)) ["ftp"; "file"; "http"; "https"; "ws"; "wss"].

Definition is_authority_end (c : ascii) : bool :=
  Chars.eqc c "/" || Chars.eqc c "?" || Chars.eqc c "#".

(** The part of the authority after its last [@] (the credentials come
    before it), and whether an [@] was seen. *)
Fixpoint after_last_at (l : chars) : chars * bool :=
  match l with
  | [] => ([], false)
  | c :: l' =>
      let '(r, seen) := after_last_at l' in
      if seen then (r, true)
      else if Chars.eqc c "@" then (l', true)
      else (l, false)
  end.

(** Host state: the host ends at the first colon outside square
    brackets; what follows the colon is the port. *)
Fixpoint split_host (insideBrackets : bool) (l : chars) : chars * option chars :=
  match l with
  | [] => ([], None)
  | c :: l' =>
      if Chars.eqc c ":" && negb insideBrackets then ([], Some l')
      else
        let inside :=
          if Chars.eqc c "[" then true
          else if Chars.eqc c "]" then false
          else insideBrackets in
        let '(host, port) := split_host inside l' in (c :: host, port)
  end.

Definition is_forbidden_host (c : ascii) : bool :=
  (Chars.code c =? 0) || Chars.is_tab_or_newline c || (Chars.code c =? 32)
  || existsb (Chars.eqc c)
       ["#"; "/"; ":"; "<"; ">"; "?"; "@"; "["; "\"; "]"; "^"; "|"]%char.

Definition hex_digit (n : nat) : ascii :=
  if n <? 10 then ascii_of_nat (48 + n) else ascii_of_nat (55 + n).

Definition percent_encode (c : ascii) : chars :=
  ["%"%char; hex_digit (Chars.code c / 16); hex_digit (Chars.code c mod 16)].

(** The C0 control percent-encode set, and the query percent-encode set
    (of the schemes that are not special). *)
Definition in_c0_set (c : ascii) : bool :=
  (Chars.code c <? 32) || (126 <? Chars.code c).
Definition in_query_set (c : ascii) : bool :=
  in_c0_set c || (Chars.code c =? 32) || (Chars.code c =? 34)
  || Chars.eqc c "#" || Chars.eqc c "<" || Chars.eqc c ">".

Definition encode_with (set : ascii → bool) (l : chars) : chars :=
  mjoin ((λ c, if set c then percent_encode c else [c]) <$> l).

(** The opaque-host parser. *)
Definition parse_opaque_host (h : chars) : option chars :=
  if existsb is_forbidden_host h then None
  else Some (encode_with in_c0_set h).

(** *** IPv6 literals *)

(** Up to [n] hexadecimal digits at the front of [l]: their value, their
    number, and the rest. *)
Fixpoint hex_piece (n : nat) (value : N) (l : chars) : N * nat * chars :=
  match n, l with
  | S n', c :: l' =>
      match Chars.hex_value c with
      | Some d =>
          let '(v, len, rest) := hex_piece n' (value * 16 + N.of_nat d) l' in
          (v, S len, rest)
      | None => (value, 0, l)
      end
  | _, _ => (value, 0, l)
  end.

(** One number of the IPv4 part: decimal digits, no leading zero, at
    most 255.  [None] is failure; the number is [None] when no digit was
    read. *)
Fixpoint ipv4_number (ipv4Piece : option N) (l : chars) : option (option N * chars) :=
  match l with
  | c :: l' =>
      if Chars.is_digit c then
        let number := N.of_nat (Chars.code c - 48) in
        match ipv4Piece with
        | None => ipv4_number (Some number) l'
        | Some 0%N => None
        | Some v =>
            if (255 <? v * 10 + number)%N then None
            else ipv4_number (Some (v * 10 + number)%N) l'
        end
      else Some (ipv4Piece, l)
  | [] => Some (ipv4Piece, [])
  end.

(** The IPv4 part that may end an IPv6 literal: exactly four numbers
    with dots between them; it fills two pieces. *)
Definition ipv4_in_ipv6 (l : chars) : option (N * N) :=
  match ipv4_number None l with
  | Some (Some n1, d1 :: l1) =>
      if negb (Chars.eqc d1 ".") then None else
      match ipv4_number None l1 with
      | Some (Some n2, d2 :: l2) =>
          if negb (Chars.eqc d2 ".") then None else
          match ipv4_number None l2 with
          | Some (Some n3, d3 :: l3) =>
              if negb (Chars.eqc d3 ".") then None else
              match ipv4_number None l3 with
              | Some (Some n4, []) => Some (n1 * 256 + n2, n3 * 256 + n4)%N
              | _ => None
              end
          | _ => None
          end
      | _ => None
      end
  | _ => None
  end.

(** The main loop of the IPv6 parser.  [pieces] are the pieces read so
    far (their number is [pieceIndex]); [compress] is the index of the
    piece that follows [::]. *)
Fixpoint ipv6_pieces (fuel : nat) (pieces : list N) (compress : option nat)
    (l : chars) : option (list N * option nat) :=
  match l with
  | [] => Some (pieces, compress)
  | c :: l' =>
      match fuel with
      | 0 => None
      | S fuel' =>
          if length pieces =? 8 then None
          else if Chars.eqc c ":" then
            match compress with
            | Some _ => None
            | None => ipv6_pieces fuel' (pieces ++ [0%N]) (Some (S (length pieces))) l'
            end
          else
            let '(value, len, rest) := hex_piece 4 0 l in
            match rest with
            | [] => Some (pieces ++ [value], compress)
            | d :: rest' =>
                if Chars.eqc d "." then
                  if (len =? 0) || (6 <? length pieces) then None
                  else (λ '(a, b), (pieces ++ [a; b], compress)) <$> ipv4_in_ipv6 l
                else if Chars.eqc d ":" then
                  match rest' with
                  | [] => None
                  | _ :: _ => ipv6_pieces fuel' (pieces ++ [value]) compress rest'
                  end
                else None
            end
      end
  end.

(** The IPv6 parser: the eight pieces of the address. *)
Definition parse_ipv6 (l : chars) : option (list N) :=
  let start :=
    match l with
    | c :: l' =>
        if Chars.eqc c ":" then
          match l' with
          | c' :: l'' => if Chars.eqc c' ":" then Some ([0%N], Some 1, l'') else None
          | [] => None
          end
        else Some ([], None, l)
    | [] => Some ([], None, [])
    end in
  match start with
  | None => None
  | Some (pieces, compress, rest) =>
      match ipv6_pieces (S (length rest)) pieces compress rest with
      | None => None
      | Some (pieces, Some k) =>
          Some (take k pieces ++ replicate (8 - length pieces) 0%N ++ drop k pieces)
      | Some (pieces, None) => if length pieces =? 8 then Some pieces else None
      end
  end.

Fixpoint zero_run (l : list N) : nat :=
  match l with
  | 0%N :: l' => S (zero_run l')
  | _ => 0
  end.

(** The first longest run of two or more zero pieces: its index. *)
Fixpoint compress_index (i : nat) (afterZero : bool) (l : list N)
    (best : option (nat * nat)) : option nat :=
  match l with
  | [] => fst <$> best
  | x :: l' =>
      let n := zero_run l in
      let longer := match best with Some (_, m) => m <? n | None => true end in
      let best' := if negb afterZero && (1 <? n) && longer then Some (i, n) else best in
      compress_index (S i) (x =? 0)%N l' best'
  end.

Definition hex_lower (d : N) : ascii :=
  if (d <? 10)%N then ascii_of_N (48 + d) else ascii_of_N (87 + d).

(** A piece as the shortest lower-case hexadecimal number. *)
Definition hex16 (x : N) : chars :=
  hex_lower
    <$> (drop_while (λ d, (d =? 0)%N) [x / 4096; (x / 256) mod 16; (x / 16) mod 16]
         ++ [x mod 16])%N.

Fixpoint serialize_pieces (i : nat) (compress : option nat) (ignore0 : bool)
    (l : list N) : chars :=
  match l with
  | [] => []
  | x :: l' =>
      if ignore0 && (x =? 0)%N then serialize_pieces (S i) compress true l'
      else if bool_decide (compress = Some i) then
        (if i =? 0 then [":"%char; ":"%char] else [":"%char])
        ++ serialize_pieces (S i) compress true l'
      else
        hex16 x ++ (if i =? 7 then [] else [":"%char])
        ++ serialize_pieces (S i) compress false l'
  end.

Definition serialize_ipv6 (address : list N) : chars :=
  serialize_pieces 0 (compress_index 0 false address None) false address.

(** The host parser for a scheme that is not special: an IPv6 literal in
    square brackets, or an opaque host. *)
Definition parse_host (h : chars) : option chars :=
  match h with
  | c :: inner =>
      if Chars.eqc c "[" then
        match rev inner with
        | d :: r =>
            if Chars.eqc d "]" then
              (λ a, "["%char :: serialize_ipv6 a ++ ["]"%char]) <$> parse_ipv6 (rev r)
            else None
        | [] => None
        end
      else parse_opaque_host h
  | [] => parse_opaque_host h
  end.

Definition parse_port (p : chars) : bool :=
  forallb Chars.is_digit p
  && (fold_left (λ n c, N.min 65536 (10 * n + (N.of_nat (Chars.code c) - 48))) p 0
      <=? 65535)%N.

(** Authority state, host state and port state. *)
Definition parse_authority (auth : chars) : option chars :=
  let '(hostport, atSeen) := after_last_at auth in
  if atSeen && bool_decide (hostport = []) then None
  else
    match split_host false hostport with
    | (host, None) => parse_host host
    | (host, Some port) =>
        if bool_decide (host = []) then None
        else
          match parse_host host with
          | Some h => if parse_port port then Some h else None
          | None => None
          end
    end.

(** *** The query and [searchParams] *)

(** Percent-decoding of a byte string. *)
Fixpoint percent_decode (l : chars) : chars :=
  match l with
  | [] => []
  | c :: l' =>
      match l' with
      | h :: lo :: rest =>
          if Chars.eqc c "%" then
            match Chars.hex_value h, Chars.hex_value lo with
            | Some a, Some b => ascii_of_nat (16 * a + b) :: percent_decode rest
            | _, _ => c :: percent_decode l'
            end
          else c :: percent_decode l'
      | _ => c :: percent_decode l'
      end
  end.

Definition in_range (lo hi : nat) (c : ascii) : bool :=
  (lo <=? Chars.code c) && (Chars.code c <=? hi).

(** U+FFFD, in UTF-8. *)
Definition replacement : chars := [ascii_of_nat 239; ascii_of_nat 191; ascii_of_nat 189].

(** "UTF-8 decode without BOM": the bytes, with every ill-formed sequence
    replaced by U+FFFD as the decoder of the Encoding Standard does it (a
    byte that cannot continue a sequence ends it and is read again). *)
Fixpoint utf8_decode (l : chars) : chars :=
  match l with
  | [] => []
  | b :: r =>
      if Chars.code b <? 128 then b :: utf8_decode r
      else if in_range 194 223 b then
        match r with
        | c1 :: r1 =>
            if in_range 128 191 c1 then b :: c1 :: utf8_decode r1
            else replacement ++ utf8_decode r
        | [] => replacement
        end
      else if in_range 224 239 b then
        let lo := if Chars.code b =? 224 then 160 else 128 in
        let hi := if Chars.code b =? 237 then 159 else 191 in
        match r with
        | c1 :: r1 =>
            if in_range lo hi c1 then
              match r1 with
              | c2 :: r2 =>
                  if in_range 128 191 c2 then b :: c1 :: c2 :: utf8_decode r2
                  else replacement ++ utf8_decode r1
              | [] => replacement
              end
            else replacement ++ utf8_decode r
        | [] => replacement
        end
      else if in_range 240 244 b then
        let lo := if Chars.code b =? 240 then 144 else 128 in
        let hi := if Chars.code b =? 244 then 143 else 191 in
        match r with
        | c1 :: r1 =>
            if in_range lo hi c1 then
              match r1 with
              | c2 :: r2 =>
                  if in_range 128 191 c2 then
                    match r2 with
                    | c3 :: r3 =>
                        if in_range 128 191 c3
                        then b :: c1 :: c2 :: c3 :: utf8_decode r3
                        else replacement ++ utf8_decode r2
                    | [] => replacement
                    end
                  else replacement ++ utf8_decode r1
              | [] => replacement
              end
            else replacement ++ utf8_decode r
        | [] => replacement
        end
      else replacement ++ utf8_decode r
  end.

Definition plus_to_space (c : ascii) : ascii :=
  if Chars.eqc c "+" then " "%char else c.

Definition decode_component (l : chars) : string :=
  str (utf8_decode (percent_decode (plus_to_space <$> l))).

(** The [application/x-www-form-urlencoded] parser. *)
Definition parse_pair (seq : chars) : string * string :=
  match span (λ c, Chars.eqc c "=") seq with
  | (name, []) => (decode_component name, decode_component [])
  | (name, _ :: value) => (decode_component name, decode_component value)
  end.

Definition parse_query (q : chars) : list (string * string) :=
  parse_pair <$> List.filter (λ s, negb (chars_eqb s [])) (split_on "&" q).

(** Path state, query state and fragment state: the query is what stands
    between the first [?] and the first [#] after it, percent-encoded
    with the query percent-encode set. *)
Definition query_of (rest : chars) : chars :=
  match snd (span (λ c, Chars.eqc c "?" || Chars.eqc c "#") rest) with
  | d :: q =>
      if Chars.eqc d "?"
      then encode_with in_query_set (fst (span (λ c, Chars.eqc c "#") q))
      else []
  | [] => []
  end.

Definition make (scheme host rest : chars) : URL :=
  {| protocol := str (scheme ++ [":"%char]);
     hostname := str host;
     query := str (query_of rest);
     searchParams := parse_query (query_of rest) |}.

Definition parse (s : string) : result :=
  match parse_scheme (preprocess (unstr s)) with
  | None => Invalid
  | Some (scheme, rest) =>
      if is_special scheme then Special (str scheme)
      else
        match rest with
        | c1 :: c2 :: after =>
            if Path.is_slash c1 && Path.is_slash c2 then
              let '(auth, rest') := span is_authority_end after in
              match parse_authority auth with
              | Some h => Parsed (make scheme h rest')
              | None => Invalid
              end
            else Parsed (make scheme [] rest)
        | _ => Parsed (make scheme [] rest)
        end
  end.

(** [URLSearchParams.prototype.get]: the value of the first pair with
    that name, or [null]. *)
Fixpoint get (name : string) (ps : list (string * string)) : option string :=
  match ps with
  | [] => None
  | (n, v) :: ps' => if String.eqb n name then Some v else get name ps'
  end.

(** The URL of a result, when there is one. *)
Definition url_of (r : result) : option URL :=
  match r with
  | Parsed u => Some u
  | _ => None
  end.

End Url.

(* ===================================================================== *)
(** ** The world the program acts on *)
(* ===================================================================== *)

Abbreviation bytes := (list Byte.byte).

#[global] Instance byte_eq_dec : EqDecision Byte.byte := Stdlib.Strings.Byte.byte_eq_dec.

Inductive error :=
  | Error (message : string)           (* an [Error] with that message *)
  | TypeError (message : string)       (* thrown by the platform *)
  | SyntaxError (message : string)     (* thrown by [JSON.parse] *)
  | SystemError (code path : string)   (* a failed filesystem call *)
  | FetchError (url : string).         (* what [fetch(url)], or the reading of
                                          its JSON body, rejects with *)

Inductive outcome (A : Type) :=
  | Return (a : A)
  | Throw (e : error)
  | Exit (status : nat)                (* [process.exit(status)] *)
  | Crash (e : error)                  (* an exception or rejection that nothing
                                          handles: the process dies of it *)
  | Hang.                              (* an [await] that never completes *)
Arguments Return {A} a.
Arguments Throw {A} e.
Arguments Exit {A} status.
Arguments Crash {A} e.
Arguments Hang {A}.

Inductive node := Dir | File (content : bytes).

Record World := {
  fs : gmap string node;       (* the filesystem, by normalized path *)
  stderr : list string;        (* chunks written to standard error, oldest first *)
  requests : list string;      (* the URLs [fetch] was called with, oldest first *)
}.

Definition write_stderr (chunk : string) (w : World) : World :=
  {| fs := fs w; stderr := stderr w ++ [chunk]; requests := requests w |}.
Definition log_request (url : string) (w : World) : World :=
  {| fs := fs w; stderr := stderr w; requests := requests w ++ [url] |}.
Definition set_fs (f : gmap string node) (w : World) : World :=
  {| fs := f; stderr := stderr w; requests := requests w |}.

Definition empty_world : World := {| fs := ∅; stderr := []; requests := [] |}.

(* ===================================================================== *)
(** ** Node's [fs], as far as the program uses it *)
(* ===================================================================== *)

(** The filesystem is a finite map from normalized paths to nodes.  The
    working directory [.] and the root [/] always exist; every other
    directory exists when the map says so.  Links, permissions and case
    folding are not modelled. *)
Module Fs.

Definition is_root (k : string) : bool := String.eqb k "." || String.eqb k "/".

Definition strip_trailing (l : chars) : chars :=
  match rev l with
  | c :: r => if Path.is_slash c && negb (bool_decide (r = [])) then rev r else l
  | [] => l
  end.

(** The map key of a path as the operating system resolves it. *)
Definition key (p : string) : string :=
  str (strip_trailing (Path.normalize_chars (unstr p))).

Definition holds_file (n : node) : bool :=
  match n with File _ => true | Dir => false end.

Definition is_file (f : gmap string node) (k : string) : bool :=
  match f !! k with Some n => holds_file n | None => false end.
Definition is_dir (f : gmap string node) (k : string) : bool :=
  is_root k || match f !! k with Some Dir => true | _ => false end.

(** [k], its parent, its grandparent, ... up to the working directory or
    the root (which are left out). *)
Fixpoint ancestors (fuel : nat) (k : string) : list string :=
  match fuel with
  | 0 => []
  | S fuel' => if is_root k then [] else k :: ancestors fuel' (Path.dirname k)
  end.

Definition make_dirs (ks : list string) (f : gmap string node) : gmap string node :=
  foldr (λ k g, <[k:=Dir]> g) f ks.

(** [fs.promises.mkdir(p, { recursive: true })]: creates [p] and the
    missing directories above it; succeeds when [p] is a directory already;
    fails when [p] or a path above it is a file.  The code is [EEXIST]
    when [p] itself is a file, unless [p] is written with a trailing
    separator: then, as when a path above is a file, it is [ENOTDIR]. *)
Definition mkdir_recursive (p : string) (f : gmap string node)
    : error + gmap string node :=
  let ks := ancestors (S (String.length (key p))) (key p) in
  if existsb (is_file f) ks
  then inl (SystemError
              (if is_file f (key p) && negb (Path.has_trailing_slash p)
               then "EEXIST" else "ENOTDIR") p)
  else inr (make_dirs ks f).

(** Opening the file of [fs.createWriteStream(p)] (flags [w]): the file is
    created or truncated.  Fails on a path with a trailing separator, on
    a directory, and when the parent directory does not exist. *)
Definition open_write (p : string) (f : gmap string node)
    : error + gmap string node :=
  let k := key p in
  if Path.has_trailing_slash p || is_dir f k then inl (SystemError "EISDIR" p)
  else if is_dir f (Path.dirname k) then inr (<[k:=File []]> f)
  else inl (SystemError (if is_file f (Path.dirname k) then "ENOTDIR" else "ENOENT") p).

(** The stream has written all of [content] and emitted [finish]. *)
Definition finish_write (p : string) (content : bytes) (f : gmap string node)
    : gmap string node :=
  <[key p := File content]> f.

(** The paths that hold a file. *)
Definition file_paths (f : gmap string node) : gset string :=
  dom (filter (λ kv, holds_file kv.2 = true) f).

(** The number of files below directory [d]. *)
Definition files_under (d : string) (f : gmap string node) : nat :=
  length (List.filter
            (λ kv, String.prefix (key d +:+ "/") kv.1 && holds_file kv.2)
            (map_to_list f)).

End Fs.

(* ===================================================================== *)
(** ** JSZip, as far as the program uses it *)
(* ===================================================================== *)

(** An opened archive is JSZip's [files] table (entry name to entry, in
    insertion order, which for a loaded archive is the order of the
    archive's directory) and a [root] prefix.  The names of directory
    entries end in [/].  An entry holds its decompressed bytes: an entry
    whose data cannot be decompressed (for which [async] rejects and
    [nodeStream] emits [error]) is outside the model. *)
Module Zip.

Record ZipObject := { name : string; dir : bool; data : bytes }.

Record JSZip := { files : list (string * ZipObject); root : string }.

Definition lookup (k : string) (z : JSZip) : option ZipObject :=
  snd <$> List.find (λ e, String.eqb (fst e) k) (files z).

(** [zip.file(name)]: the entry of that name below the root, or [null]
    when there is none or when it is a directory. *)
Definition file (n : string) (z : JSZip) : option ZipObject :=
  match lookup (root z +:+ n) z with
  | Some o => if dir o then None else Some o
  | None => None
  end.

Definition forceTrailingSlash (n : string) : string :=
  if Path.has_trailing_slash n then n else n +:+ "/".

(** [folderAdd]: registers the directory entry unless it is there. *)
Definition folderAdd (n : string) (z : JSZip) : JSZip :=
  let n := forceTrailingSlash n in
  match lookup n z with
  | Some _ => z
  | None =>
      {| files := files z ++ [(n, {| name := n; dir := true; data := [] |})];
         root := root z |}
  end.

(** [zip.folder(name)] for a string [name]: "create a directory if it
    doesn't exist, return a new JSZip object with the new folder as root".
    Its declared type is [JSZip | null], but it has no path that returns
    [null]. *)
Definition folder (arg : string) (z : JSZip) : option JSZip :=
  if String.eqb arg "" then Some z
  else
    let n := forceTrailingSlash (root z +:+ arg) in
    Some {| files := files (folderAdd n z); root := n |}.

Fixpoint strip_prefix (pre s : string) : option string :=
  match pre, s with
  | EmptyString, _ => Some s
  | String a pre', String b s' =>
      if Ascii.eqb a b then strip_prefix pre' s' else None
  | String _ _, EmptyString => None
  end.

(** [zip.forEach(cb)]: calls [cb(relativePath, file)] on every entry
    below the root, the root's own entry left out, in table order.  The
    result lists the calls. *)
Definition forEach (z : JSZip) : list (string * ZipObject) :=
  omap (λ e, match strip_prefix (root z) (fst e) with
             | Some rel => if String.eqb rel "" then None else Some (rel, snd e)
             | None => None
             end) (files z).

End Zip.

(* ===================================================================== *)
(** ** The network and the JSON parser *)
(* ===================================================================== *)

(** The reply of the metadata service, as far as the program reads it.
    The replies are JSON values of any shape; the fields hold what the
    program makes of them: [displayName] is the text the template
    literals make of [modInfo.displayName], [downloadUrl] is the text
    [fetch] makes of [modInfo.downloadUrl], and [fileName] is
    [modInfo.fileName] when that is a string.  When it is not,
    [fileNameError] is the message of the [TypeError] that [path.join]
    throws for it.  [id] is never read. *)
Record ModFileInfo := {
  id : Z;
  displayName : string;
  fileName : string;
  fileNameError : option string;
  downloadUrl : string;
}.

(** An entry of [manifest.files]: the texts that the template literal of
    [fetchModFileInfo] makes of its [projectID] and [fileID] (for a
    number, what [Number.prototype.toString] prints; for a missing
    property, [undefined]). *)
Record ManifestFile := { projectID : string; fileID : string }.
Record ModpackManifest := { files : list ManifestFile }.

(** What [JSON.parse] makes of the bytes of [manifest.json], as far as
    [downloadMods] tells the results apart. *)
Inductive manifest_json :=
  | NotJSON (message : string)
      (* [JSON.parse] throws a [SyntaxError] *)
  | NoFiles (message : string)
      (* [manifest.files.length] throws a [TypeError]: the value is
         [null], or it has no [files], or [files] is [null] *)
  | NoMap (fileCount message : string)
      (* [manifest.files] is no array: [fileCount] is the text of its
         [length], and [manifest.files.map] throws a [TypeError] *)
  | Files (entries : list (option ManifestFile)) (message : string).
      (* an array; [None] is an entry [null], for which the parameter
         pattern of the mapped function throws a [TypeError] *)

(** What the metadata service answers to a request. *)
Inductive reply_json :=
  | NoReply                       (* the request or the reading of its body fails *)
  | NullReply                     (* the JSON value [null] *)
  | Reply (modInfo : ModFileInfo).

(** What the outside world answers: whether the platform takes a string
    with a special scheme for a URL; the reply behind a metadata URL; the
    bytes behind a URL ([None]: [fetch] rejects); what [JSON.parse] makes
    of a manifest; what [JSZip.loadAsync] makes of a downloaded archive
    ([None]: it rejects, with an [Error] of message [loadAsync_error]);
    the message of the [TypeError] for reading a property of [null]; the
    chunk [console.error] writes for an error. *)
Record Env := {
  special_url : string → bool;
  reply : string → reply_json;
  http_body : string → option bytes;
  json_parse : bytes → manifest_json;
  loadAsync : bytes → option Zip.JSZip;
  loadAsync_error : bytes → string;
  read_of_null : string → string;
  console_error : error → string;
}.

(** The reply to a metadata request, when there is one and it is not
    [null]. *)
Definition http_json (env : Env) (url : string) : option ModFileInfo :=
  match reply env url with
  | Reply modInfo => Some modInfo
  | NoReply | NullReply => None
  end.

(** The error a task ends with when [http_json] has nothing for it: that
    of the request, or that of reading [property] of [null]. *)
Definition reply_error (env : Env) (property url : string) : error :=
  match reply env url with
  | NullReply => TypeError (read_of_null env property)
  | NoReply | Reply _ => FetchError url
  end.

(** The manifest, when [manifest.json] holds an array [files] without
    [null] entries. *)
Definition json_manifest (env : Env) (data : bytes) : option ModpackManifest :=
  match json_parse env data with
  | Files entries _ => (λ fs, {| files := fs |}) <$> mapM (λ e, e) entries
  | NotJSON _ | NoFiles _ | NoMap _ _ => None
  end.

Definition show_nat (n : nat) : string := DecimalString.NilZero.string_of_uint (Nat.to_uint n).

Definition api_url (projectId fileId : string) : string :=
  "https://addons-ecs.forgesvc.net/api/v2/addon/" +:+ projectId +:+ "/file/" +:+ fileId.

(** [fetchModFileInfo], which goes through [fetchJSON].  [Return None]
    is the reply [null]. *)
Definition fetchModFileInfo (env : Env) (projectId fileId : string) (w : World)
    : outcome (option ModFileInfo) * World :=
  let url := api_url projectId fileId in
  match reply env url with
  | Reply info => (Return (Some info), log_request url w)
  | NullReply => (Return None, log_request url w)
  | NoReply => (Throw (FetchError url), log_request url w)
  end.

(** [downloadModpack]. *)
Definition downloadModpack (env : Env) (modpackInfo : ModFileInfo) (w : World)
    : outcome Zip.JSZip * World :=
  let w := log_request (downloadUrl modpackInfo) w in
  match http_body env (downloadUrl modpackInfo) with
  | None => (Throw (FetchError (downloadUrl modpackInfo)), w)
  | Some buffer =>
      match loadAsync env buffer with
      | Some zip => (Return zip, w)
      | None => (Throw (Error (loadAsync_error env buffer)), w)
      end
  end.

(* ===================================================================== *)
(** ** [parseCommandLineArgs] *)
(* ===================================================================== *)

Record Args := { targetDir : string; addonId : string; fileId : string }.

(** JavaScript's [!x] for a string that may be [undefined] or [null]. *)
Definition falsy (x : option string) : bool :=
  match x with
  | None => true
  | Some s => String.eqb s ""
  end.

Definition usage : string :=
  "Usage: modpack-downloader modpack_url(curseforge://install/...) target_directory
".

Definition printUsage (w : World) : World := write_stderr usage w.

(** [argv] is [process.argv]: the interpreter, the script, then the
    arguments.  Both builds of the program have this same function.  For
    a string with a special scheme the platform decides whether it is a
    URL; if it is, its [protocol] is that scheme's and not
    [curseforge:]. *)
Definition parseCommandLineArgs (env : Env) (argv : list string) (w : World)
    : outcome Args * World :=
  let strModpackUrl := argv !! 2 in
  let targetDir := argv !! 3 in
  if falsy strModpackUrl
     || bool_decide (strModpackUrl = Some "--help")
     || falsy targetDir
  then (Exit 1, printUsage w)
  else
    match Url.parse (default "" strModpackUrl) with
    | Url.Invalid => (Throw (TypeError "Invalid URL"), w)
    | Url.Special _ =>
        if special_url env (default "" strModpackUrl)
        then (Throw (Error "bad url"), w)
        else (Throw (TypeError "Invalid URL"), w)
    | Url.Parsed modpackUrl =>
        if negb (String.eqb (Url.protocol modpackUrl) "curseforge:")
           || negb (String.eqb (Url.hostname modpackUrl) "install")
        then (Throw (Error "bad url"), w)
        else
          let addonId := Url.get "addonId" (Url.searchParams modpackUrl) in
          let fileId := Url.get "fileId" (Url.searchParams modpackUrl) in
          if falsy addonId || falsy fileId then (Throw (Error "bad url"), w)
          else (Return {| targetDir := default "" targetDir;
                          addonId := default "" addonId;
                          fileId := default "" fileId |}, w)
    end.

(* ===================================================================== *)
(** ** The two builds, and the concurrency limiter of the bounded one *)
(* ===================================================================== *)

(** [IndexTs] is [src/index.ts]; [Part000] is the earlier build
    [src/unnamed/part_000], which has no limiter and no directory case in
    [expandOverrides]. *)
Inductive build := IndexTs | Part000.

Module Limit.

Record limiter := {
  count : nat;            (* the limit *)
  outstanding : nat;      (* jobs started and not yet settled *)
  jobs : list nat;        (* the queue: task numbers, oldest first *)
}.

Definition promiseLimit (n : nat) : limiter :=
  {| count := n; outstanding := 0; jobs := [] |}.

(** Modelled from the spec: the limiter is the [promise-limit] package,
    which is not among the sources.  "The Concurrent Downloader runs at
    most a fixed number of in-flight file transfers simultaneously,
    queuing the rest until a slot frees": a submitted job starts at once
    when fewer than [count] jobs are outstanding and is queued otherwise.
    The boolean tells whether the job starts now. *)
Definition submit (i : nat) (l : limiter) : limiter * bool :=
  if count l <=? outstanding l
  then ({| count := count l; outstanding := outstanding l; jobs := jobs l ++ [i] |}, false)
  else ({| count := count l; outstanding := S (outstanding l); jobs := jobs l |}, true).

(** Modelled from the spec: a settled job frees its slot, and the oldest
    queued job, if any, takes it.  The result names the job to start. *)
Definition release (l : limiter) : limiter * option nat :=
  let out := pred (outstanding l) in
  if out <? count l then
    match jobs l with
    | j :: rest => ({| count := count l; outstanding := S out; jobs := rest |}, Some j)
    | [] => ({| count := count l; outstanding := out; jobs := [] |}, None)
    end
  else ({| count := count l; outstanding := out; jobs := jobs l |}, None).

End Limit.

(** [const downloadLimit = promiseLimit(6)] in [src/index.ts]; the other
    build calls the task functions directly. *)
Definition downloadLimit (b : build) : option Limit.limiter :=
  match b with
  | IndexTs => Some (Limit.promiseLimit 6)
  | Part000 => None
  end.

(* ===================================================================== *)
(** ** [downloadMods]: the concurrent download phase *)
(* ===================================================================== *)

(** Where one download task stands.  A task is suspended at an [await]
    in [AwaitInfo], [AwaitBody] and [Piping]. *)
Inductive phase :=
  | Queued                                       (* held back by the limiter *)
  | AwaitInfo                                    (* [await fetchModFileInfo(...)] *)
  | AwaitBody (modInfo : ModFileInfo)            (* [await fetch(modInfo.downloadUrl)] *)
  | Piping (modInfo : ModFileInfo) (body : bytes)  (* awaiting the file's [finish] *)
  | Done (modInfo : ModFileInfo)
  | Failed (e : error).

Record Download := {
  tasks : list phase;                 (* one per entry of [manifest.files] *)
  limiter : option Limit.limiter;
  downloadedCount : nat;
  rejected : option error;            (* the first rejection, which [Promise.all] adopts *)
  crashed : option error;             (* an exception no handler caught *)
  world : World;
}.

Definition set_task (i : nat) (p : phase) (s : Download) : Download :=
  {| tasks := <[i:=p]> (tasks s); limiter := limiter s;
     downloadedCount := downloadedCount s; rejected := rejected s;
     crashed := crashed s; world := world s |}.
Definition set_limiter (l : option Limit.limiter) (s : Download) : Download :=
  {| tasks := tasks s; limiter := l;
     downloadedCount := downloadedCount s; rejected := rejected s;
     crashed := crashed s; world := world s |}.
Definition set_world (w : World) (s : Download) : Download :=
  {| tasks := tasks s; limiter := limiter s;
     downloadedCount := downloadedCount s; rejected := rejected s;
     crashed := crashed s; world := w |}.
Definition incr_downloadedCount (s : Download) : Download :=
  {| tasks := tasks s; limiter := limiter s;
     downloadedCount := S (downloadedCount s); rejected := rejected s;
     crashed := crashed s; world := world s |}.
Definition reject (e : error) (s : Download) : Download :=
  {| tasks := tasks s; limiter := limiter s;
     downloadedCount := downloadedCount s;
     rejected := match rejected s with Some e0 => Some e0 | None => Some e end;
     crashed := crashed s; world := world s |}.
Definition crash (e : error) (s : Download) : Download :=
  {| tasks := tasks s; limiter := limiter s;
     downloadedCount := downloadedCount s; rejected := rejected s;
     crashed := Some e; world := world s |}.

Definition mod_path (targetDir : string) (modInfo : ModFileInfo) : string :=
  Path.join [targetDir; "mods"; fileName modInfo].

Definition progress_line (n fileCount : nat) (modInfo : ModFileInfo) : string :=
  "(" +:+ show_nat n +:+ "/" +:+ show_nat fileCount +:+ ") " +:+ displayName modInfo +:+ "
".

Section Downloader.

Variable env : Env.
Variable targetDir : string.
Variable files : list ManifestFile.      (* [manifest.files] *)

(** The task function runs up to its first [await]: the metadata request
    is issued. *)
Definition start (i : nat) (s : Download) : Download :=
  match files !! i with
  | Some f =>
      set_world
        (log_request (api_url (projectID f) (fileID f)) (world s))
        (set_task i AwaitInfo s)
  | None => s
  end.

(** One call of the function mapped over [manifest.files]. *)
Definition submit (s : Download) (i : nat) : Download :=
  match limiter s with
  | None => start i s
  | Some l =>
      let '(l', now) := Limit.submit i l in
      if now then start i (set_limiter (Some l') s) else set_limiter (Some l') s
  end.

(** A task has settled: the limiter, when there is one, frees its slot
    and starts the oldest queued task. *)
Definition settle (s : Download) : Download :=
  match limiter s with
  | None => s
  | Some l =>
      let '(l', next) := Limit.release l in
      match next with
      | Some j => start j (set_limiter (Some l') s)
      | None => set_limiter (Some l') s
      end
  end.

Definition fail (i : nat) (e : error) (s : Download) : Download :=
  settle (reject e (set_task i (Failed e) s)).

(** The metadata of task [i] has arrived: the task requests the file. *)
Definition got_info (i : nat) (modInfo : ModFileInfo) (s : Download) : Download :=
  set_world (log_request (downloadUrl modInfo) (world s))
    (set_task i (AwaitBody modInfo) s).

(** The response of task [i] has arrived and the write stream has opened
    its file: [stream.pipe(file)]. *)
Definition piping (i : nat) (modInfo : ModFileInfo) (body : bytes)
    (f' : gmap string node) (s : Download) : Download :=
  set_world (set_fs f' (world s)) (set_task i (Piping modInfo body) s).

(** The file of task [i] has emitted [finish]: the file is closed, the
    counter is incremented and the progress line is written. *)
Definition finished (i : nat) (modInfo : ModFileInfo) (body : bytes)
    (s : Download) : Download :=
  let s1 :=
    set_world
      (set_fs (Fs.finish_write (mod_path targetDir modInfo) body (fs (world s)))
         (world s)) s in
  let s2 := incr_downloadedCount s1 in
  let s3 :=
    set_world
      (write_stderr (progress_line (downloadedCount s2) (length files) modInfo)
         (world s2))
      s2 in
  settle (set_task i (Done modInfo) s3).

(** The [await] task [i] is suspended at completes and the task runs
    on to its next [await], or to its end.  [None]: task [i] is not
    suspended at an [await], or the process is dead.  The transfer of a
    body is one step: the file holds all of it when [finish] fires.  A
    response arrives whole or not at all: a body stream that breaks on
    the way (the [reject] of [stream.on("error", ...)]) and a write that
    fails after the file has been opened are outside the model. *)
Definition resume (i : nat) (s : Download) : option Download :=
  match crashed s with
  | Some _ => None
  | None =>
      match tasks s !! i, files !! i with
      | Some AwaitInfo, Some f =>
          let url := api_url (projectID f) (fileID f) in
          match http_json env url with
          | Some modInfo => Some (got_info i modInfo s)
          | None => Some (fail i (reply_error env "downloadUrl" url) s)
          end
      | Some (AwaitBody modInfo), _ =>
          match http_body env (downloadUrl modInfo) with
          | Some body =>
              match fileNameError modInfo with
              | Some message =>
                  (* [join(targetDir, "mods", modInfo.fileName)] throws *)
                  Some (fail i (TypeError message) s)
              | None =>
                  (* [fs.createWriteStream]: nothing listens for the file's
                     [error] event, so a failed open is an uncaught exception *)
                  match Fs.open_write (mod_path targetDir modInfo) (fs (world s)) with
                  | inr f' => Some (piping i modInfo body f' s)
                  | inl e => Some (crash e s)
                  end
              end
          | None => Some (fail i (FetchError (downloadUrl modInfo)) s)
          end
      | Some (Piping modInfo body), _ => Some (finished i modInfo body s)
      | _, _ => None
      end
  end.

(** The state before the first task is submitted. *)
Definition idle (b : build) (w : World) : Download :=
  {| tasks := replicate (length files) Queued; limiter := downloadLimit b;
     downloadedCount := 0; rejected := None; crashed := None; world := w |}.

(** The state after [manifest.files.map(...)] has returned. *)
Definition launch (b : build) (w : World) : Download :=
  foldl submit (idle b w) (seq 0 (length files)).

(** The awaits complete in the order [sched] gives (a list of task
    numbers; a number that names no suspended task is skipped). *)
Definition exec (sched : list nat) (s : Download) : Download :=
  foldl (λ s i, default s (resume i s)) s sched.

Definition is_done (p : phase) : bool :=
  match p with Done _ => true | _ => false end.
Definition in_flight (p : phase) : bool :=
  match p with AwaitInfo | AwaitBody _ | Piping _ _ => true | _ => false end.
Definition is_queued (p : phase) : bool :=
  match p with Queued => true | _ => false end.

(** How [await Promise.all(promises)] ends. *)
Inductive settled :=
  | AllDone
  | Rejected (e : error)
  | Crashed (e : error)
  | Stalled.                 (* an await never completes *)

Definition status (s : Download) : option settled :=
  match crashed s, rejected s with
  | Some e, _ => Some (Crashed e)
  | None, Some e => Some (Rejected e)
  | None, None => if forallb is_done (tasks s) then Some AllDone else None
  end.

(** Runs the schedule until [Promise.all] settles; returns what is left
    of the schedule. *)
Fixpoint await_all (sched : list nat) (s : Download) : settled * Download * list nat :=
  match status s with
  | Some r => (r, s, sched)
  | None =>
      match sched with
      | [] => (Stalled, s, [])
      | i :: rest => await_all rest (default s (resume i s))
      end
  end.

End Downloader.

Definition downloading_line (fileCount : nat) : string :=
  "Downloading " +:+ show_nat fileCount +:+ " files...
".

Definition outcome_of (r : settled) : outcome unit :=
  match r with
  | AllDone => Return ()
  | Rejected e => Throw e
  | Crashed e => Crash e
  | Stalled => Hang
  end.

(** What [downloadMods] does after [JSON.parse] when the value is not a
    manifest with entries throughout.  With a [null] entry, the mapped
    function of [src/index.ts] throws when [map] reaches the entry, so
    that the entries before it have been submitted; the mapped function
    of the other build is [async], so that the tasks of all other entries
    have started when [Promise.all] adopts the rejection. *)
Definition malformed_manifest (b : build) (j : manifest_json) (w : World)
    : outcome unit * World :=
  match j with
  | NotJSON message => (Throw (SyntaxError message), w)
  | NoFiles message => (Throw (TypeError message), w)
  | NoMap fileCount message =>
      (Throw (TypeError message),
       write_stderr ("Downloading " +:+ fileCount +:+ " files...
") w)
  | Files entries message =>
      let w2 := write_stderr (downloading_line (length entries)) w in
      let submitted :=
        match b with
        | IndexTs => fst (span (λ e, negb (bool_decide (is_Some e))) entries)
        | Part000 => entries
        end in
      (Throw (TypeError message), world (launch (omap (λ e, e) submitted) b w2))
  end.

(** [downloadMods].  [sched] is the order in which the awaits of the
    download tasks complete.  The world returned is the world at the
    moment [await Promise.all(promises)] settles. *)
Definition downloadMods (b : build) (env : Env) (modpack : Zip.JSZip)
    (targetDir : string) (sched : list nat) (w : World) : outcome unit * World :=
  match Fs.mkdir_recursive (Path.join [targetDir; "mods"]) (fs w) with
  | inl e => (Throw e, w)
  | inr f1 =>
      let w1 := set_fs f1 w in
      match Zip.file "manifest.json" modpack with
      | None => (Throw (Error "invalid modpack"), w1)
      | Some manifestData =>
          match json_manifest env (Zip.data manifestData) with
          | None => malformed_manifest b (json_parse env (Zip.data manifestData)) w1
          | Some manifest =>
              let files := files manifest in
              let w2 := write_stderr (downloading_line (length files)) w1 in
              let '(r, s, _) :=
                await_all env targetDir files sched (launch files b w2) in
              (outcome_of r, world s)
          end
      end
  end.

(* ===================================================================== *)
(** ** [expandOverrides]: the sequential extraction phase *)
(* ===================================================================== *)

(** The file branch of the loop body (the whole loop body in
    [Part000]). *)
Definition extract_file (targetDir path : string) (fileData : Zip.ZipObject)
    (w : World) : outcome unit * World :=
  match Fs.mkdir_recursive (Path.join [targetDir; Path.dirname path]) (fs w) with
  | inl e => (Throw e, w)
  | inr f1 =>
      match Fs.open_write (Path.join [targetDir; path]) f1 with
      | inl e => (Throw e, set_fs f1 w)
      | inr f2 =>
          (Return (),
           write_stderr (path +:+ "
")
             (set_fs (Fs.finish_write (Path.join [targetDir; path]) (Zip.data fileData) f2)
                w))
      end
  end.

(** The directory branch of the loop body, which only [IndexTs] has. *)
Definition extract_dir (targetDir path : string) (w : World) : outcome unit * World :=
  match Fs.mkdir_recursive (Path.join [targetDir; path]) (fs w) with
  | inl e => (Throw e, w)
  | inr f1 => (Return (), set_fs f1 w)
  end.

Definition extract_entry (b : build) (targetDir : string)
    (entry : string * Zip.ZipObject) (w : World) : outcome unit * World :=
  let '(path, fileData) := entry in
  match b with
  | IndexTs =>
      if Zip.dir fileData then extract_dir targetDir path w
      else extract_file targetDir path fileData w
  | Part000 => extract_file targetDir path fileData w
  end.

Fixpoint extract_all (b : build) (targetDir : string)
    (entries : list (string * Zip.ZipObject)) (w : World) : outcome unit * World :=
  match entries with
  | [] => (Return (), w)
  | entry :: rest =>
      match extract_entry b targetDir entry w with
      | (Return _, w') => extract_all b targetDir rest w'
      | (r, w') => (r, w')
      end
  end.

Definition expandOverrides (b : build) (modpack : Zip.JSZip) (targetDir : string)
    (w : World) : outcome unit * World :=
  let w := write_stderr "Expanding overrides..." w in
  match Zip.folder "overrides" modpack with
  | None => (Throw (Error "missing overrides in modpack zip"), w)
  | Some overrides => extract_all b targetDir (Zip.forEach overrides) w
  end.

(* ===================================================================== *)
(** ** The top level *)
(* ===================================================================== *)

(** The two phases that work on the opened archive, in the order of the
    top level, and the closing line. *)
Definition install (b : build) (env : Env) (modpack : Zip.JSZip)
    (targetDir : string) (sched : list nat) (w : World) : outcome unit * World :=
  match downloadMods b env modpack targetDir sched w with
  | (Return _, w1) =>
      match expandOverrides b modpack targetDir w1 with
      | (Return _, w2) => (Return (), write_stderr "Finish!
" w2)
      | (r, w2) => (r, w2)
      end
  | (r, w1) => (r, w1)
  end.

Definition steps (b : build) (env : Env) (argv : list string) (sched : list nat)
    (w : World) : outcome unit * World :=
  match parseCommandLineArgs env argv w with
  | (Return args, w) =>
      match fetchModFileInfo env (addonId args) (fileId args) w with
      | (Return None, w) => (Throw (TypeError (read_of_null env "displayName")), w)
      | (Return (Some modpackInfo), w) =>
          let w := write_stderr ("Modpack name: " +:+ displayName modpackInfo +:+ "
") w in
          let w := write_stderr "Downloading modpack zip..." w in
          match downloadModpack env modpackInfo w with
          | (Return modpack, w) =>
              let w := write_stderr "done
" w in
              install b env modpack (targetDir args) sched w
          | (Throw e, w) => (Throw e, w)
          | (Exit n, w) => (Exit n, w)
          | (Crash e, w) => (Crash e, w)
          | (Hang, w) => (Hang, w)
          end
      | (Throw e, w) => (Throw e, w)
      | (Exit n, w) => (Exit n, w)
      | (Crash e, w) => (Crash e, w)
      | (Hang, w) => (Hang, w)
      end
  | (Throw e, w) => (Throw e, w)
  | (Exit n, w) => (Exit n, w)
  | (Crash e, w) => (Crash e, w)
  | (Hang, w) => (Hang, w)
  end.

(** The async function at the end of each file.  [IndexTs] wraps the
    steps in [try]/[catch] and hands what it catches to [console.error],
    which writes one chunk; in [Part000] a thrown error leaves the
    function unhandled.  Download tasks that are
    still suspended when an error has ended the steps are not followed
    further. *)
Definition main (b : build) (env : Env) (argv : list string) (sched : list nat)
    (w : World) : outcome unit * World :=
  match steps b env argv sched w, b with
  | (Throw e, w'), IndexTs => (Return (), write_stderr (console_error env e) w')
  | (Throw e, w'), Part000 => (Crash e, w')
  | r, _ => r
  end.

(* ===================================================================== *)
(** ** Sample archives and environments *)
(* ===================================================================== *)

Module Sample.

Definition text (s : string) : bytes := String.list_byte_of_string s.

Definition infoA : ModFileInfo :=
  {| id := 2; displayName := "A"; fileName := "a.jar"; fileNameError := None;
     downloadUrl := "http://x/a.jar" |}.
Definition infoB : ModFileInfo :=
  {| id := 4; displayName := "B"; fileName := "b.jar"; fileNameError := None;
     downloadUrl := "http://x/b.jar" |}.
(** Another project whose file has the name of [infoA]'s. *)
Definition infoA' : ModFileInfo :=
  {| id := 6; displayName := "A2"; fileName := "a.jar"; fileNameError := None;
     downloadUrl := "http://y/a.jar" |}.

Definition bodyA : bytes := text "0123456789".
Definition bodyB : bytes := text "bbbb".
Definition bodyA' : bytes := text "other".

Definition entry12 : ManifestFile := {| projectID := "1"; fileID := "2" |}.
Definition entry34 : ManifestFile := {| projectID := "3"; fileID := "4" |}.
Definition entry56 : ManifestFile := {| projectID := "5"; fileID := "6" |}.

(** The manifests are told apart by the bytes of their entry. *)
Definition manifest_of (b : bytes) : option ModpackManifest :=
  if bool_decide (b = text "m12") then Some {| files := [entry12] |}
  else if bool_decide (b = text "m12,12") then Some {| files := [entry12; entry12] |}
  else if bool_decide (b = text "m12,34") then Some {| files := [entry12; entry34] |}
  else if bool_decide (b = text "m34,12") then Some {| files := [entry34; entry12] |}
  else if bool_decide (b = text "m12,56") then Some {| files := [entry12; entry56] |}
  else if bool_decide (b = text "m56,12") then Some {| files := [entry56; entry12] |}
  else if bool_decide (b = text "m") then Some {| files := [] |}
  else None.

(** The texts of the platform, of one version of it. *)
Definition null_message (property : string) : string :=
  "Cannot read properties of null (reading '" +:+ property +:+ "')".
Definition inspect (e : error) : string :=
  match e with
  | Error m => "Error: " +:+ m
  | TypeError m => "TypeError: " +:+ m
  | SyntaxError m => "SyntaxError: " +:+ m
  | SystemError c p => "Error: " +:+ c +:+ ": " +:+ p
  | FetchError u => "FetchError: request to " +:+ u +:+ " failed"
  end +:+ "
    at <anonymous>
".

Definition parse_manifest (b : bytes) : manifest_json :=
  match manifest_of b with
  | Some manifest => Files (Some <$> files manifest) ""
  | None => NotJSON "Unexpected end of JSON input"
  end.

Definition env : Env :=
  {| special_url := λ _, true;
     reply := λ url,
       if String.eqb url (api_url "1" "2") then Reply infoA
       else if String.eqb url (api_url "3" "4") then Reply infoB
       else if String.eqb url (api_url "5" "6") then Reply infoA'
       else NoReply;
     http_body := λ url,
       if String.eqb url "http://x/a.jar" then Some bodyA
       else if String.eqb url "http://x/b.jar" then Some bodyB
       else if String.eqb url "http://y/a.jar" then Some bodyA'
       else None;
     json_parse := parse_manifest;
     loadAsync := λ _, None;
     loadAsync_error := λ _, "Can't find end of central directory";
     read_of_null := null_message;
     console_error := inspect |}.

(** [env] with other replies of the API, and with another [JSON.parse]. *)
Definition with_reply (r : string → reply_json) : Env :=
  {| special_url := special_url env; reply := r; http_body := http_body env;
     json_parse := json_parse env; loadAsync := loadAsync env;
     loadAsync_error := loadAsync_error env; read_of_null := read_of_null env;
     console_error := console_error env |}.
Definition with_json (p : bytes → manifest_json) : Env :=
  {| special_url := special_url env; reply := reply env; http_body := http_body env;
     json_parse := p; loadAsync := loadAsync env;
     loadAsync_error := loadAsync_error env; read_of_null := read_of_null env;
     console_error := console_error env |}.

Definition file_entry (n : string) (content : bytes) : string * Zip.ZipObject :=
  (n, {| Zip.name := n; Zip.dir := false; Zip.data := content |}).
Definition dir_entry (n : string) : string * Zip.ZipObject :=
  (n, {| Zip.name := n; Zip.dir := true; Zip.data := [] |}).

Definition archive (entries : list (string * Zip.ZipObject)) : Zip.JSZip :=
  {| Zip.files := entries; Zip.root := "" |}.

(** An archive that holds nothing but the manifest with bytes [m]. *)
Definition pack_of (m : string) : Zip.JSZip :=
  archive [ file_entry "manifest.json" (text m) ].

(** One mod, two override files, no directory entries. *)
Definition pack : Zip.JSZip :=
  archive [ file_entry "manifest.json" (text "m12");
            file_entry "overrides/options.txt" (text "opt");
            file_entry "overrides/config/a.cfg" (text "cfg") ].

(** The same with the directory entries a zip tool writes. *)
Definition pack_dirs : Zip.JSZip :=
  archive [ file_entry "manifest.json" (text "m12");
            dir_entry "overrides/";
            dir_entry "overrides/config/";
            file_entry "overrides/config/a.cfg" (text "cfg");
            dir_entry "overrides/saves/" ].

(** No manifest. *)
Definition pack_no_manifest : Zip.JSZip :=
  archive [ file_entry "overrides/options.txt" (text "opt") ].

(** No overrides. *)
Definition pack_no_overrides : Zip.JSZip :=
  archive [ file_entry "manifest.json" (text "m12") ].

(** A manifest that lists the same file twice. *)
Definition pack_twice : Zip.JSZip :=
  archive [ file_entry "manifest.json" (text "m12,12");
            file_entry "overrides/options.txt" (text "opt") ].

End Sample.

(* ===================================================================== *)
(** ** The vocabulary of the properties *)
(* ===================================================================== *)

(** The literal form [curseforge://install?addonId=X&fileId=Y]. *)
Definition curseforge_uri (X Y : string) : string :=
  "curseforge://install?addonId=" +:+ X +:+ "&fileId=" +:+ Y.

(** The characters that a query value hands through to [searchParams]
    unchanged: all but tab, LF and CR (removed from the input), [#] (ends
    the query), [&] (ends the pair), [%] (starts an escape) and [+] (read
    as a space). *)
Definition is_verbatim (c : ascii) : bool :=
  negb (Chars.is_tab_or_newline c || Chars.eqc c "#" || Chars.eqc c "&"
        || Chars.eqc c "%" || Chars.eqc c "+").

(** A non-empty string of such characters that is well-formed UTF-8 (as
    the encoding of a JavaScript string is). *)
Definition verbatim (s : string) : Prop :=
  s ≠ "" ∧ Forall (λ c, is_verbatim c = true) (unstr s)
  ∧ Url.utf8_decode (unstr s) = unstr s.

(** The string does not end in a C0 control or a space, which the URL
    parser removes at the end of its input. *)
Definition untrimmed (s : string) : Prop :=
  ∀ c, last (unstr s) = Some c → Chars.is_c0_or_space c = false.

(** No entry of the archive has a name that starts with [d]. *)
Definition no_entry_below (d : string) (z : Zip.JSZip) : Prop :=
  Forall (λ e, Zip.strip_prefix d e.1 = None) (Zip.files z).

(** The number of elements of [l] that satisfy [p]. *)
Fixpoint count_if {A} (p : A → bool) (l : list A) : nat :=
  match l with
  | [] => 0
  | x :: l' => (if p x then 1 else 0) + count_if p l'
  end.

(** The limiter's books agree with the tasks: [outstanding] counts the
    tasks in flight (plus [slack], the slots of tasks that have settled
    and not yet released theirs), the queue lists exactly the tasks held
    back among the first [n], and nothing waits while a slot is free. *)
Definition limiter_ok (slack n : nat) (ts : list phase)
    (lim : option Limit.limiter) : Prop :=
  match lim with
  | None => ∀ i, i < n → ts !! i ≠ Some Queued
  | Some l =>
      Limit.count l = 6
      ∧ Limit.outstanding l = count_if in_flight ts + slack
      ∧ Limit.outstanding l ≤ 6
      ∧ NoDup (Limit.jobs l)
      ∧ Forall (λ j, j < n ∧ ts !! j = Some Queued) (Limit.jobs l)
      ∧ (∀ i, i < n → ts !! i = Some Queued → i ∈ Limit.jobs l)
      ∧ (Limit.jobs l ≠ [] → Limit.outstanding l = 6)
  end.

(** The invariant of the download phase after [n] of the tasks have been
    submitted. *)
Record invariant (slack n : nat) (files : list ManifestFile) (s : Download) : Prop := {
  inv_length : length (tasks s) = length files;
  inv_bound : n ≤ length files;
  inv_rest : ∀ i, n ≤ i → i < length files → tasks s !! i = Some Queued;
  inv_count : downloadedCount s = count_if is_done (tasks s);
  inv_limiter : limiter_ok slack n (tasks s) (limiter s);
}.

(** What a step of the download phase is: one of six events. *)
Inductive step (env : Env) (targetDir : string) (files : list ManifestFile)
    (i : nat) (s : Download) : Download → Prop :=
  | step_info f modInfo :
      tasks s !! i = Some AwaitInfo → files !! i = Some f →
      http_json env (api_url (projectID f) (fileID f)) = Some modInfo →
      step env targetDir files i s (got_info i modInfo s)
  | step_info_failed f :
      tasks s !! i = Some AwaitInfo → files !! i = Some f →
      http_json env (api_url (projectID f) (fileID f)) = None →
      step env targetDir files i s
        (fail files i
           (reply_error env "downloadUrl" (api_url (projectID f) (fileID f))) s)
  | step_body modInfo body f' :
      tasks s !! i = Some (AwaitBody modInfo) →
      http_body env (downloadUrl modInfo) = Some body →
      fileNameError modInfo = None →
      Fs.open_write (mod_path targetDir modInfo) (fs (world s)) = inr f' →
      step env targetDir files i s (piping i modInfo body f' s)
  | step_open_failed modInfo body e :
      tasks s !! i = Some (AwaitBody modInfo) →
      http_body env (downloadUrl modInfo) = Some body →
      fileNameError modInfo = None →
      Fs.open_write (mod_path targetDir modInfo) (fs (world s)) = inl e →
      step env targetDir files i s (crash e s)
  | step_name_failed modInfo body message :
      tasks s !! i = Some (AwaitBody modInfo) →
      http_body env (downloadUrl modInfo) = Some body →
      fileNameError modInfo = Some message →
      step env targetDir files i s (fail files i (TypeError message) s)
  | step_body_failed modInfo :
      tasks s !! i = Some (AwaitBody modInfo) →
      http_body env (downloadUrl modInfo) = None →
      step env targetDir files i s (fail files i (FetchError (downloadUrl modInfo)) s)
  | step_finish modInfo body :
      tasks s !! i = Some (Piping modInfo body) →
      step env targetDir files i s (finished targetDir files i modInfo body s).

(** Whether the state has a limiter is fixed by the build. *)
Definition bounded (s : Download) : bool :=
  match limiter s with Some _ => true | None => false end.

(** A world in which [out/mods] exists. *)
Definition world_with_mods : World :=
  set_fs (Fs.make_dirs ["out/mods"; "out"] ∅) empty_world.

(** A world in which [out] is a regular file, and one in which
    [out/saves] is. *)
Definition world_out_is_file : World := set_fs {[ "out" := File [] ]} empty_world.
Definition world_saves_is_file : World :=
  set_fs {[ "out" := Dir; "out/saves" := File [] ]} empty_world.

(** The paths at which [mkdir(p, { recursive: true })] needs a directory
    or room for one: [p] and the paths above it. *)
Definition dirs_of (p : string) : list string :=
  Fs.ancestors (S (String.length (Fs.key p))) (Fs.key p).

(** What one step does to its own task and to the filesystem. *)
Inductive effect (env : Env) (targetDir : string) (files : list ManifestFile)
    (i : nat) (s s' : Download) : Prop :=
  | eff_crash :
      tasks s' = tasks s → fs (world s') = fs (world s) →
      effect env targetDir files i s s'
  | eff_info f modInfo :
      tasks s !! i = Some AwaitInfo → tasks s' !! i = Some (AwaitBody modInfo) →
      files !! i = Some f →
      http_json env (api_url (projectID f) (fileID f)) = Some modInfo →
      fs (world s') = fs (world s) →
      effect env targetDir files i s s'
  | eff_fail e :
      tasks s !! i = Some AwaitInfo ∨ (∃ modInfo, tasks s !! i = Some (AwaitBody modInfo)) →
      tasks s' !! i = Some (Failed e) →
      fs (world s') = fs (world s) →
      effect env targetDir files i s s'
  | eff_open modInfo body :
      tasks s !! i = Some (AwaitBody modInfo) →
      tasks s' !! i = Some (Piping modInfo body) →
      http_body env (downloadUrl modInfo) = Some body →
      fs (world s') = <[Fs.key (mod_path targetDir modInfo) := File []]> (fs (world s)) →
      effect env targetDir files i s s'
  | eff_finish modInfo body :
      tasks s !! i = Some (Piping modInfo body) →
      tasks s' !! i = Some (Done modInfo) →
      fs (world s')
      = <[Fs.key (mod_path targetDir modInfo) := File body]> (fs (world s)) →
      effect env targetDir files i s s'.

(** Another task is untouched by a step, unless the limiter starts it. *)
Definition undisturbed (ts ts' : list phase) (j : nat) : Prop :=
  ts' !! j = ts !! j ∨ (ts !! j = Some Queued ∧ ts' !! j = Some AwaitInfo).

(** The metadata a task has received, and the metadata of a task whose
    file exists (it is being written, or is complete). *)
Definition carries (p : phase) : option ModFileInfo :=
  match p with
  | AwaitBody m | Piping m _ | Done m => Some m
  | _ => None
  end.
Definition holding (p : phase) : option ModFileInfo :=
  match p with
  | Piping m _ | Done m => Some m
  | _ => None
  end.

(** Some task has opened the file at key [k]. *)
Definition opened (targetDir : string) (ts : list phase) (k : string) : Prop :=
  ∃ i p m, ts !! i = Some p ∧ holding p = Some m ∧ Fs.key (mod_path targetDir m) = k.

(** Entry [i] of the manifest resolves to the metadata [m]. *)
Definition resolves (env : Env) (files : list ManifestFile) (i : nat)
    (m : ModFileInfo) : Prop :=
  ∃ f, files !! i = Some f
       ∧ http_json env (api_url (projectID f) (fileID f)) = Some m.

(** The path of the file a manifest entry is downloaded to. *)
Definition mod_key (env : Env) (targetDir : string) (f : ManifestFile) : option string :=
  (λ m, Fs.key (mod_path targetDir m))
    <$> http_json env (api_url (projectID f) (fileID f)).
Definition mod_keys (env : Env) (targetDir : string) (files : list ManifestFile)
    : list string :=
  omap (mod_key env targetDir) files.

(** The files on disk are those that were there at the start ([f0]) and
    those the tasks have opened. *)
Record fs_inv (env : Env) (targetDir : string) (files : list ManifestFile)
    (f0 : gmap string node) (s : Download) : Prop := {
  fi_info : ∀ i p m, tasks s !! i = Some p → carries p = Some m → resolves env files i m;
  fi_body : ∀ i m body, tasks s !! i = Some (Piping m body) →
                        http_body env (downloadUrl m) = Some body;
  fi_done : ∀ i m, tasks s !! i = Some (Done m) →
                   is_Some (http_body env (downloadUrl m));
  fi_files : ∀ k, Fs.is_file (fs (world s)) k = true
                  ↔ Fs.is_file f0 k = true ∨ opened targetDir (tasks s) k;
}.

(** When no two entries resolve to the same path: a completed task's
    file holds its body, and every other path is as it was at the
    start. *)
Record content_inv (env : Env) (targetDir : string) (f0 : gmap string node)
    (s : Download) : Prop := {
  ci_done : ∀ i m body, tasks s !! i = Some (Done m) →
                        http_body env (downloadUrl m) = Some body →
                        fs (world s) !! Fs.key (mod_path targetDir m) = Some (File body);
  ci_other : ∀ k, ¬ opened targetDir (tasks s) k → fs (world s) !! k = f0 !! k;
}.

(** No two entries of the manifest resolve to the same path. *)
Definition distinct_paths (env : Env) (targetDir : string)
    (files : list ManifestFile) : Prop :=
  ∀ i j mi mj, resolves env files i mi → resolves env files j mj →
               Fs.key (mod_path targetDir mi) = Fs.key (mod_path targetDir mj) → i = j.

(** JSZip names directory entries with a trailing [/]. *)
Definition wf_archive (z : Zip.JSZip) : Prop :=
  Forall (λ e, Zip.dir e.2 = true → Path.has_trailing_slash e.1 = true) (Zip.files z).

(** The entries [expandOverrides] iterates over, and those of them that
    are files. *)
Definition override_entries (modpack : Zip.JSZip) : list (string * Zip.ZipObject) :=
  match Zip.folder "overrides" modpack with
  | Some overrides => Zip.forEach overrides
  | None => []
  end.
Definition is_file_entry (e : string * Zip.ZipObject) : bool := negb (Zip.dir e.2).
Definition file_entries (modpack : Zip.JSZip) : list (string * Zip.ZipObject) :=
  List.filter is_file_entry (override_entries modpack).

(** The paths the file entries of [overrides/] are extracted to. *)
Definition override_key (targetDir : string) (e : string * Zip.ZipObject) : string :=
  Fs.key (Path.join [targetDir; e.1]).
Definition override_keys (targetDir : string) (modpack : Zip.JSZip) : list string :=
  override_key targetDir <$> file_entries modpack.

(** The progress lines of the files [ms], in the order of completion:
    the first is numbered 1. *)
Definition progress_lines (fileCount : nat) (ms : list ModFileInfo) : list string :=
  imap (λ i m, progress_line (S i) fileCount m) ms.

(** [f'] has kept what [f] had: every path that named a file names a
    file, and every path that named a directory names a directory. *)
Definition fs_grows (f f' : gmap string node) : Prop :=
  ∀ k n, f !! k = Some n →
         ∃ n', f' !! k = Some n' ∧ Fs.holds_file n' = Fs.holds_file n.

(** The line [expandOverrides] prints for an extracted file. *)
Definition entry_line (e : string * Zip.ZipObject) : string := e.1 +:+ "
".

(** The requests the download phase may issue: the metadata request of a
    manifest entry, and the file request the metadata answers with. *)
Definition expected_request (env : Env) (files : list ManifestFile) (url : string)
    : Prop :=
  ∃ f, f ∈ files
       ∧ (url = api_url (projectID f) (fileID f)
          ∨ ∃ m, http_json env (api_url (projectID f) (fileID f))
                 = Some m
                 ∧ url = downloadUrl m).

(** The metadata of the completed tasks, in the order of the manifest. *)
Definition done_info (p : phase) : option ModFileInfo :=
  match p with Done m => Some m | _ => None end.
Definition completed (ts : list phase) : list ModFileInfo := omap done_info ts.

(** The awaits a task has before it, and their sum over the tasks. *)
Definition awaits_left (p : phase) : nat :=
  match p with
  | Queued | AwaitInfo => 3
  | AwaitBody _ => 2
  | Piping _ _ => 1
  | Done _ | Failed _ => 0
  end.
Fixpoint work_left (ts : list phase) : nat :=
  match ts with
  | [] => 0
  | p :: ts' => awaits_left p + work_left ts'
  end.

(** What one step does to its own task, to the counter, to standard
    error and to the two records of failure. *)
Inductive advance (files : list ManifestFile) (i : nat) (s s' : Download) : Prop :=
  | adv_crash m :
      tasks s !! i = Some (AwaitBody m) → tasks s' = tasks s →
      is_Some (crashed s') → rejected s' = rejected s →
      downloadedCount s' = downloadedCount s →
      stderr (world s') = stderr (world s) →
      advance files i s s'
  | adv_move old new :
      tasks s !! i = Some old → tasks s' !! i = Some new →
      in_flight old = true → in_flight new = true →
      awaits_left new < awaits_left old →
      crashed s' = crashed s → rejected s' = rejected s →
      downloadedCount s' = downloadedCount s →
      stderr (world s') = stderr (world s) →
      advance files i s s'
  | adv_fail old e :
      tasks s !! i = Some old → tasks s' !! i = Some (Failed e) →
      in_flight old = true →
      crashed s' = crashed s → is_Some (rejected s') →
      downloadedCount s' = downloadedCount s →
      stderr (world s') = stderr (world s) →
      advance files i s s'
  | adv_finish m body :
      tasks s !! i = Some (Piping m body) → tasks s' !! i = Some (Done m) →
      crashed s' = crashed s → rejected s' = rejected s →
      downloadedCount s' = S (downloadedCount s) →
      stderr (world s')
      = stderr (world s) ++ [progress_line (S (downloadedCount s)) (length files) m] →
      advance files i s s'.

(** The metadata the manifest's entries resolve to, in manifest order. *)
Definition mod_infos (env : Env) (files : list ManifestFile) : list ModFileInfo :=
  omap (λ f, http_json env (api_url (projectID f) (fileID f))) files.

(** The archive the run works on: what [fetchModFileInfo] and
    [downloadModpack] obtain for the arguments, if they succeed. *)
Definition fetch_archive (env : Env) (args : Args) : option (ModFileInfo * Zip.JSZip) :=
  info ← http_json env (api_url (addonId args) (fileId args));
  buffer ← http_body env (downloadUrl info);
  zip ← loadAsync env buffer;
  Some (info, zip).

(** What a run writes before it opens the archive. *)
Definition preamble (info : ModFileInfo) : list string :=
  ["Modpack name: " +:+ displayName info +:+ "
"; "Downloading modpack zip..."; "done
"].

(** An environment that also serves a modpack: file 8 of project 7 is
    the archive [Sample.pack_dirs]. *)
Definition pack_info : ModFileInfo :=
  {| id := 8; displayName := "Pack"; fileName := "pack.zip"; fileNameError := None;
     downloadUrl := "http://x/pack.zip" |}.
Definition serving_env : Env :=
  {| special_url := special_url Sample.env;
     reply := λ url,
       if String.eqb url (api_url "7" "8") then Reply pack_info
       else reply Sample.env url;
     http_body := λ url,
       if String.eqb url "http://x/pack.zip" then Some (Sample.text "zip")
       else http_body Sample.env url;
     json_parse := json_parse Sample.env;
     loadAsync := λ buffer,
       if bool_decide (buffer = Sample.text "zip") then Some Sample.pack_dirs else None;
     loadAsync_error := loadAsync_error Sample.env;
     read_of_null := read_of_null Sample.env;
     console_error := console_error Sample.env |}.

Definition sample_argv : list string :=
  ["node"; "modpack-downloader"; "curseforge://install?addonId=7&fileId=8"; "out"].

(* ===================================================================== *)
(** * Properties *)
(* ===================================================================== *)

(** ** The model on examples *)

Example join_mods : Path.join ["out"; "mods"; "a.jar"] = "out/mods/a.jar".
Proof. reflexivity. Qed.
Example join_dir_marker : Path.join ["out"; "config/"] = "out/config/".
Proof. reflexivity. Qed.
Example join_dotdot : Path.join ["out"; "mods"; "../x.jar"] = "out/x.jar".
Proof. reflexivity. Qed.
Example dirname_marker : Path.dirname "config/" = ".".
Proof. reflexivity. Qed.
Example dirname_nested : Path.dirname "a/b/c.txt" = "a/b".
Proof. reflexivity. Qed.
Example dirname_double : Path.dirname "a//b" = "a/".
Proof. reflexivity. Qed.

Example url_ok :
  Url.parse "curseforge://install?addonId=238222&fileId=3040523"
  = Url.Parsed
      {| Url.protocol := "curseforge:"; Url.hostname := "install";
         Url.query := "addonId=238222&fileId=3040523";
         Url.searchParams := [("addonId", "238222"); ("fileId", "3040523")] |}.
Proof. reflexivity. Qed.
Example url_upper_scheme :
  Url.protocol <$> Url.url_of (Url.parse "CurseForge://Install?addonId=1")
  = Some "curseforge:"
  ∧ Url.hostname <$> Url.url_of (Url.parse "CurseForge://Install?addonId=1")
    = Some "Install".
Proof. split; reflexivity. Qed.
Example url_decoding :
  Url.searchParams
    <$> Url.url_of (Url.parse "curseforge://install?addonId=a%20b+c&fileId=&x#f=1")
  = Some [("addonId", "a b c"); ("fileId", ""); ("x", "")].
Proof. reflexivity. Qed.
Example url_query_encoded :
  Url.query <$> Url.url_of (Url.parse "curseforge://install?addonId=a b<c>&fileId='1'")
  = Some "addonId=a%20b%3Cc%3E&fileId='1'".
Proof. reflexivity. Qed.
Example url_userinfo_port :
  Url.hostname <$> Url.url_of (Url.parse "curseforge://u:p@install:80/path?addonId=1")
  = Some "install".
Proof. reflexivity. Qed.
Example url_bad_port : Url.parse "curseforge://install:65536?addonId=1" = Url.Invalid.
Proof. reflexivity. Qed.
Example url_no_scheme : Url.parse "install?addonId=1&fileId=2" = Url.Invalid.
Proof. reflexivity. Qed.
Example url_opaque_path :
  Url.hostname <$> Url.url_of (Url.parse "curseforge:install?addonId=1&fileId=2")
  = Some "".
Proof. reflexivity. Qed.
Example url_forbidden_host : Url.parse "curseforge://in stall?addonId=1" = Url.Invalid.
Proof. reflexivity. Qed.
Example url_ipv6_host :
  Url.hostname <$> Url.url_of (Url.parse "curseforge://[1:0:0:2:0:0:0:3]:8080?addonId=1")
  = Some "[1:0:0:2::3]"
  ∧ Url.hostname <$> Url.url_of (Url.parse "curseforge://[::FFFF:1.2.3.4]?addonId=1")
    = Some "[::ffff:102:304]".
Proof. split; reflexivity. Qed.
Example url_ipv6_invalid :
  Url.parse "curseforge://[::1]x?addonId=1" = Url.Invalid
  ∧ Url.parse "curseforge://[1::2::3]?addonId=1" = Url.Invalid
  ∧ Url.parse "curseforge://[install]?addonId=1" = Url.Invalid.
Proof. repeat split; reflexivity. Qed.
Example url_special_scheme :
  Url.parse "http://install?addonId=1&fileId=2" = Url.Special "http"
  ∧ Url.parse "FILE:x" = Url.Special "file".
Proof. split; reflexivity. Qed.
Example url_ill_formed_escape :
  Url.searchParams <$> Url.url_of (Url.parse "curseforge://install?addonId=%FF&fileId=%zz")
  = Some [("addonId", str Url.replacement); ("fileId", "%zz")].
Proof. reflexivity. Qed.

Example parse_ok :
  fst (parseCommandLineArgs Sample.env
         ["node"; "index.js"; "curseforge://install?addonId=238222&fileId=3040523"; "out"]
         empty_world)
  = Return {| targetDir := "out"; addonId := "238222"; fileId := "3040523" |}.
Proof. reflexivity. Qed.
Example parse_help :
  fst (parseCommandLineArgs Sample.env ["node"; "index.js"; "--help"; "out"] empty_world)
  = Exit 1.
Proof. reflexivity. Qed.
Example parse_no_target :
  parseCommandLineArgs Sample.env
    ["node"; "index.js"; "curseforge://install?addonId=1&fileId=2"] empty_world
  = (Exit 1, {| fs := ∅; stderr := [usage]; requests := [] |}).
Proof. reflexivity. Qed.
Example parse_empty_id :
  fst (parseCommandLineArgs Sample.env
         ["node"; "index.js"; "curseforge://install?addonId=&fileId=2"; "out"] empty_world)
  = Throw (Error "bad url").
Proof. reflexivity. Qed.
Example parse_punctuation :
  fst (parseCommandLineArgs Sample.env
         ["node"; "index.js"; curseforge_uri "a!b" "1:2"; "out"] empty_world)
  = Return {| targetDir := "out"; addonId := "a!b"; fileId := "1:2" |}.
Proof. reflexivity. Qed.

(** Identifiers with a character that is not handed through come back
    changed, or not at all. *)
Example parse_plus :
  fst (parseCommandLineArgs Sample.env
         ["node"; "index.js"; curseforge_uri "a+b" "2"; "out"] empty_world)
  = Return {| targetDir := "out"; addonId := "a b"; fileId := "2" |}.
Proof. reflexivity. Qed.
Example parse_escape :
  fst (parseCommandLineArgs Sample.env
         ["node"; "index.js"; curseforge_uri "%41" "2"; "out"] empty_world)
  = Return {| targetDir := "out"; addonId := "A"; fileId := "2" |}.
Proof. reflexivity. Qed.
Example parse_ampersand :
  fst (parseCommandLineArgs Sample.env
         ["node"; "index.js"; curseforge_uri "a&b" "2"; "out"] empty_world)
  = Return {| targetDir := "out"; addonId := "a"; fileId := "2" |}.
Proof. reflexivity. Qed.
Example parse_hash :
  fst (parseCommandLineArgs Sample.env
         ["node"; "index.js"; curseforge_uri "a#b" "2"; "out"] empty_world)
  = Throw (Error "bad url").
Proof. reflexivity. Qed.
Example parse_tab :
  fst (parseCommandLineArgs Sample.env
         ["node"; "index.js";
          curseforge_uri (str ["a"%char; ascii_of_nat 9; "b"%char]) "2"; "out"]
         empty_world)
  = Return {| targetDir := "out"; addonId := "ab"; fileId := "2" |}.
Proof. reflexivity. Qed.
Example parse_trailing_space :
  fst (parseCommandLineArgs Sample.env
         ["node"; "index.js"; curseforge_uri "1" "2 "; "out"] empty_world)
  = Return {| targetDir := "out"; addonId := "1"; fileId := "2" |}.
Proof. reflexivity. Qed.
Example parse_inner_space :
  fst (parseCommandLineArgs Sample.env
         ["node"; "index.js"; curseforge_uri "1 " "2 3"; "out"] empty_world)
  = Return {| targetDir := "out"; addonId := "1 "; fileId := "2 3" |}.
Proof. reflexivity. Qed.

(** ** Argument parsing *)

Lemma falsy_Some (s : string) : falsy (Some s) = false ↔ s ≠ "".
Proof. unfold falsy. apply String.eqb_neq. Qed.

Lemma falsy_true (x : option string) : falsy x = true ↔ x = None ∨ x = Some "".
Proof.
  destruct x as [s|]; simpl.
  - rewrite String.eqb_eq. split; [intros ->; by right | intros [?|?]; congruence].
  - split; [by left | done].
Qed.

(** With a non-empty URL argument other than [--help] and a non-empty
    target directory, the usage branch is not taken and the result is
    decided by the URL alone. *)
Lemma parseCommandLineArgs_url (env : Env) (node script s t : string) (w : World) :
  s ≠ "" → s ≠ "--help" → t ≠ "" →
  parseCommandLineArgs env [node; script; s; t] w =
    match Url.parse s with
    | Url.Invalid => (Throw (TypeError "Invalid URL"), w)
    | Url.Special _ =>
        if special_url env s then (Throw (Error "bad url"), w)
        else (Throw (TypeError "Invalid URL"), w)
    | Url.Parsed u =>
        if negb (String.eqb (Url.protocol u) "curseforge:")
           || negb (String.eqb (Url.hostname u) "install")
        then (Throw (Error "bad url"), w)
        else if falsy (Url.get "addonId" (Url.searchParams u))
                || falsy (Url.get "fileId" (Url.searchParams u))
        then (Throw (Error "bad url"), w)
        else (Return {| targetDir := t;
                        addonId := default "" (Url.get "addonId" (Url.searchParams u));
                        fileId := default "" (Url.get "fileId" (Url.searchParams u)) |}, w)
    end.
Proof.
  intros Hs Hh Ht. unfold parseCommandLineArgs. cbn [lookup list_lookup default].
  simpl (_ !! _).
  apply falsy_Some in Hs as ->. apply falsy_Some in Ht as ->.
  rewrite bool_decide_eq_false_2 by congruence. reflexivity.
Qed.

(** C9. A URI whose [addonId] or [fileId] query parameter is present with
    an empty value fails with "bad url", and so does one where the
    parameter is absent: the two cases end the same way.  (A URI of a
    special scheme fails with "bad url" whatever its parameters are.) *)
Theorem empty_parameter_is_bad_url (env : Env) (node script s t : string) (w : World) :
  s ≠ "" → s ≠ "--help" → t ≠ "" →
  (∀ u, Url.parse s = Url.Parsed u →
     Url.get "addonId" (Url.searchParams u) = Some ""
     ∨ Url.get "fileId" (Url.searchParams u) = Some ""
     ∨ Url.get "addonId" (Url.searchParams u) = None
     ∨ Url.get "fileId" (Url.searchParams u) = None →
     parseCommandLineArgs env [node; script; s; t] w = (Throw (Error "bad url"), w))
  ∧ (∀ scheme, Url.parse s = Url.Special scheme → special_url env s = true →
       parseCommandLineArgs env [node; script; s; t] w = (Throw (Error "bad url"), w)).
Proof.
  intros Hs Hh Ht.
  rewrite (parseCommandLineArgs_url _ _ _ _ _ _ Hs Hh Ht). split.
  - intros u -> Hempty.
    destruct (negb _ || negb _); [reflexivity|].
    assert (falsy (Url.get "addonId" (Url.searchParams u))
            || falsy (Url.get "fileId" (Url.searchParams u)) = true) as ->; [|reflexivity].
    apply orb_true_iff. rewrite !falsy_true. tauto.
  - by intros scheme -> ->.
Qed.

Lemma empty_parameter_is_bad_url_witness :
  parseCommandLineArgs Sample.env
    ["node"; "index.js"; "curseforge://install?addonId=&fileId=2"; "out"] empty_world
  = (Throw (Error "bad url"), empty_world)
  ∧ parseCommandLineArgs Sample.env
      ["node"; "index.js"; "curseforge://install?addonId=1"; "out"] empty_world
    = (Throw (Error "bad url"), empty_world)
  ∧ parseCommandLineArgs Sample.env
      ["node"; "index.js"; "https://install?addonId=1&fileId=2"; "out"] empty_world
    = (Throw (Error "bad url"), empty_world).
Proof.
  split; [|split].
  - apply (proj1 (empty_parameter_is_bad_url Sample.env "node" "index.js"
                    "curseforge://install?addonId=&fileId=2" "out" empty_world
                    ltac:(discriminate) ltac:(discriminate) ltac:(discriminate))
             {| Url.protocol := "curseforge:"; Url.hostname := "install";
                Url.query := "addonId=&fileId=2";
                Url.searchParams := [("addonId", ""); ("fileId", "2")] |});
      [reflexivity | left; reflexivity].
  - apply (proj1 (empty_parameter_is_bad_url Sample.env "node" "index.js"
                    "curseforge://install?addonId=1" "out" empty_world
                    ltac:(discriminate) ltac:(discriminate) ltac:(discriminate))
             {| Url.protocol := "curseforge:"; Url.hostname := "install";
                Url.query := "addonId=1";
                Url.searchParams := [("addonId", "1")] |});
      [reflexivity | right; right; right; reflexivity].
  - apply (proj2 (empty_parameter_is_bad_url Sample.env "node" "index.js"
                    "https://install?addonId=1&fileId=2" "out" empty_world
                    ltac:(discriminate) ltac:(discriminate) ltac:(discriminate))
             "https"); reflexivity.
Defined.

(** *** The literal form [curseforge://install?addonId=X&fileId=Y] *)

Lemma str_unstr (s : string) : str (unstr s) = s.
Proof. apply string_of_list_ascii_of_string. Qed.

Lemma unstr_str (l : chars) : unstr (str l) = l.
Proof. apply list_ascii_of_string_of_list_ascii. Qed.

Lemma unstr_app (a b : string) : unstr (a +:+ b) = unstr a ++ unstr b.
Proof. induction a as [|c a IH]; simpl; [done | by rewrite IH]. Qed.

Lemma Forall_forallb {A} (f : A → bool) (l : list A) :
  forallb f l = true → Forall (λ c, f c = true) l.
Proof.
  induction l as [|c l IH]; simpl; [constructor|].
  intros [? ?]%andb_true_iff. constructor; auto.
Qed.

Lemma span_none {A} (p : A → bool) (l : list A) :
  Forall (λ c, p c = false) l → span p l = (l, []).
Proof.
  induction 1 as [|c l Hc _ IH]; simpl; [done|]. by rewrite Hc, IH.
Qed.

Lemma span_app {A} (p : A → bool) (a : list A) (c : A) (b : list A) :
  Forall (λ x, p x = false) a → p c = true → span p (a ++ c :: b) = (a, c :: b).
Proof.
  intros Ha Hc. induction Ha as [|x a Hx _ IH]; simpl; [by rewrite Hc|].
  by rewrite Hx, IH.
Qed.

Lemma filter_all {A} (f : A → bool) (l : list A) :
  Forall (λ c, f c = true) l → List.filter f l = l.
Proof.
  induction 1 as [|c l Hc _ IH]; simpl; [done|]. by rewrite Hc, IH.
Qed.

Lemma split_on_none (sep : ascii) (l : chars) :
  Forall (λ c, Chars.eqc c sep = false) l → split_on sep l = [l].
Proof.
  induction 1 as [|c l Hc _ IH]; simpl; [done|]. by rewrite Hc, IH.
Qed.

Lemma split_on_app (sep : ascii) (a b : chars) :
  Forall (λ c, Chars.eqc c sep = false) a →
  split_on sep (a ++ sep :: b) = a :: split_on sep b.
Proof.
  induction 1 as [|c l Hc _ IH]; simpl.
  - unfold Chars.eqc. by rewrite Ascii.eqb_refl.
  - by rewrite Hc, IH.
Qed.

(** The two digits of an escape are letters or digits, and the escape
    decodes to the character it was made from. *)
Lemma percent_encode_char (c : ascii) :
  Chars.is_alnum (Url.hex_digit (Chars.code c / 16)) = true
  ∧ Chars.is_alnum (Url.hex_digit (Chars.code c mod 16)) = true
  ∧ ∀ rest, Url.percent_decode (Url.percent_encode c ++ rest)
            = c :: Url.percent_decode rest.
Proof. destruct c as [[] [] [] [] [] [] [] []]; repeat split. Qed.

Lemma percent_decode_cons (c : ascii) (l : chars) :
  Chars.eqc c "%" = false → Url.percent_decode (c :: l) = c :: Url.percent_decode l.
Proof. intros Hc. destruct l as [|h [|lo rest]]; simpl; by rewrite ?Hc. Qed.

Lemma encode_with_cons (set : ascii → bool) (c : ascii) (l : chars) :
  Url.encode_with set (c :: l)
  = (if set c then Url.percent_encode c else [c]) ++ Url.encode_with set l.
Proof. reflexivity. Qed.

Lemma encode_with_app (set : ascii → bool) (a b : chars) :
  Url.encode_with set (a ++ b) = Url.encode_with set a ++ Url.encode_with set b.
Proof. unfold Url.encode_with. by rewrite fmap_app, join_app. Qed.

(** Percent-decoding undoes percent-encoding, whatever the set, on a
    string without [%]. *)
Lemma percent_decode_encode (set : ascii → bool) (l : chars) :
  Forall (λ c, Chars.eqc c "%" = false) l →
  Url.percent_decode (Url.encode_with set l) = l.
Proof.
  induction 1 as [|c l Hc _ IH]; [done|].
  rewrite encode_with_cons. destruct (set c).
  - destruct (percent_encode_char c) as (_ & _ & ->). by rewrite IH.
  - simpl app. rewrite percent_decode_cons by done. by rewrite IH.
Qed.

Lemma alnum_differs (c d : ascii) :
  Chars.is_alnum c = true → Chars.is_alnum d = false → Chars.eqc c d = false.
Proof.
  intros Hc Hd. destruct (Chars.eqc c d) eqn:E; [|done].
  apply Ascii.eqb_eq in E. congruence.
Qed.

(** Percent-encoding brings in no character other than [%], letters and
    digits. *)
Lemma encode_with_Forall (d : ascii) (set : ascii → bool) (l : chars) :
  Chars.is_alnum d = false → Chars.eqc "%" d = false →
  Forall (λ c, Chars.eqc c d = false) l →
  Forall (λ c, Chars.eqc c d = false) (Url.encode_with set l).
Proof.
  intros Hd Hp. induction 1 as [|c l Hc _ IH]; [constructor|].
  rewrite encode_with_cons. apply Forall_app; split; [|done].
  destruct (set c); [|by constructor].
  destruct (percent_encode_char c) as (H1 & H2 & _).
  repeat constructor; [done | |]; by apply alnum_differs.
Qed.

Lemma verbatim_char (c : ascii) :
  is_verbatim c = true →
  Chars.is_tab_or_newline c = false ∧ Chars.eqc c "#" = false
  ∧ Chars.eqc c "&" = false ∧ Chars.eqc c "%" = false ∧ Chars.eqc c "+" = false.
Proof.
  unfold is_verbatim. rewrite negb_true_iff, !orb_false_iff. tauto.
Qed.

Lemma verbatim_Forall (P : ascii → Prop) (l : chars) :
  (∀ c, is_verbatim c = true → P c) →
  Forall (λ c, is_verbatim c = true) l → Forall P l.
Proof. intros HP Hl. eapply Forall_impl; [exact Hl | exact HP]. Qed.

(** A value of verbatim characters, percent-encoded by the URL parser,
    is decoded by [searchParams] to what it was. *)
Lemma decode_component_encoded (l : chars) :
  Forall (λ c, is_verbatim c = true) l → Url.utf8_decode l = l →
  Url.decode_component (Url.encode_with Url.in_query_set l) = str l.
Proof.
  intros Hl Hutf. unfold Url.decode_component. f_equal.
  assert (Url.plus_to_space <$> Url.encode_with Url.in_query_set l
          = Url.encode_with Url.in_query_set l) as ->.
  { assert (Forall (λ c, Chars.eqc c "+" = false) (Url.encode_with Url.in_query_set l))
      as Hplus.
    { apply encode_with_Forall; [reflexivity | reflexivity |].
      revert Hl. apply verbatim_Forall. intros c Hc. by apply verbatim_char. }
    induction Hplus as [|c r Hc _ IH]; [done|].
    rewrite fmap_cons, IH. unfold Url.plus_to_space. by rewrite Hc. }
  rewrite percent_decode_encode; [done|].
  revert Hl. apply verbatim_Forall. intros c Hc. by apply verbatim_char.
Qed.

Lemma strip_id (l : chars) (c0 c1 : ascii) :
  head l = Some c0 → Chars.is_c0_or_space c0 = false →
  last l = Some c1 → Chars.is_c0_or_space c1 = false →
  Url.strip l = l.
Proof.
  intros Hh H0 Hl H1. unfold Url.strip.
  assert (drop_while Chars.is_c0_or_space l = l) as ->.
  { destruct l; simpl in *; [done|]. injection Hh as ->. by rewrite H0. }
  apply last_Some in Hl as [l' ->].
  rewrite rev_app_distr. simpl. rewrite H1. simpl. by rewrite rev_involutive.
Qed.

Lemma Forall_forallb_neg {A} (f : A → bool) (l : list A) :
  forallb (λ c, negb (f c)) l = true → Forall (λ c, f c = false) l.
Proof.
  induction l as [|c l IH]; simpl; [constructor|].
  intros [?%negb_true_iff ?]%andb_true_iff. constructor; auto.
Qed.

(** Closes a [Forall] goal over a literal list by evaluation. *)
Ltac literal :=
  first [ apply Forall_forallb; reflexivity | apply Forall_forallb_neg; reflexivity ].

Lemma last_app_r {A} (a b : list A) (c : A) : last b = Some c → last (a ++ b) = Some c.
Proof. intros [b' ->]%last_Some. by rewrite app_assoc, last_snoc. Qed.

Lemma parse_curseforge_chars (x y : chars) (cl : ascii) :
  Forall (λ c, is_verbatim c = true) x → Forall (λ c, is_verbatim c = true) y →
  Url.utf8_decode x = x → Url.utf8_decode y = y →
  last y = Some cl → Chars.is_c0_or_space cl = false →
  Url.parse (curseforge_uri (str x) (str y))
  = Url.Parsed
      {| Url.protocol := "curseforge:"; Url.hostname := "install";
         Url.query :=
           str (unstr "addonId=" ++ Url.encode_with Url.in_query_set x
                ++ unstr "&fileId=" ++ Url.encode_with Url.in_query_set y);
         Url.searchParams := [("addonId", str x); ("fileId", str y)] |}.
Proof.
  intros HX HY HXutf HYutf Hlast Hcl.
  pose (q := unstr "addonId=" ++ x ++ "&"%char :: unstr "fileId=" ++ y).
  assert (Hall : ∀ P : ascii → Prop,
            (∀ c, is_verbatim c = true → P c) →
            Forall P (unstr "addonId=") → P "&"%char → Forall P (unstr "fileId=") →
            Forall P q).
  { intros P HP H1 H2 H3. unfold q.
    apply Forall_app; split; [exact H1|].
    apply Forall_app; split; [by eapply verbatim_Forall|].
    apply Forall_cons; split; [exact H2|].
    apply Forall_app; split; [exact H3 | by eapply verbatim_Forall]. }
  assert (Hl : unstr (curseforge_uri (str x) (str y))
               = unstr "curseforge" ++ ":"%char :: "/"%char :: "/"%char
                 :: unstr "install" ++ "?"%char :: q).
  { unfold curseforge_uri, q. rewrite !unstr_app, !unstr_str. reflexivity. }
  unfold Url.parse. rewrite Hl.
  assert (Hpre : Url.preprocess
            (unstr "curseforge" ++ ":"%char :: "/"%char :: "/"%char
               :: unstr "install" ++ "?"%char :: q)
          = unstr "curseforge" ++ ":"%char :: "/"%char :: "/"%char
               :: unstr "install" ++ "?"%char :: q).
  { unfold Url.preprocess.
    rewrite (strip_id _ "c"%char cl); [| reflexivity | reflexivity | | exact Hcl].
    - apply filter_all.
      apply Forall_app; split; [literal|].
      do 3 (apply Forall_cons; split; [reflexivity|]).
      apply Forall_app; split; [literal|].
      apply Forall_cons; split; [reflexivity|].
      apply Hall; try literal; try reflexivity.
      intros c Hc. apply verbatim_char in Hc as (-> & _). done.
    - apply last_app_r. do 3 apply (last_app_r [_]). apply last_app_r.
      apply (last_app_r [_]). unfold q. do 2 apply last_app_r.
      apply (last_app_r [_]). by apply last_app_r. }
  rewrite Hpre.
  assert (Hscheme : Url.parse_scheme
            (unstr "curseforge" ++ ":"%char :: "/"%char :: "/"%char
               :: unstr "install" ++ "?"%char :: q)
          = Some (unstr "curseforge",
                  "/"%char :: "/"%char :: unstr "install" ++ "?"%char :: q)).
  { unfold Url.parse_scheme.
    change (unstr "curseforge" ++ ?r) with ("c"%char :: unstr "urseforge" ++ r).
    change (Chars.is_alpha "c") with true. cbv iota.
    change ("c"%char :: unstr "urseforge" ++ ?r) with (unstr "curseforge" ++ r).
    rewrite span_app; [reflexivity | literal | reflexivity]. }
  rewrite Hscheme.
  change (Url.is_special (unstr "curseforge")) with false.
  cbv beta iota.
  change (Path.is_slash "/" && Path.is_slash "/") with true. cbv iota.
  rewrite span_app; [| literal | reflexivity].
  change (Url.parse_authority (unstr "install")) with (Some (unstr "install")).
  cbv iota. f_equal.
  assert (Hquery : Url.query_of ("?"%char :: q)
                   = unstr "addonId=" ++ Url.encode_with Url.in_query_set x
                     ++ "&"%char :: unstr "fileId=" ++ Url.encode_with Url.in_query_set y).
  { unfold Url.query_of.
    change (span _ ("?"%char :: q)) with (@nil ascii, "?"%char :: q).
    cbn [snd]. change (Chars.eqc "?" "?") with true. cbv iota.
    rewrite span_none.
    - cbn [fst]. unfold q.
      rewrite encode_with_app, encode_with_app, encode_with_cons, encode_with_app.
      reflexivity.
    - apply Hall; try literal; try reflexivity.
      intros c Hc. by apply verbatim_char. }
  unfold Url.make. rewrite Hquery. f_equal.
  unfold Url.parse_query.
  rewrite app_assoc, split_on_app, split_on_none.
  - simpl List.filter.
    cbn [fmap list_fmap].
    unfold Url.parse_pair.
    change (span _ ("a"%char :: _))
      with (span (λ c, Chars.eqc c "=")
              (unstr "addonId" ++ "="%char :: Url.encode_with Url.in_query_set x)).
    change (span _ ("f"%char :: _))
      with (span (λ c, Chars.eqc c "=")
              (unstr "fileId" ++ "="%char :: Url.encode_with Url.in_query_set y)).
    rewrite !span_app by (first [literal | reflexivity]).
    rewrite !decode_component_encoded by done.
    reflexivity.
  - apply Forall_app; split; [literal|].
    apply encode_with_Forall; [reflexivity | reflexivity |].
    revert HY. apply verbatim_Forall. intros c Hc. by apply verbatim_char.
  - apply Forall_app; split; [literal|].
    apply encode_with_Forall; [reflexivity | reflexivity |].
    revert HX. apply verbatim_Forall. intros c Hc. by apply verbatim_char.
Qed.

(** What the URL parser makes of the literal form, for verbatim
    identifiers: [searchParams] holds them as they were written. *)
Lemma parse_curseforge_uri (X Y : string) :
  verbatim X → verbatim Y → untrimmed Y →
  ∃ q, Url.parse (curseforge_uri X Y)
       = Url.Parsed
           {| Url.protocol := "curseforge:"; Url.hostname := "install";
              Url.query := q;
              Url.searchParams := [("addonId", X); ("fileId", Y)] |}.
Proof.
  intros (_ & HX & HXutf) (HYne & HY & HYutf) Hend.
  destruct (last (unstr Y)) as [cl|] eqn:Hlast.
  - eexists. rewrite <- (str_unstr X), <- (str_unstr Y) at 1 2.
    eapply parse_curseforge_chars; eauto.
  - apply last_None in Hlast. destruct HYne.
    by rewrite <- (str_unstr Y), Hlast.
Qed.

Lemma curseforge_uri_truthy (X Y : string) :
  curseforge_uri X Y ≠ "" ∧ curseforge_uri X Y ≠ "--help".
Proof. split; unfold curseforge_uri; simpl; discriminate. Qed.

(** C1, as amended.  With a non-empty target directory [t]:
    - the literal form yields exactly [{targetDir: t, addonId: X,
      fileId: Y}] for all non-empty [X] and [Y] without tab, LF, CR,
      [#], [&], [%] and [+], with [Y] not ending in a C0 control or space;
    - so does every URI with scheme [curseforge], host [install] and
      [addonId], [fileId] parameters that decode to non-empty [X], [Y];
    - a URI with another scheme or host, or with [addonId] or [fileId]
      missing or empty, fails with "bad url" (which a URI of a special
      scheme always does);
    - a string the URL parser rejects fails with its [TypeError]. *)
Theorem parse_curseforge_args (env : Env) (node script t : string) (w : World) :
  t ≠ "" →
  (∀ X Y, verbatim X → verbatim Y → untrimmed Y →
     parseCommandLineArgs env [node; script; curseforge_uri X Y; t] w
     = (Return {| targetDir := t; addonId := X; fileId := Y |}, w))
  ∧ (∀ s u X Y, s ≠ "" → s ≠ "--help" → Url.parse s = Url.Parsed u →
       Url.protocol u = "curseforge:" → Url.hostname u = "install" →
       Url.get "addonId" (Url.searchParams u) = Some X →
       Url.get "fileId" (Url.searchParams u) = Some Y →
       X ≠ "" → Y ≠ "" →
       parseCommandLineArgs env [node; script; s; t] w
       = (Return {| targetDir := t; addonId := X; fileId := Y |}, w))
  ∧ (∀ s u, s ≠ "" → s ≠ "--help" → Url.parse s = Url.Parsed u →
       Url.protocol u ≠ "curseforge:" ∨ Url.hostname u ≠ "install"
       ∨ falsy (Url.get "addonId" (Url.searchParams u)) = true
       ∨ falsy (Url.get "fileId" (Url.searchParams u)) = true →
       parseCommandLineArgs env [node; script; s; t] w = (Throw (Error "bad url"), w))
  ∧ (∀ s scheme, s ≠ "" → s ≠ "--help" → Url.parse s = Url.Special scheme →
       parseCommandLineArgs env [node; script; s; t] w
       = (Throw (if special_url env s then Error "bad url"
                 else TypeError "Invalid URL"), w))
  ∧ (∀ s, s ≠ "" → s ≠ "--help" → Url.parse s = Url.Invalid →
       parseCommandLineArgs env [node; script; s; t] w
       = (Throw (TypeError "Invalid URL"), w)).
Proof.
  intros Ht.
  assert (Hgen : ∀ s u X Y, s ≠ "" → s ≠ "--help" → Url.parse s = Url.Parsed u →
       Url.protocol u = "curseforge:" → Url.hostname u = "install" →
       Url.get "addonId" (Url.searchParams u) = Some X →
       Url.get "fileId" (Url.searchParams u) = Some Y →
       X ≠ "" → Y ≠ "" →
       parseCommandLineArgs env [node; script; s; t] w
       = (Return {| targetDir := t; addonId := X; fileId := Y |}, w)).
  { intros s u X Y Hs Hh Hu Hp Hhost HX HY HXne HYne.
    rewrite (parseCommandLineArgs_url _ _ _ _ _ _ Hs Hh Ht), Hu, Hp, Hhost, HX, HY.
    apply falsy_Some in HXne as ->. apply falsy_Some in HYne as ->. reflexivity. }
  split; [|split; [|split; [|split]]].
  - intros X Y HX HY Hend.
    destruct (curseforge_uri_truthy X Y) as [Hs Hh].
    destruct (parse_curseforge_uri X Y HX HY Hend) as [q Hq].
    eapply Hgen; [done | done | exact Hq | reflexivity | reflexivity
                  | reflexivity | reflexivity | apply HX | apply HY].
  - exact Hgen.
  - intros s u Hs Hh Hu Hbad.
    rewrite (parseCommandLineArgs_url _ _ _ _ _ _ Hs Hh Ht), Hu.
    destruct (String.eqb (Url.protocol u) "curseforge:") eqn:Hp; [|reflexivity].
    destruct (String.eqb (Url.hostname u) "install") eqn:Hhost; [|reflexivity].
    apply String.eqb_eq in Hp, Hhost. simpl.
    destruct Hbad as [?|[?|[->| ->]]]; try done.
    by rewrite orb_true_r.
  - intros s scheme Hs Hh Hu.
    rewrite (parseCommandLineArgs_url _ _ _ _ _ _ Hs Hh Ht), Hu.
    by destruct (special_url env s).
  - intros s Hs Hh Hu.
    by rewrite (parseCommandLineArgs_url _ _ _ _ _ _ Hs Hh Ht), Hu.
Qed.

Lemma parse_curseforge_args_witness :
  parseCommandLineArgs Sample.env
    ["node"; "index.js"; curseforge_uri "a!b" "1:2"; "out"] empty_world
  = (Return {| targetDir := "out"; addonId := "a!b"; fileId := "1:2" |},
     empty_world).
Proof.
  apply (proj1 (parse_curseforge_args Sample.env "node" "index.js" "out" empty_world
                  ltac:(discriminate))).
  - split; [discriminate | split; [apply Forall_forallb; reflexivity | reflexivity]].
  - split; [discriminate | split; [apply Forall_forallb; reflexivity | reflexivity]].
  - intros c Hc. injection Hc as <-. reflexivity.
Defined.

(** C1 as stated fails for an empty identifier: the literal form with
    [X] empty is rejected, not parsed to [{addonId: "", fileId: "2"}]. *)
Lemma curseforge_uri_empty_id_rejected :
  ¬ (∀ X Y : string,
       fst (parseCommandLineArgs Sample.env
              ["node"; "index.js"; curseforge_uri X Y; "out"] empty_world)
       = Return {| targetDir := "out"; addonId := X; fileId := Y |}).
Proof.
  intros H. specialize (H "" "2"). vm_compute in H. discriminate H.
Qed.

(** ** The filesystem model *)

Lemma elem_of_file_paths (f : gmap string node) (k : string) :
  k ∈ Fs.file_paths f ↔ Fs.is_file f k = true.
Proof.
  unfold Fs.file_paths, Fs.is_file. rewrite elem_of_dom. unfold is_Some.
  setoid_rewrite map_lookup_filter_Some. simpl.
  destruct (f !! k) as [n|]; split.
  - by intros (x & [= ->] & ?).
  - intros ?. by exists n.
  - by intros (x & ? & ?).
  - done.
Qed.

Lemma file_paths_ext (f g : gmap string node) :
  (∀ k, Fs.is_file g k = Fs.is_file f k) → Fs.file_paths g = Fs.file_paths f.
Proof.
  intros H. apply set_eq. intros k. by rewrite !elem_of_file_paths, H.
Qed.

Lemma make_dirs_lookup (ks : list string) (f : gmap string node) (k : string) :
  Fs.make_dirs ks f !! k = if decide (k ∈ ks) then Some Dir else f !! k.
Proof.
  induction ks as [|k' ks IH]; [done|].
  change (Fs.make_dirs (k' :: ks) f) with (<[k':=Dir]> (Fs.make_dirs ks f)).
  destruct (decide (k' = k)) as [->|Hne].
  - rewrite lookup_insert_eq. rewrite decide_True; [done | by left].
  - rewrite lookup_insert_ne, IH by done.
    destruct (decide (k ∈ ks)) as [Hin|Hnin].
    + rewrite decide_True; [done | by right].
    + rewrite decide_False; [done|]. intros [?|?]%elem_of_cons; done.
Qed.

Lemma existsb_false_elem {A} (p : A → bool) (l : list A) (x : A) :
  existsb p l = false → x ∈ l → p x = false.
Proof.
  induction l as [|y l IH]; simpl; [by intros _ ?%elem_of_nil|].
  intros [? ?]%orb_false_iff [->|?]%elem_of_cons; auto.
Qed.

(** A successful [mkdir] leaves [p] a directory, and leaves every file a
    file and every non-file a non-file. *)
Lemma mkdir_recursive_ok (p : string) (f f1 : gmap string node) :
  Fs.mkdir_recursive p f = inr f1 →
  Fs.is_dir f1 (Fs.key p) = true ∧ (∀ k, Fs.is_file f1 k = Fs.is_file f k).
Proof.
  unfold Fs.mkdir_recursive.
  destruct (existsb _ _) eqn:Hex; [discriminate|]. intros [= <-]. split.
  - unfold Fs.is_dir. simpl.
    destruct (Fs.is_root (Fs.key p)) eqn:Hroot; [done|]. simpl.
    by rewrite lookup_insert_eq.
  - intros k. unfold Fs.is_file at 1. rewrite make_dirs_lookup.
    destruct (decide _) as [Hin|]; [|done].
    symmetry. exact (existsb_false_elem _ _ _ Hex Hin).
Qed.

Lemma mkdir_recursive_file_paths (p : string) (f f1 : gmap string node) :
  Fs.mkdir_recursive p f = inr f1 → Fs.file_paths f1 = Fs.file_paths f.
Proof. intros H. apply file_paths_ext. by apply mkdir_recursive_ok in H as [_ ?]. Qed.

(** ** The archive model *)

Lemma lookup_absent (k : string) (z : Zip.JSZip) :
  k ∉ (Zip.files z).*1 → Zip.lookup k z = None.
Proof.
  unfold Zip.lookup. induction (Zip.files z) as [|[n o] l IH]; simpl; [done|].
  intros Hk. destruct (String.eqb n k) eqn:Heq.
  - apply String.eqb_eq in Heq as ->. exfalso. apply Hk. by left.
  - apply IH. intros ?. apply Hk. by right.
Qed.

Lemma file_absent (n : string) (z : Zip.JSZip) :
  Zip.root z = "" → n ∉ (Zip.files z).*1 → Zip.file n z = None.
Proof.
  intros Hroot Hn. unfold Zip.file. rewrite Hroot. simpl.
  by rewrite lookup_absent.
Qed.

(** ** A missing manifest *)


Lemma mkdir_recursive_error (p : string) (f : gmap string node) (e : error) :
  Fs.mkdir_recursive p f = inl e → ∃ code, e = SystemError code p.
Proof.
  unfold Fs.mkdir_recursive. destruct (existsb _ _); [|done].
  intros [= <-]. by eexists.
Qed.

(** [mkdir] fails exactly when a regular file stands at the path or
    above it. *)
Lemma mkdir_recursive_inl (p : string) (f : gmap string node) :
  (∃ e, Fs.mkdir_recursive p f = inl e)
  ↔ ¬ Forall (λ k, Fs.is_file f k = false) (dirs_of p).
Proof.
  unfold Fs.mkdir_recursive, dirs_of.
  destruct (existsb _ _) eqn:Hex.
  - split; [|by eexists]. intros _ Hall.
    apply existsb_exists in Hex as (k & Hk & Hfile).
    apply list_elem_of_In in Hk. rewrite Forall_forall in Hall.
    specialize (Hall k Hk). congruence.
  - split; [by intros [e He]|]. intros Hno. destruct Hno.
    apply Forall_forall. intros k Hk. by eapply existsb_false_elem.
Qed.

(** C3, as amended.  An archive without a [manifest.json] entry makes
    the run fail before anything is requested, printed or written to a
    file, in both builds, whatever the environment and the schedule.  The
    error is "invalid modpack" once [<target>/mods] has been created or
    found; it is the error of [mkdir] when that directory cannot be
    created, which is when a regular file stands at that path or above
    it. *)
Theorem missing_manifest_fails (b : build) (env : Env) (modpack : Zip.JSZip)
    (targetDir : string) (sched : list nat) (w : World) :
  Zip.root modpack = "" →
  "manifest.json" ∉ (Zip.files modpack).*1 →
  install b env modpack targetDir sched w
  = match Fs.mkdir_recursive (Path.join [targetDir; "mods"]) (fs w) with
    | inr f1 => (Throw (Error "invalid modpack"), set_fs f1 w)
    | inl e => (Throw e, w)
    end
  ∧ (fst (install b env modpack targetDir sched w) = Throw (Error "invalid modpack")
     ↔ Forall (λ k, Fs.is_file (fs w) k = false) (dirs_of (Path.join [targetDir; "mods"])))
  ∧ requests (snd (install b env modpack targetDir sched w)) = requests w
  ∧ stderr (snd (install b env modpack targetDir sched w)) = stderr w
  ∧ Fs.file_paths (fs (snd (install b env modpack targetDir sched w)))
    = Fs.file_paths (fs w).
Proof.
  intros Hroot Hn.
  pose proof (mkdir_recursive_inl (Path.join [targetDir; "mods"]) (fs w)) as Hinl.
  assert (install b env modpack targetDir sched w
          = match Fs.mkdir_recursive (Path.join [targetDir; "mods"]) (fs w) with
            | inr f1 => (Throw (Error "invalid modpack"), set_fs f1 w)
            | inl e => (Throw e, w)
            end) as ->.
  { unfold install, downloadMods.
    destruct (Fs.mkdir_recursive _ _) as [e|f1]; [done|].
    by rewrite file_absent. }
  split; [done|].
  destruct (Fs.mkdir_recursive _ _) as [e|f1] eqn:Hmk; simpl.
  - split; [|done]. split.
    + intros [= ->]. by apply mkdir_recursive_error in Hmk as [code Hcode].
    + intros Hall. destruct (proj1 Hinl); [by exists e | done].
  - split.
    + split; [|done]. intros _.
      destruct (decide (Forall (λ k, Fs.is_file (fs w) k = false)
                          (dirs_of (Path.join [targetDir; "mods"])))) as [|Hno];
        [done|].
      apply Hinl in Hno as [e He]. congruence.
    + repeat split. by apply mkdir_recursive_file_paths in Hmk.
Qed.

Lemma missing_manifest_fails_witness :
  install IndexTs Sample.env Sample.pack_no_manifest "out" [0; 0; 0] empty_world
  = (Throw (Error "invalid modpack"),
     set_fs (Fs.make_dirs ["out/mods"; "out"] ∅) empty_world)
  ∧ install IndexTs Sample.env Sample.pack_no_manifest "out" [0; 0; 0] world_out_is_file
    = (Throw (SystemError "ENOTDIR" "out/mods"), world_out_is_file).
Proof.
  assert (Hn : "manifest.json" ∉ (Zip.files Sample.pack_no_manifest).*1).
  { vm_compute. intros H. repeat (apply elem_of_cons in H as [H|H]; [discriminate H|]).
    by apply elem_of_nil in H. }
  split.
  - exact (proj1 (missing_manifest_fails IndexTs Sample.env Sample.pack_no_manifest "out"
                    [0; 0; 0] empty_world eq_refl Hn)).
  - exact (proj1 (missing_manifest_fails IndexTs Sample.env Sample.pack_no_manifest "out"
                    [0; 0; 0] world_out_is_file eq_refl Hn)).
Defined.

(** C3 as stated fails when the target is a regular file: the run on an
    archive without a manifest ends with the error of [mkdir], not with
    "invalid modpack". *)
Lemma missing_manifest_behind_a_file :
  ¬ (∀ w : World,
       fst (install IndexTs Sample.env Sample.pack_no_manifest "out" [] w)
       = Throw (Error "invalid modpack")).
Proof.
  intros H. specialize (H world_out_is_file). vm_compute in H. discriminate H.
Qed.



(** ** A missing [overrides] subtree *)

Lemma strip_prefix_refl (s : string) : Zip.strip_prefix s s = Some "".
Proof. induction s as [|c s IH]; simpl; [done|]. by rewrite Ascii.eqb_refl. Qed.

Lemma no_entry_below_absent (d : string) (z : Zip.JSZip) :
  no_entry_below d z → d ∉ (Zip.files z).*1.
Proof.
  unfold no_entry_below. intros Hall Hin.
  apply list_elem_of_fmap in Hin as (e & -> & He).
  rewrite Forall_forall in Hall. specialize (Hall e He).
  by rewrite strip_prefix_refl in Hall.
Qed.

Lemma omap_all_None {A B} (g : A → option B) (l : list A) :
  Forall (λ a, g a = None) l → omap g l = [].
Proof. induction 1 as [|a l Ha _ IH]; simpl; [done|]. by rewrite Ha. Qed.

(** [zip.folder("overrides")] on an archive without such a subtree: the
    folder is created, and it has no entries. *)
Lemma folder_overrides_absent (z : Zip.JSZip) :
  Zip.root z = "" → no_entry_below "overrides/" z →
  ∃ overrides, Zip.folder "overrides" z = Some overrides ∧ Zip.forEach overrides = [].
Proof.
  intros Hroot Hno. eexists. split.
  - unfold Zip.folder. rewrite Hroot. simpl. reflexivity.
  - unfold Zip.forEach, Zip.folderAdd. simpl.
    rewrite (lookup_absent _ z) by by apply no_entry_below_absent.
    simpl. rewrite omap_app. rewrite omap_all_None; [done|].
    eapply Forall_impl; [exact Hno|]. simpl. by intros e ->.
Qed.

(** C4 fails on the code.  For an archive without an [overrides] subtree
    the guard of [expandOverrides] does not fire, since [zip.folder]
    creates the folder it is asked for: the extraction step succeeds
    having written nothing, and a run whose downloads succeeded ends
    with "Finish!". *)
Theorem missing_overrides_is_not_detected (b : build) (modpack : Zip.JSZip)
    (targetDir : string) (w : World) :
  Zip.root modpack = "" → no_entry_below "overrides/" modpack →
  Zip.folder "overrides" modpack ≠ None
  ∧ expandOverrides b modpack targetDir w
    = (Return (), write_stderr "Expanding overrides..." w)
  ∧ (∀ env sched w0,
       downloadMods b env modpack targetDir sched w0 = (Return (), w) →
       install b env modpack targetDir sched w0
       = (Return (), write_stderr "Finish!
" (write_stderr "Expanding overrides..." w))).
Proof.
  intros Hroot Hno.
  destruct (folder_overrides_absent modpack Hroot Hno) as (o & Hfolder & Hnone).
  assert (Hex : expandOverrides b modpack targetDir w
                = (Return (), write_stderr "Expanding overrides..." w)).
  { unfold expandOverrides. by rewrite Hfolder, Hnone. }
  split; [congruence|]. split; [exact Hex|].
  intros env sched w0 Hdl. unfold install. by rewrite Hdl, Hex.
Qed.

Lemma missing_overrides_is_not_detected_witness :
  expandOverrides IndexTs Sample.pack_no_overrides "out" empty_world
  = (Return (), write_stderr "Expanding overrides..." empty_world).
Proof.
  apply (missing_overrides_is_not_detected IndexTs Sample.pack_no_overrides "out"
           empty_world).
  - reflexivity.
  - repeat constructor.
Defined.

(** ** Directory entries *)

Lemma has_trailing_slash_str (l : chars) :
  Path.has_trailing_slash (str l)
  = match last l with Some c => Path.is_slash c | None => false end.
Proof. unfold Path.has_trailing_slash. by rewrite unstr_str. Qed.

Lemma normalize_chars_trailing (l : chars) :
  last l = Some Path.slash → last (Path.normalize_chars l) = Some Path.slash.
Proof.
  intros Hl. unfold Path.normalize_chars.
  destruct l as [|c0 l']; [done|]. rewrite Hl.
  change (Path.is_slash Path.slash) with true. cbv iota.
  destruct (Path.normalizeString _ _) as [|c p].
  - by destruct (Path.is_slash c0).
  - destruct (Path.is_slash c0).
    + apply (last_app_r [_]). apply last_snoc.
    + apply last_snoc.
Qed.

Lemma is_slash_eq (c : ascii) : Path.is_slash c = true → c = Path.slash.
Proof. unfold Path.is_slash, Chars.eqc. apply Ascii.eqb_eq. Qed.

(** A path with a trailing separator keeps it when it is joined to a
    directory. *)
Lemma join_trailing_slash (t path : string) :
  Path.has_trailing_slash path = true →
  Path.has_trailing_slash (Path.join [t; path]) = true.
Proof.
  unfold Path.has_trailing_slash at 1.
  destruct (last (unstr path)) as [c|] eqn:Hl; [|done].
  intros ->%is_slash_eq.
  assert (unstr path ≠ []) as Hne by (intros H; by rewrite H in Hl).
  unfold Path.join. cbn [fmap list_fmap].
  rewrite filter_cons. rewrite (filter_cons _ (unstr path)), filter_nil.
  rewrite (decide_True _ _ Hne).
  destruct (decide (unstr t ≠ [])).
  - rewrite has_trailing_slash_str, normalize_chars_trailing; [done|].
    cbn [join_with]. destruct (unstr path) eqn:E; [done|]. rewrite <- E.
    apply last_app_r, (last_app_r [_]). by rewrite E.
  - rewrite has_trailing_slash_str, normalize_chars_trailing; done.
Qed.

Lemma open_write_trailing_slash (p : string) (f : gmap string node) :
  Path.has_trailing_slash p = true → Fs.open_write p f = inl (SystemError "EISDIR" p).
Proof. intros H. unfold Fs.open_write. by rewrite H. Qed.

(** C5 holds for [IndexTs] and fails for [Part000].  For a directory
    entry (its name ends in [/]): [IndexTs] creates the directory and no
    file, provided [mkdir] succeeds; [Part000], which has no case for
    directories, opens a write stream on the directory's path and
    throws. *)
Theorem directory_entry_extraction (targetDir path : string) (fileData : Zip.ZipObject)
    (w : World) :
  Zip.dir fileData = true → Path.has_trailing_slash path = true →
  (∀ f1, Fs.mkdir_recursive (Path.join [targetDir; path]) (fs w) = inr f1 →
     extract_entry IndexTs targetDir (path, fileData) w = (Return (), set_fs f1 w)
     ∧ Fs.is_dir f1 (Fs.key (Path.join [targetDir; path])) = true
     ∧ Fs.file_paths f1 = Fs.file_paths (fs w))
  ∧ (∃ e w', extract_entry Part000 targetDir (path, fileData) w = (Throw e, w')
             ∧ Fs.file_paths (fs w') = Fs.file_paths (fs w)).
Proof.
  intros Hdir Hslash. split.
  - intros f1 Hmk. unfold extract_entry, extract_dir. rewrite Hdir, Hmk.
    split; [done|]. split.
    + by apply mkdir_recursive_ok in Hmk as [? _].
    + by apply mkdir_recursive_file_paths in Hmk.
  - unfold extract_entry, extract_file.
    destruct (Fs.mkdir_recursive _ _) as [e|f1] eqn:Hmk; [by eauto|].
    rewrite open_write_trailing_slash by by apply join_trailing_slash.
    eexists _, _. split; [done|]. simpl. by apply mkdir_recursive_file_paths in Hmk.
Qed.

Lemma directory_entry_extraction_witness :
  extract_entry IndexTs "out" ("saves/", snd (Sample.dir_entry "overrides/saves/"))
    empty_world
  = (Return (), set_fs (Fs.make_dirs ["out/saves"; "out"] ∅) empty_world).
Proof.
  apply (proj1 (directory_entry_extraction "out" "saves/"
                  (snd (Sample.dir_entry "overrides/saves/")) empty_world
                  eq_refl eq_refl)).
  reflexivity.
Defined.

(** The same directory entry in the two builds: [IndexTs] creates
    [out/saves]; [Part000] fails with [EISDIR] and creates nothing but
    the target directory. *)
Example directory_entry_both_builds :
  extract_all IndexTs "out" [("saves/", snd (Sample.dir_entry "overrides/saves/"))]
    empty_world
  = (Return (), set_fs (Fs.make_dirs ["out/saves"; "out"] ∅) empty_world)
  ∧ extract_all Part000 "out" [("saves/", snd (Sample.dir_entry "overrides/saves/"))]
      empty_world
    = (Throw (SystemError "EISDIR" "out/saves/"),
       set_fs (Fs.make_dirs ["out"] ∅) empty_world).
Proof. split; reflexivity. Qed.

(** ** The download phase: what every reachable state satisfies *)

Lemma count_if_insert {A} (p : A → bool) (l : list A) (i : nat) (old new : A) :
  l !! i = Some old →
  count_if p (<[i:=new]> l) + (if p old then 1 else 0)
  = count_if p l + (if p new then 1 else 0).
Proof.
  revert i. induction l as [|x l IH]; intros [|i] Hi; simpl in *; try done.
  - injection Hi as ->. lia.
  - specialize (IH i Hi). lia.
Qed.

Lemma count_if_replicate {A} (p : A → bool) (n : nat) (x : A) :
  p x = false → count_if p (replicate n x) = 0.
Proof. intros Hx. induction n as [|n IH]; simpl; [done|]. by rewrite Hx, IH. Qed.


Lemma count_if_le {A} (p : A → bool) (l : list A) : count_if p l ≤ length l.
Proof. induction l as [|x l IH]; simpl; [done|]. destruct (p x); lia. Qed.

Lemma invariant_ext (slack n : nat) (files : list ManifestFile) (s s' : Download) :
  tasks s' = tasks s → limiter s' = limiter s →
  downloadedCount s' = downloadedCount s →
  invariant slack n files s → invariant slack n files s'.
Proof.
  intros Ht Hl Hc [H1 H2 H3 H4 H5].
  split; rewrite ?Ht, ?Hl, ?Hc; assumption.
Qed.

(** [start] on a queued task. *)
Lemma start_queued (files : list ManifestFile) (j : nat) (s : Download) :
  j < length files →
  tasks (start files j s) = <[j:=AwaitInfo]> (tasks s)
  ∧ limiter (start files j s) = limiter s
  ∧ downloadedCount (start files j s) = downloadedCount s
  ∧ rejected (start files j s) = rejected s
  ∧ crashed (start files j s) = crashed s
  ∧ fs (world (start files j s)) = fs (world s)
  ∧ stderr (world (start files j s)) = stderr (world s).
Proof.
  intros Hj. unfold start.
  destruct (lookup_lt_is_Some_2 files j Hj) as [f ->]. by repeat split.
Qed.

Lemma inv_submit (files : list ManifestFile) (n : nat) (s : Download) :
  invariant 0 n files s → n < length files →
  invariant 0 (S n) files (submit files s n).
Proof.
  intros [Hlen Hb Hrest Hcnt Hlim] Hn.
  assert (Hq : tasks s !! n = Some Queued) by (apply Hrest; lia).
  destruct (start_queued files n s Hn) as (Ht & Hl & Hc & _).
  assert (Hrest' : ∀ i, S n ≤ i → i < length files →
                        <[n:=AwaitInfo]> (tasks s) !! i = Some Queued).
  { intros i ? ?. rewrite list_lookup_insert_ne by lia. apply Hrest; lia. }
  assert (Hdone : count_if is_done (<[n:=AwaitInfo]> (tasks s))
                  = count_if is_done (tasks s)).
  { pose proof (count_if_insert is_done _ n _ AwaitInfo Hq) as H. simpl in H. lia. }
  assert (Hfly : count_if in_flight (<[n:=AwaitInfo]> (tasks s))
                 = S (count_if in_flight (tasks s))).
  { pose proof (count_if_insert in_flight _ n _ AwaitInfo Hq) as H. simpl in H. lia. }
  unfold submit. unfold limiter_ok in Hlim.
  destruct (limiter s) as [l|] eqn:El.
  - destruct Hlim as (H6 & Hout & Hle & Hnd & Hjobs & Hall & Hfull).
    unfold Limit.submit. rewrite H6.
    destruct (6 <=? Limit.outstanding l) eqn:Hcmp.
    + apply Nat.leb_le in Hcmp.
      split; simpl.
      * done.
      * lia.
      * intros i ? ?. apply Hrest; lia.
      * done.
      * repeat split; try done.
        -- apply NoDup_app. repeat split; [done | | apply NoDup_singleton].
           intros j Hj ->%list_elem_of_singleton.
           rewrite Forall_forall in Hjobs. apply Hjobs in Hj. lia.
        -- apply Forall_app. split.
           ++ eapply Forall_impl; [exact Hjobs|]. simpl. intros j [? ?]. split; [lia|done].
           ++ apply Forall_singleton. split; [lia|done].
        -- intros i Hi Hqi. apply elem_of_app.
           destruct (decide (i = n)) as [->|]; [right; by apply list_elem_of_singleton|].
           left. apply Hall; [lia|done].
        -- intros _. lia.
    + apply Nat.leb_gt in Hcmp.
      assert (Hnil : Limit.jobs l = []).
      { destruct (Limit.jobs l) eqn:E; [done|]. exfalso.
        assert (Limit.outstanding l = 6) by (by apply Hfull). lia. }
      destruct (start_queued files n
                  (set_limiter
                     (Some {| Limit.count := 6;
                              Limit.outstanding := S (Limit.outstanding l);
                              Limit.jobs := Limit.jobs l |}) s) Hn)
        as (Ht' & Hl' & Hc' & _).
      split; rewrite ?Ht', ?Hl', ?Hc'; simpl.
      * by rewrite length_insert.
      * lia.
      * done.
      * by rewrite Hdone.
      * rewrite Hnil. repeat split; try done; try lia.
        -- apply NoDup_nil_2.
        -- intros i Hi Hqi. destruct (decide (i = n)) as [->|].
           ++ rewrite list_lookup_insert_eq in Hqi by lia. discriminate.
           ++ rewrite list_lookup_insert_ne in Hqi by done.
              rewrite <- Hnil. apply Hall; [lia|done].
  - split; rewrite ?Ht, ?Hl, ?Hc, ?El; simpl.
    + by rewrite length_insert.
    + lia.
    + done.
    + by rewrite Hdone.
    + intros i Hi. destruct (decide (i = n)) as [->|].
      * rewrite list_lookup_insert_eq by lia. discriminate.
      * rewrite list_lookup_insert_ne by done. apply Hlim. lia.
Qed.

Lemma inv_submit_all (files : list ManifestFile) (s : Download) (n : nat) :
  invariant 0 0 files s → n ≤ length files →
  invariant 0 n files (foldl (submit files) s (seq 0 n)).
Proof.
  intros H0. induction n as [|n IH]; intros Hn; [done|].
  rewrite seq_S, foldl_app. simpl. apply inv_submit; [apply IH|]; lia.
Qed.

Lemma inv_idle (files : list ManifestFile) (b : build) (w : World) :
  invariant 0 0 files (idle files b w).
Proof.
  unfold idle. split; simpl.
  - apply length_replicate.
  - lia.
  - intros i _ Hi. by apply lookup_replicate_2.
  - by rewrite count_if_replicate.
  - destruct b; simpl.
    + rewrite count_if_replicate by done.
      repeat split; try done; try lia. apply NoDup_nil_2.
    + intros i Hi. lia.
Qed.

(** Every task has been submitted when [launch] returns. *)
Lemma inv_launch (files : list ManifestFile) (b : build) (w : World) :
  invariant 0 (length files) files (launch files b w).
Proof. unfold launch. apply inv_submit_all; [apply inv_idle | done]. Qed.

(** A settled task frees its slot; the oldest queued task takes it. *)
Lemma inv_settle (files : list ManifestFile) (s : Download) :
  invariant 1 (length files) files s →
  invariant 0 (length files) files (settle files s).
Proof.
  intros [Hlen Hb Hrest Hcnt Hlim]. unfold settle. unfold limiter_ok in Hlim.
  destruct (limiter s) as [l|] eqn:El.
  - destruct Hlim as (H6 & Hout & Hle & Hnd & Hjobs & Hall & Hfull).
    unfold Limit.release. rewrite H6.
    assert ((pred (Limit.outstanding l) <? 6) = true) as -> by (apply Nat.ltb_lt; lia).
    destruct (Limit.jobs l) as [|j rest] eqn:Ej.
    + split; simpl; [done | done | done | done |].
      repeat split; try done; try lia.
    + apply Forall_cons in Hjobs as [[Hj Hqj] Hjobs].
      apply NoDup_cons in Hnd as [Hjr Hnd].
      destruct (start_queued files j
                  (set_limiter
                     (Some {| Limit.count := 6;
                              Limit.outstanding := S (pred (Limit.outstanding l));
                              Limit.jobs := rest |}) s) Hj)
        as (Ht' & Hl' & Hc' & _).
      assert (Hdone : count_if is_done (<[j:=AwaitInfo]> (tasks s))
                      = count_if is_done (tasks s)).
      { pose proof (count_if_insert is_done _ j _ AwaitInfo Hqj) as H.
        simpl in H. lia. }
      assert (Hfly : count_if in_flight (<[j:=AwaitInfo]> (tasks s))
                     = S (count_if in_flight (tasks s))).
      { pose proof (count_if_insert in_flight _ j _ AwaitInfo Hqj) as H.
        simpl in H. lia. }
      split; rewrite ?Ht', ?Hl', ?Hc'; simpl.
      * by rewrite length_insert.
      * done.
      * intros i ? ?. lia.
      * by rewrite Hdone.
      * repeat split; try done; try lia.
        -- apply Forall_forall. intros x Hx.
           rewrite Forall_forall in Hjobs. destruct (Hjobs x Hx) as [? ?].
           split; [done|]. rewrite list_lookup_insert_ne; [done|].
           intros ->. by apply Hjr.
        -- intros i Hi Hq. destruct (decide (i = j)) as [->|Hne].
           ++ rewrite list_lookup_insert_eq in Hq by lia. discriminate.
           ++ rewrite list_lookup_insert_ne in Hq by done.
              specialize (Hall i Hi Hq). apply elem_of_cons in Hall as [?|?]; done.
        -- intros _. assert (Limit.outstanding l = 6) by (by apply Hfull). lia.
  - split; simpl; [done | done | done | done |]. by rewrite El.
Qed.

(** A task moves from one await to the next. *)
Lemma inv_move (files : list ManifestFile) (i : nat) (old new : phase)
    (s s' : Download) :
  invariant 0 (length files) files s →
  tasks s !! i = Some old → in_flight old = true → in_flight new = true →
  tasks s' = <[i:=new]> (tasks s) → limiter s' = limiter s →
  downloadedCount s' = downloadedCount s →
  invariant 0 (length files) files s'.
Proof.
  intros [Hlen Hb Hrest Hcnt Hlim] Hi Hold Hnew Ht Hl Hc.
  assert (Hdone : count_if is_done (<[i:=new]> (tasks s)) = count_if is_done (tasks s)).
  { pose proof (count_if_insert is_done _ i _ new Hi) as H.
    destruct old, new; simpl in *; try done; lia. }
  assert (Hfly : count_if in_flight (<[i:=new]> (tasks s))
                 = count_if in_flight (tasks s)).
  { pose proof (count_if_insert in_flight _ i _ new Hi) as H.
    rewrite Hold, Hnew in H. lia. }
  assert (Hqueued : ∀ j, <[i:=new]> (tasks s) !! j = Some Queued ↔
                         tasks s !! j = Some Queued).
  { intros j. destruct (decide (j = i)) as [->|Hne].
    - rewrite list_lookup_insert_eq by (by eapply lookup_lt_Some).
      rewrite Hi. split; intros [= E]; subst; simpl in *; congruence.
    - by rewrite list_lookup_insert_ne. }
  split; rewrite ?Ht, ?Hl, ?Hc.
  - by rewrite length_insert.
  - done.
  - intros j ? ?. lia.
  - by rewrite Hdone.
  - unfold limiter_ok in *. destruct (limiter s) as [l|].
    + destruct Hlim as (H6 & Hout & Hle & Hnd & Hjobs & Hall & Hfull).
      rewrite Hfly. repeat split; try done; try lia.
      * eapply Forall_impl; [exact Hjobs|]. simpl. intros j [? ?].
        split; [done|]. by apply Hqueued.
      * intros j Hj Hq. apply Hall; [done|]. by apply Hqueued.
    + intros j Hj Hq. apply (Hlim j Hj). by apply Hqueued.
Qed.

(** A task settles (done or failed): it holds its slot until [settle]. *)
Lemma inv_end (files : list ManifestFile) (i : nat) (old new : phase)
    (s s' : Download) :
  invariant 0 (length files) files s →
  tasks s !! i = Some old → in_flight old = true →
  in_flight new = false → is_queued new = false →
  tasks s' = <[i:=new]> (tasks s) → limiter s' = limiter s →
  downloadedCount s' = downloadedCount s + (if is_done new then 1 else 0) →
  invariant 1 (length files) files s'.
Proof.
  intros [Hlen Hb Hrest Hcnt Hlim] Hi Hold Hnew Hnq Ht Hl Hc.
  assert (Hdone : count_if is_done (<[i:=new]> (tasks s))
                  = count_if is_done (tasks s) + (if is_done new then 1 else 0)).
  { pose proof (count_if_insert is_done _ i _ new Hi) as H.
    destruct old; simpl in *; try done; lia. }
  assert (Hfly : count_if in_flight (<[i:=new]> (tasks s)) + 1
                 = count_if in_flight (tasks s)).
  { pose proof (count_if_insert in_flight _ i _ new Hi) as H.
    rewrite Hold, Hnew in H. lia. }
  assert (Hqueued : ∀ j, <[i:=new]> (tasks s) !! j = Some Queued ↔
                         tasks s !! j = Some Queued).
  { intros j. destruct (decide (j = i)) as [->|Hne].
    - rewrite list_lookup_insert_eq by (by eapply lookup_lt_Some).
      rewrite Hi. split; intros [= E]; subst; simpl in *; congruence.
    - by rewrite list_lookup_insert_ne. }
  split; rewrite ?Ht, ?Hl, ?Hc.
  - by rewrite length_insert.
  - done.
  - intros j ? ?. lia.
  - rewrite Hdone. lia.
  - unfold limiter_ok in *. destruct (limiter s) as [l|].
    + destruct Hlim as (H6 & Hout & Hle & Hnd & Hjobs & Hall & Hfull).
      rewrite Hfly. repeat split; try done; try lia.
      * eapply Forall_impl; [exact Hjobs|]. simpl. intros j [? ?].
        split; [done|]. by apply Hqueued.
      * intros j Hj Hq. apply Hall; [done|]. by apply Hqueued.
    + intros j Hj Hq. apply (Hlim j Hj). by apply Hqueued.
Qed.

Lemma resume_step (env : Env) (targetDir : string) (files : list ManifestFile)
    (i : nat) (s s' : Download) :
  resume env targetDir files i s = Some s' →
  crashed s = None ∧ step env targetDir files i s s'.
Proof.
  unfold resume. destruct (crashed s); [done|].
  destruct (tasks s !! i) as [[| |modInfo|modInfo body| |]|] eqn:Hi; try done.
  - destruct (files !! i) as [f|] eqn:Hf; [|done].
    destruct (http_json env _) as [modInfo|] eqn:Hj; intros [= <-]; split; try done.
    + by eapply step_info.
    + by eapply step_info_failed.
  - destruct (http_body env _) as [body|] eqn:Hb.
    + destruct (fileNameError modInfo) as [message|] eqn:Hn.
      * intros [= <-]; split; [done|]. by eapply step_name_failed.
      * destruct (Fs.open_write _ _) as [e|f'] eqn:Ho; intros [= <-]; split; try done.
        -- by eapply step_open_failed.
        -- by eapply step_body.
    + intros [= <-]; split; [done|]. by eapply step_body_failed.
  - intros [= <-]; split; [done|]. by eapply step_finish.
Qed.

Lemma inv_step (env : Env) (targetDir : string) (files : list ManifestFile)
    (i : nat) (s s' : Download) :
  invariant 0 (length files) files s →
  step env targetDir files i s s' →
  invariant 0 (length files) files s'.
Proof.
  intros Hinv Hstep. destruct Hstep.
  - by eapply (inv_move files i AwaitInfo (AwaitBody modInfo) s).
  - apply inv_settle. by eapply (inv_end files i AwaitInfo (Failed _) s).
  - by eapply (inv_move files i (AwaitBody modInfo) (Piping modInfo body) s).
  - by apply (invariant_ext _ _ _ s).
  - apply inv_settle. by eapply (inv_end files i (AwaitBody modInfo) (Failed _) s).
  - apply inv_settle. by eapply (inv_end files i (AwaitBody modInfo) (Failed _) s).
  - apply inv_settle.
    eapply (inv_end files i (Piping modInfo body) (Done modInfo) s); try done.
    simpl. lia.
Qed.

Lemma inv_exec (env : Env) (targetDir : string) (files : list ManifestFile)
    (sched : list nat) (s : Download) :
  invariant 0 (length files) files s →
  invariant 0 (length files) files (exec env targetDir files sched s).
Proof.
  unfold exec. revert s. induction sched as [|i sched IH]; intros s Hinv; [done|].
  simpl. apply IH. destruct (resume env targetDir files i s) as [s'|] eqn:Hr; [|done].
  simpl. apply resume_step in Hr as [_ Hstep]. by eapply inv_step.
Qed.

(** Every state the download phase can reach satisfies the invariant. *)
Lemma inv_reachable (b : build) (env : Env) (targetDir : string)
    (files : list ManifestFile) (sched : list nat) (w : World) :
  invariant 0 (length files) files (exec env targetDir files sched (launch files b w)).
Proof. apply inv_exec, inv_launch. Qed.

Lemma bounded_start (files : list ManifestFile) (j : nat) (s : Download) :
  bounded (start files j s) = bounded s.
Proof. unfold start. by destruct (files !! j). Qed.

Lemma bounded_submit (files : list ManifestFile) (s : Download) (i : nat) :
  bounded (submit files s i) = bounded s.
Proof.
  unfold submit, bounded at 2. destruct (limiter s) as [l|] eqn:E.
  - destruct (Limit.submit i l) as [l' []]; by rewrite ?bounded_start.
  - rewrite bounded_start. unfold bounded. by rewrite E.
Qed.

Lemma bounded_settle (files : list ManifestFile) (s : Download) :
  bounded (settle files s) = bounded s.
Proof.
  unfold settle, bounded at 2. destruct (limiter s) as [l|] eqn:E.
  - destruct (Limit.release l) as [l' [j|]]; by rewrite ?bounded_start.
  - unfold bounded. by rewrite E.
Qed.

Lemma bounded_submit_all (files : list ManifestFile) (s : Download) (l : list nat) :
  bounded (foldl (submit files) s l) = bounded s.
Proof.
  induction l as [|i l IH] using rev_ind; [done|].
  by rewrite foldl_app; simpl; rewrite bounded_submit.
Qed.

Lemma bounded_launch (files : list ManifestFile) (b : build) (w : World) :
  bounded (launch files b w) = match b with IndexTs => true | Part000 => false end.
Proof. unfold launch. rewrite bounded_submit_all. by destruct b. Qed.

(** What the invariant says of the number of tasks in flight. *)
Lemma invariant_in_flight (slack n : nat) (files : list ManifestFile) (s : Download) :
  invariant slack n files s → bounded s = true →
  ∃ l, limiter s = Some l
       ∧ Limit.outstanding l = count_if in_flight (tasks s) + slack
       ∧ Limit.outstanding l ≤ 6
       ∧ (∀ i, i < n → tasks s !! i = Some Queued → Limit.outstanding l = 6).
Proof.
  intros [_ _ _ _ Hlim] Hb. unfold bounded in Hb. unfold limiter_ok in Hlim.
  destruct (limiter s) as [l|]; [|done].
  destruct Hlim as (H6 & Hout & Hle & Hnd & Hjobs & Hall & Hfull).
  exists l. repeat split; try done.
  intros i Hi Hq. apply Hfull. specialize (Hall i Hi Hq).
  intros E. rewrite E in Hall. by apply elem_of_nil in Hall.
Qed.

Lemma bounded_step (env : Env) (targetDir : string) (files : list ManifestFile)
    (i : nat) (s s' : Download) :
  step env targetDir files i s s' → bounded s' = bounded s.
Proof.
  intros []; unfold fail, finished; rewrite ?bounded_settle; reflexivity.
Qed.

Lemma bounded_exec (env : Env) (targetDir : string) (files : list ManifestFile)
    (sched : list nat) (s : Download) :
  bounded (exec env targetDir files sched s) = bounded s.
Proof.
  unfold exec. revert s. induction sched as [|i sched IH]; intros s; [done|].
  simpl. rewrite IH. destruct (resume env targetDir files i s) as [s'|] eqn:Hr; [|done].
  simpl. apply resume_step in Hr as [_ Hstep]. by eapply bounded_step.
Qed.

(** [await_all] runs a prefix of the schedule, and stops where
    [Promise.all] settles. *)
Lemma await_all_exec (env : Env) (targetDir : string) (files : list ManifestFile)
    (sched : list nat) (s s' : Download) (r : settled) (rest : list nat) :
  await_all env targetDir files sched s = (r, s', rest) →
  ∃ pre, sched = pre ++ rest ∧ s' = exec env targetDir files pre s
         ∧ (r = Stalled ∨ status s' = Some r).
Proof.
  revert s. induction sched as [|i sched IH]; intros s; simpl.
  - destruct (status s) as [r0|] eqn:Hs; intros [= <- <- <-]; exists []; auto.
  - destruct (status s) as [r0|] eqn:Hs.
    + intros [= <- <- <-]. exists []. auto.
    + intros H. apply IH in H as (pre & -> & -> & Hr). exists (i :: pre). auto.
Qed.

Lemma status_AllDone (s : Download) :
  status s = Some AllDone →
  forallb is_done (tasks s) = true ∧ crashed s = None ∧ rejected s = None.
Proof.
  unfold status. destruct (crashed s), (rejected s); try done.
  by destruct (forallb is_done (tasks s)).
Qed.

(** C6. In the bounded build, in every state the download phase can
    reach (whatever the manifest, the network's answers and the order in
    which the awaits complete), at most 6 tasks are in flight, the
    limiter's [outstanding] is their number, and a task is held in the
    queue only while 6 are in flight.  The bound also holds while the
    tasks are being submitted. *)
Theorem in_flight_at_most_six (env : Env) (targetDir : string)
    (files : list ManifestFile) (sched : list nat) (w : World) :
  count_if in_flight (tasks (exec env targetDir files sched (launch files IndexTs w))) ≤ 6
  ∧ (Limit.outstanding <$> limiter (exec env targetDir files sched (launch files IndexTs w)))
    = Some (count_if in_flight
              (tasks (exec env targetDir files sched (launch files IndexTs w))))
  ∧ ((∃ i, tasks (exec env targetDir files sched (launch files IndexTs w)) !! i
           = Some Queued) →
     count_if in_flight (tasks (exec env targetDir files sched (launch files IndexTs w)))
     = 6)
  ∧ (∀ n, n ≤ length files →
       count_if in_flight
         (tasks (foldl (submit files) (idle files IndexTs w) (seq 0 n))) ≤ 6).
Proof.
  pose proof (inv_reachable IndexTs env targetDir files sched w) as Hinv.
  pose proof (bounded_exec env targetDir files sched (launch files IndexTs w)) as Hb.
  rewrite bounded_launch in Hb.
  destruct (invariant_in_flight _ _ _ _ Hinv Hb) as (l & -> & Hout & Hle & Hfull).
  rewrite Nat.add_0_r in Hout. rewrite <- Hout. repeat split; try done.
  - intros [i Hi]. apply (Hfull i); [|done].
    destruct Hinv as [<- _ _ _ _]. by eapply lookup_lt_Some.
  - intros n Hn.
    pose proof (inv_submit_all files _ n (inv_idle files IndexTs w) Hn) as Hinv'.
    destruct (invariant_in_flight _ _ _ _ Hinv' (bounded_submit_all _ _ _))
      as (l' & _ & Hout' & Hle' & _).
    lia.
Qed.


(** Two tasks that complete in the order opposite to the manifest's:
    the counter reaches 2 and the progress lines are numbered 1, 2. *)
Example counter_out_of_order :
  let s := exec Sample.env "out" [Sample.entry12; Sample.entry34] [1; 0; 1; 1; 0; 0]
             (launch [Sample.entry12; Sample.entry34] Part000 world_with_mods) in
  downloadedCount s = 2
  ∧ stderr (world s) = [progress_line 1 2 Sample.infoB; progress_line 2 2 Sample.infoA].
Proof. split; reflexivity. Qed.

(** Eight tasks under the limiter: six start, two wait; a completion
    lets the oldest waiting task in. *)
Example eight_tasks_six_slots :
  let files := replicate 8 Sample.entry12 in
  let s0 := launch files IndexTs world_with_mods in
  let s1 := exec Sample.env "out" files [2; 2; 2] s0 in
  count_if in_flight (tasks s0) = 6 ∧ count_if is_queued (tasks s0) = 2
  ∧ count_if in_flight (tasks s1) = 6 ∧ count_if is_queued (tasks s1) = 1
  ∧ tasks s1 !! 6 = Some AwaitInfo ∧ tasks s1 !! 7 = Some Queued.
Proof. repeat split; reflexivity. Qed.

(** ** The download phase: what it does to the filesystem *)

Lemma settle_effect (files : list ManifestFile) (s : Download) :
  invariant 1 (length files) files s →
  fs (world (settle files s)) = fs (world s)
  ∧ ∀ j, undisturbed (tasks s) (tasks (settle files s)) j.
Proof.
  intros [Hlen _ _ _ Hlim]. unfold settle. unfold limiter_ok in Hlim.
  destruct (limiter s) as [l|]; [|split; [done | by left]].
  destruct Hlim as (_ & _ & _ & _ & Hjobs & _).
  unfold Limit.release. destruct (_ <? _); [|split; [done | by left]].
  destruct (Limit.jobs l) as [|j rest]; [split; [done | by left]|].
  apply Forall_cons in Hjobs as [[Hj Hq] _].
  match goal with |- context [start files j ?s0] =>
    destruct (start_queued files j s0 Hj) as (Ht & _ & _ & _ & _ & Hfs & _) end.
  rewrite Ht, Hfs. split; [done|]. intros x. simpl.
  destruct (decide (x = j)) as [->|Hne].
  - right. split; [done|]. apply list_lookup_insert_eq. by eapply lookup_lt_Some.
  - left. by apply list_lookup_insert_ne.
Qed.

Lemma undisturbed_after_insert (ts ts' : list phase) (i j : nat) (new : phase) :
  undisturbed (<[i:=new]> ts) ts' j → j ≠ i → undisturbed ts ts' j.
Proof.
  intros H Hne. unfold undisturbed in *.
  by rewrite list_lookup_insert_ne in H by done.
Qed.

Lemma settled_self (ts ts' : list phase) (i : nat) (old new : phase) :
  ts !! i = Some old → is_queued new = false →
  undisturbed (<[i:=new]> ts) ts' i → ts' !! i = Some new.
Proof.
  intros Hi Hnq. unfold undisturbed.
  rewrite list_lookup_insert_eq by (by eapply lookup_lt_Some).
  intros [->|[[= E] _]]; [done | by subst].
Qed.

Lemma open_write_ok (p : string) (f f' : gmap string node) :
  Fs.open_write p f = inr f' → f' = <[Fs.key p := File []]> f.
Proof.
  unfold Fs.open_write. destruct (_ || _); [done|].
  destruct (Fs.is_dir f _); [|done]. by intros [= <-].
Qed.

Lemma step_effect (env : Env) (targetDir : string) (files : list ManifestFile)
    (i : nat) (s s' : Download) :
  invariant 0 (length files) files s →
  step env targetDir files i s s' →
  (∀ j, j ≠ i → undisturbed (tasks s) (tasks s') j)
  ∧ effect env targetDir files i s s'.
Proof.
  intros Hinv Hstep.
  assert (Hquiet : ∀ new : phase,
            (∀ j, j ≠ i → undisturbed (tasks s) (<[i:=new]> (tasks s)) j)).
  { intros new j Hne. left. by apply list_lookup_insert_ne. }
  assert (Hself : ∀ old new, tasks s !! i = Some old →
                             <[i:=new]> (tasks s) !! i = Some new).
  { intros old new Hi. apply list_lookup_insert_eq. by eapply lookup_lt_Some. }
  assert (Hend : ∀ old e s1,
            tasks s !! i = Some old → in_flight old = true →
            tasks s1 = <[i:=Failed e]> (tasks s) → limiter s1 = limiter s →
            downloadedCount s1 = downloadedCount s →
            fs (world s1) = fs (world s) →
            (∀ j, j ≠ i → undisturbed (tasks s) (tasks (settle files s1)) j)
            ∧ tasks (settle files s1) !! i = Some (Failed e)
            ∧ fs (world (settle files s1)) = fs (world s)).
  { intros old e s1 Hi Hfly Ht Hl Hc Hfs.
    assert (invariant 1 (length files) files s1) as H1.
    { eapply (inv_end files i old (Failed e) s); try done. simpl. lia. }
    destruct (settle_effect files s1 H1) as [Hfs' Hund]. rewrite Ht in Hund.
    repeat split.
    - intros j Hne. by eapply undisturbed_after_insert.
    - by eapply settled_self.
    - congruence. }
  destruct Hstep as [f modInfo Hi Hf Hj | f Hi Hf Hj | modInfo body f' Hi Hb Hn Ho
                    | modInfo body e Hi Hb Hn Ho | modInfo body message Hi Hb Hn
                    | modInfo Hi Hb | modInfo body Hi].
  - split; [apply Hquiet|]. eapply eff_info; eauto. simpl. eauto.
  - unfold fail.
    match goal with |- context [reject ?e _] =>
      destruct (Hend AwaitInfo e (reject e (set_task i (Failed e) s)))
        as (H1 & H2 & H3); try done
    end.
    split; [exact H1|]. eapply eff_fail; eauto.
  - split; [apply Hquiet|]. apply open_write_ok in Ho as ->.
    eapply eff_open; eauto. simpl. eauto.
  - split; [by left|]. by apply eff_crash.
  - unfold fail.
    match goal with |- context [reject ?e _] =>
      destruct (Hend (AwaitBody modInfo) e (reject e (set_task i (Failed e) s)))
        as (H1 & H2 & H3); try done
    end.
    split; [exact H1|]. eapply eff_fail; eauto.
  - unfold fail.
    match goal with |- context [reject ?e _] =>
      destruct (Hend (AwaitBody modInfo) e (reject e (set_task i (Failed e) s)))
        as (H1 & H2 & H3); try done
    end.
    split; [exact H1|]. eapply eff_fail; eauto.
  - unfold finished.
    match goal with |- context [settle files ?s1] =>
      assert (invariant 1 (length files) files s1) as H1;
      [ eapply (inv_end files i (Piping modInfo body) (Done modInfo) s);
        try done; simpl; lia
      | destruct (settle_effect files s1 H1) as [Hfs' Hund] ]
    end.
    simpl in Hund, Hfs'. split.
    + intros j Hne. by eapply undisturbed_after_insert.
    + eapply eff_finish; eauto. by eapply settled_self.
Qed.

Lemma is_file_insert (f : gmap string node) (k k' : string) (c : bytes) :
  Fs.is_file (<[k:=File c]> f) k' = true ↔ k = k' ∨ Fs.is_file f k' = true.
Proof.
  unfold Fs.is_file. destruct (decide (k = k')) as [->|Hne].
  - rewrite lookup_insert_eq. simpl. tauto.
  - rewrite lookup_insert_ne by done. split; [tauto | by intros [?|?]].
Qed.

Lemma undisturbed_holding (ts ts' : list phase) (j : nat) (m : ModFileInfo) :
  undisturbed ts ts' j →
  (∃ p, ts' !! j = Some p ∧ holding p = Some m)
  ↔ (∃ p, ts !! j = Some p ∧ holding p = Some m).
Proof.
  intros [->|[H1 H2]]; [done|]. rewrite H1, H2.
  split; intros (p & [= <-] & ?); done.
Qed.

Lemma undisturbed_carries (ts ts' : list phase) (j : nat) (p' : phase) (m : ModFileInfo) :
  undisturbed ts ts' j → ts' !! j = Some p' → carries p' = Some m →
  ts !! j = Some p'.
Proof. intros [->|[H1 H2]]; [done|]. rewrite H2. by intros [= <-]. Qed.

(** How the set of opened paths changes when task [i] changes phase. *)
Lemma opened_change (targetDir : string) (ts ts' : list phase) (i : nat)
    (po pn : phase) (k : string) :
  ts !! i = Some po → ts' !! i = Some pn →
  (∀ j, j ≠ i → undisturbed ts ts' j) →
  opened targetDir ts' k
  ↔ (∃ m, holding pn = Some m ∧ Fs.key (mod_path targetDir m) = k)
    ∨ ((∀ m, holding po = Some m → Fs.key (mod_path targetDir m) ≠ k)
       ∧ opened targetDir ts k)
    ∨ ((∃ m, holding po = Some m ∧ Fs.key (mod_path targetDir m) = k)
       ∧ ∃ j p m, j ≠ i ∧ ts !! j = Some p ∧ holding p = Some m
                  ∧ Fs.key (mod_path targetDir m) = k).
Proof.
  intros Hi Hi' Hund. split.
  - intros (j & p & m & Hj & Hh & Hk).
    destruct (decide (j = i)) as [->|Hne].
    + left. exists m. rewrite Hi' in Hj. by injection Hj as ->.
    + assert (∃ p0, ts !! j = Some p0 ∧ holding p0 = Some m) as (p0 & Hj0 & Hh0).
      { apply (undisturbed_holding ts ts' j m (Hund j Hne)). eauto. }
      destruct (holding po) as [mo|] eqn:Hpo.
      * destruct (decide (Fs.key (mod_path targetDir mo) = k)) as [Hko|Hko].
        -- right. right. split; [by eauto|]. by exists j, p0, m.
        -- right. left. split; [by intros ? [= <-]|]. by exists j, p0, m.
      * right. left. split; [done|]. by exists j, p0, m.
  - intros [(m & Hh & Hk)|[[Hno (j & p & m & Hj & Hh & Hk)]|[_ (j & p & m & Hne & Hj & Hh & Hk)]]].
    + by exists i, pn, m.
    + assert (j ≠ i) as Hne.
      { intros ->. rewrite Hi in Hj. injection Hj as ->. by eapply Hno. }
      assert (∃ p', ts' !! j = Some p' ∧ holding p' = Some m) as (p' & Hj' & Hh').
      { apply (undisturbed_holding ts ts' j m (Hund j Hne)). eauto. }
      by exists j, p', m.
    + assert (∃ p', ts' !! j = Some p' ∧ holding p' = Some m) as (p' & Hj' & Hh').
      { apply (undisturbed_holding ts ts' j m (Hund j Hne)). eauto. }
      by exists j, p', m.
Qed.

Lemma opened_same (targetDir : string) (ts ts' : list phase) (i : nat)
    (po pn : phase) (k : string) :
  ts !! i = Some po → ts' !! i = Some pn → holding pn = holding po →
  (∀ j, j ≠ i → undisturbed ts ts' j) →
  opened targetDir ts' k ↔ opened targetDir ts k.
Proof.
  intros Hi Hi' Hh Hund.
  etransitivity; [exact (opened_change targetDir ts ts' i po pn k Hi Hi' Hund)|].
  symmetry.
  etransitivity;
    [exact (opened_change targetDir ts ts i po po k Hi Hi (λ _ _, or_introl eq_refl))|].
  by rewrite Hh.
Qed.

Lemma opened_add (targetDir : string) (ts ts' : list phase) (i : nat)
    (po pn : phase) (m : ModFileInfo) (k : string) :
  ts !! i = Some po → ts' !! i = Some pn →
  holding po = None → holding pn = Some m →
  (∀ j, j ≠ i → undisturbed ts ts' j) →
  opened targetDir ts' k ↔ Fs.key (mod_path targetDir m) = k ∨ opened targetDir ts k.
Proof.
  intros Hi Hi' Ho Hn Hund.
  rewrite (opened_change targetDir ts ts' i po pn k Hi Hi' Hund), Ho, Hn.
  split.
  - intros [(m' & [= <-] & ?)|[[_ ?]|[(m' & ? & _) _]]]; auto. done.
  - intros [?|?]; [left; eauto | right; left; split; [done|done]].
Qed.

Lemma fs_inv_step (env : Env) (targetDir : string) (files : list ManifestFile)
    (f0 : gmap string node) (i : nat) (s s' : Download) :
  invariant 0 (length files) files s →
  fs_inv env targetDir files f0 s →
  step env targetDir files i s s' →
  fs_inv env targetDir files f0 s'.
Proof.
  intros Hinv [Hinfo Hbody Hdoneb Hfiles] Hstep.
  destruct (step_effect env targetDir files i s s' Hinv Hstep) as [Hund Heff].
  assert (Hinfo_other : ∀ j p m, j ≠ i → tasks s' !! j = Some p → carries p = Some m →
                                 resolves env files j m).
  { intros j p m Hne Hj Hc. eapply Hinfo; [|exact Hc].
    by eapply undisturbed_carries; [apply Hund | |]. }
  assert (Hbody_other : ∀ j m body, j ≠ i → tasks s' !! j = Some (Piping m body) →
                                    http_body env (downloadUrl m) = Some body).
  { intros j m body Hne Hj. eapply Hbody.
    by eapply (undisturbed_carries _ _ j _ m); [apply Hund | |]. }
  assert (Hdone_other : ∀ j m, j ≠ i → tasks s' !! j = Some (Done m) →
                               is_Some (http_body env (downloadUrl m))).
  { intros j m Hne Hj. eapply Hdoneb.
    by eapply (undisturbed_carries _ _ j _ m); [apply Hund | |]. }
  destruct Heff as [Ht Hfs | f m Hi Hi' Hf Hj Hfs | e Hi Hi' Hfs
                   | m body Hi Hi' Hb Hfs | m body Hi Hi' Hfs].
  - split; rewrite ?Ht, ?Hfs; assumption.
  - split.
    + intros j p m' Hj' Hc. destruct (decide (j = i)) as [->|Hne]; [|by eauto].
      rewrite Hi' in Hj'. injection Hj' as <-. injection Hc as <-. by exists f.
    + intros j m' body Hj'. destruct (decide (j = i)) as [->|Hne]; [|by eauto].
      rewrite Hi' in Hj'. discriminate.
    + intros j m' Hj'. destruct (decide (j = i)) as [->|Hne]; [|by eauto].
      rewrite Hi' in Hj'. discriminate.
    + intros k. rewrite Hfs, Hfiles.
      by rewrite (opened_same targetDir (tasks s) (tasks s') i _ _ k Hi Hi').
  - assert (∃ po, tasks s !! i = Some po ∧ holding po = None) as (po & Hpo & Hh).
    { destruct Hi as [?|[m ?]]; eauto. }
    split.
    + intros j p m' Hj' Hc. destruct (decide (j = i)) as [->|Hne]; [|by eauto].
      rewrite Hi' in Hj'. injection Hj' as <-. discriminate.
    + intros j m' body Hj'. destruct (decide (j = i)) as [->|Hne]; [|by eauto].
      rewrite Hi' in Hj'. discriminate.
    + intros j m' Hj'. destruct (decide (j = i)) as [->|Hne]; [|by eauto].
      rewrite Hi' in Hj'. discriminate.
    + intros k. rewrite Hfs, Hfiles.
      by rewrite (opened_same targetDir (tasks s) (tasks s') i _ _ k Hpo Hi').
  - split.
    + intros j p m' Hj' Hc. destruct (decide (j = i)) as [->|Hne]; [|by eauto].
      rewrite Hi' in Hj'. injection Hj' as <-. injection Hc as <-. by eapply Hinfo.
    + intros j m' body' Hj'. destruct (decide (j = i)) as [->|Hne]; [|by eauto].
      rewrite Hi' in Hj'. by injection Hj' as <- <-.
    + intros j m' Hj'. destruct (decide (j = i)) as [->|Hne]; [|by eauto].
      rewrite Hi' in Hj'. discriminate.
    + intros k. rewrite Hfs, is_file_insert, Hfiles.
      rewrite (opened_add targetDir (tasks s) (tasks s') i _ _ m k Hi Hi') by done.
      tauto.
  - split.
    + intros j p m' Hj' Hc. destruct (decide (j = i)) as [->|Hne]; [|by eauto].
      rewrite Hi' in Hj'. injection Hj' as <-. injection Hc as <-. by eapply Hinfo.
    + intros j m' body' Hj'. destruct (decide (j = i)) as [->|Hne]; [|by eauto].
      rewrite Hi' in Hj'. discriminate.
    + intros j m' Hj'. destruct (decide (j = i)) as [->|Hne]; [|by eauto].
      rewrite Hi' in Hj'. injection Hj' as <-. rewrite (Hbody i m body Hi). by eexists.
    + intros k. rewrite Hfs, is_file_insert, Hfiles.
      rewrite (opened_same targetDir (tasks s) (tasks s') i _ _ k Hi Hi') by done.
      split; [|tauto]. intros [<-|?]; [|done]. right. by exists i, (Piping m body), m.
Qed.

Lemma content_inv_step (env : Env) (targetDir : string) (files : list ManifestFile)
    (f0 : gmap string node) (i : nat) (s s' : Download) :
  distinct_paths env targetDir files →
  invariant 0 (length files) files s →
  fs_inv env targetDir files f0 s →
  content_inv env targetDir f0 s →
  step env targetDir files i s s' →
  content_inv env targetDir f0 s'.
Proof.
  intros Hdist Hinv [Hinfo Hbody Hdoneb Hfiles] [Hdone Hother] Hstep.
  destruct (step_effect env targetDir files i s s' Hinv Hstep) as [Hund Heff].
  assert (Hdone_other : ∀ j m, j ≠ i → tasks s' !! j = Some (Done m) →
                               tasks s !! j = Some (Done m)).
  { intros j m Hne Hj. by eapply (undisturbed_carries _ _ j _ m); [apply Hund | |]. }
  assert (Hne_key : ∀ j mi mj pi, j ≠ i → tasks s !! i = Some pi → carries pi = Some mi →
                      tasks s' !! j = Some (Done mj) →
                      Fs.key (mod_path targetDir mi) ≠ Fs.key (mod_path targetDir mj)).
  { intros j mi mj pi Hne Hi Hc Hj Hk. apply Hne. symmetry.
    eapply (Hdist i j mi mj); [by eapply Hinfo | | done].
    eapply Hinfo; [by eapply Hdone_other|done]. }
  destruct Heff as [Ht Hfs | f m Hi Hi' Hf Hj Hfs | e Hi Hi' Hfs
                   | m body Hi Hi' Hb Hfs | m body Hi Hi' Hfs].
  - split; rewrite ?Ht, ?Hfs; assumption.
  - split.
    + intros j m' body Hj' Hb. rewrite Hfs.
      destruct (decide (j = i)) as [->|Hne]; [congruence|]. by eauto.
    + intros k Hk. rewrite Hfs. apply Hother.
      by rewrite <- (opened_same targetDir (tasks s) (tasks s') i _ _ k Hi Hi').
  - assert (∃ po, tasks s !! i = Some po ∧ holding po = None) as (po & Hpo & Hh).
    { destruct Hi as [?|[m ?]]; eauto. }
    split.
    + intros j m' body Hj' Hb. rewrite Hfs.
      destruct (decide (j = i)) as [->|Hne]; [congruence|]. by eauto.
    + intros k Hk. rewrite Hfs. apply Hother.
      by rewrite <- (opened_same targetDir (tasks s) (tasks s') i _ _ k Hpo Hi').
  - split.
    + intros j m' body' Hj' Hb'. rewrite Hfs.
      destruct (decide (j = i)) as [->|Hne]; [congruence|].
      rewrite lookup_insert_ne by (by eapply Hne_key). by eauto.
    + intros k Hk. rewrite Hfs.
      rewrite (opened_add targetDir (tasks s) (tasks s') i _ _ m k Hi Hi') in Hk by done.
      rewrite lookup_insert_ne by tauto. apply Hother. tauto.
  - split.
    + intros j m' body' Hj' Hb'. rewrite Hfs.
      destruct (decide (j = i)) as [->|Hne].
      * rewrite Hi' in Hj'. injection Hj' as <-.
        rewrite (Hbody i m body Hi) in Hb'. injection Hb' as <-.
        by rewrite lookup_insert_eq.
      * rewrite lookup_insert_ne by (by eapply Hne_key). by eauto.
    + intros k Hk. rewrite Hfs.
      rewrite (opened_same targetDir (tasks s) (tasks s') i _ _ k Hi Hi') in Hk by done.
      rewrite lookup_insert_ne; [by apply Hother|].
      intros <-. apply Hk. by exists i, (Piping m body), m.
Qed.

(** [launch] writes no file, and no task has metadata yet. *)
Lemma launch_fresh (files : list ManifestFile) (b : build) (w : World) :
  fs (world (launch files b w)) = fs w
  ∧ Forall (λ p, carries p = None) (tasks (launch files b w)).
Proof.
  unfold launch, idle.
  match goal with |- context [foldl _ ?s0 _] =>
    assert (fs (world s0) = fs w ∧ Forall (λ p, carries p = None) (tasks s0)) as H0
  end.
  { split; [done|]. simpl. apply Forall_replicate. done. }
  revert H0. generalize (seq 0 (length files)). intros l.
  match goal with |- context [foldl _ ?s0 _] => generalize s0 end.
  induction l as [|i l IH] using rev_ind; intros s0 H0; [done|].
  rewrite foldl_app. simpl. specialize (IH s0 H0).
  set (s := foldl (submit files) s0 l) in *. destruct IH as [Hfs Hts].
  assert (Hstart : ∀ s1, fs (world s1) = fs w →
                         Forall (λ p, carries p = None) (tasks s1) →
                         fs (world (start files i s1)) = fs w
                         ∧ Forall (λ p, carries p = None) (tasks (start files i s1))).
  { intros s1 H1 H2. unfold start. destruct (files !! i); [|done].
    split; [done|]. simpl. by apply Forall_insert. }
  unfold submit. destruct (limiter s) as [lim|]; [|by apply Hstart].
  destruct (Limit.submit i lim) as [lim' []]; [by apply Hstart | done].
Qed.

Lemma carries_holding (p : phase) (m : ModFileInfo) :
  holding p = Some m → carries p = Some m.
Proof. by destruct p. Qed.

Lemma fs_inv_launch (env : Env) (targetDir : string) (files : list ManifestFile)
    (b : build) (w : World) :
  fs_inv env targetDir files (fs w) (launch files b w)
  ∧ content_inv env targetDir (fs w) (launch files b w).
Proof.
  destruct (launch_fresh files b w) as [Hfs Hts].
  assert (Hnone : ∀ i p m, tasks (launch files b w) !! i = Some p →
                           carries p = Some m → False).
  { intros i p m Hi Hc. rewrite Forall_lookup in Hts. specialize (Hts i p Hi).
    congruence. }
  assert (Hno : ∀ k, ¬ opened targetDir (tasks (launch files b w)) k).
  { intros k (i & p & m & Hi & Hh & _). eauto using carries_holding. }
  split; split.
  - intros i p m Hi Hc. by destruct (Hnone i p m).
  - intros i m body Hi. by destruct (Hnone i _ m Hi).
  - intros i m Hi. by destruct (Hnone i _ m Hi).
  - intros k. rewrite Hfs. split; [by left | intros [?|?]; [done | by destruct (Hno k)]].
  - intros i m body Hi. by destruct (Hnone i _ m Hi).
  - intros k _. by rewrite Hfs.
Qed.

(** The three invariants hold in every state the download phase can
    reach. *)
Lemma reachable (b : build) (env : Env) (targetDir : string)
    (files : list ManifestFile) (sched : list nat) (w : World) :
  invariant 0 (length files) files (exec env targetDir files sched (launch files b w))
  ∧ fs_inv env targetDir files (fs w) (exec env targetDir files sched (launch files b w))
  ∧ (distinct_paths env targetDir files →
     content_inv env targetDir (fs w) (exec env targetDir files sched (launch files b w))).
Proof.
  assert (H0 : invariant 0 (length files) files (launch files b w)
               ∧ fs_inv env targetDir files (fs w) (launch files b w)
               ∧ (distinct_paths env targetDir files →
                  content_inv env targetDir (fs w) (launch files b w))).
  { split; [apply inv_launch|]. destruct (fs_inv_launch env targetDir files b w); auto. }
  revert H0. generalize (launch files b w). unfold exec.
  induction sched as [|i sched IH]; intros s H0; [done|].
  simpl. apply IH. destruct (resume env targetDir files i s) as [s'|] eqn:Hr; [|done].
  simpl. apply resume_step in Hr as [_ Hstep]. destruct H0 as (H1 & H2 & H3).
  split; [by eapply inv_step|]. split; [by eapply fs_inv_step|].
  intros Hd. eapply content_inv_step; eauto.
Qed.

Lemma is_done_Done (p : phase) : is_done p = true → ∃ m, p = Done m.
Proof. destruct p; try done. eauto. Qed.

Lemma all_done_lookup (ts : list phase) (i : nat) (p : phase) :
  forallb is_done ts = true → ts !! i = Some p → ∃ m, p = Done m.
Proof.
  intros Hall Hi. apply is_done_Done.
  revert i Hi. induction ts as [|x ts IH]; intros [|i] Hi; simpl in *; try done.
  - injection Hi as ->. by apply andb_true_iff in Hall as [? _].
  - apply andb_true_iff in Hall as [_ ?]. eauto.
Qed.

(** When every task is done, the opened paths are the paths the
    manifest's entries resolve to, and every entry resolves. *)
Lemma all_done_opened (env : Env) (targetDir : string) (files : list ManifestFile)
    (f0 : gmap string node) (s : Download) :
  length (tasks s) = length files →
  fs_inv env targetDir files f0 s →
  forallb is_done (tasks s) = true →
  (∀ k, opened targetDir (tasks s) k ↔ k ∈ mod_keys env targetDir files)
  ∧ Forall (λ f, is_Some (mod_key env targetDir f)) files.
Proof.
  intros Hlen [Hinfo _ _ _] Hall.
  assert (Hres : ∀ i f, files !! i = Some f →
            ∃ m, tasks s !! i = Some (Done m)
                 ∧ http_json env (api_url (projectID f) (fileID f))
                   = Some m).
  { intros i f Hf.
    destruct (lookup_lt_is_Some_2 (tasks s) i) as [p Hp].
    { rewrite Hlen. by eapply lookup_lt_Some. }
    destruct (all_done_lookup _ _ _ Hall Hp) as [m ->]. exists m. split; [done|].
    destruct (Hinfo i _ m Hp eq_refl) as (f' & Hf' & Hj). congruence. }
  split.
  - intros k. unfold mod_keys. rewrite list_elem_of_omap. split.
    + intros (i & p & m & Hi & Hh & <-).
      destruct (Hinfo i p m Hi (carries_holding _ _ Hh)) as (f & Hf & Hj).
      exists f. split; [by eapply list_elem_of_lookup_2|]. unfold mod_key. by rewrite Hj.
    + intros (f & [i Hf]%list_elem_of_lookup & Hk).
      destruct (Hres i f Hf) as (m & Hi & Hj). unfold mod_key in Hk. rewrite Hj in Hk.
      injection Hk as <-. by exists i, (Done m), m.
  - apply Forall_lookup. intros i f Hf. destruct (Hres i f Hf) as (m & _ & Hj).
    unfold mod_key. rewrite Hj. by eexists.
Qed.

Lemma omap_length_all {A B} (g : A → option B) (l : list A) :
  Forall (λ a, is_Some (g a)) l → length (omap g l) = length l.
Proof.
  induction 1 as [|a l [b Hb] _ IH]; simpl; [done|]. rewrite Hb. simpl. f_equal. exact IH.
Qed.

Lemma NoDup_omap_lookup {A B} (g : A → option B) (l : list A) (i j : nat) (a b : A)
    (k : B) :
  NoDup (omap g l) → l !! i = Some a → l !! j = Some b →
  g a = Some k → g b = Some k → i = j.
Proof.
  revert i j. induction l as [|x l IH]; intros i j Hnd Hi Hj Ha Hb; [done|].
  simpl in Hnd.
  assert (Hin : ∀ n c, l !! n = Some c → g c = Some k → k ∈ omap g l).
  { intros n c Hn Hc. apply list_elem_of_omap. exists c.
    split; [by eapply list_elem_of_lookup_2 | done]. }
  destruct i as [|i], j as [|j]; simpl in *; [done| | |].
  - injection Hi as ->. rewrite Ha in Hnd. apply NoDup_cons in Hnd as [Hk _].
    destruct Hk. eauto.
  - injection Hj as ->. rewrite Hb in Hnd. apply NoDup_cons in Hnd as [Hk _].
    destruct Hk. eauto.
  - f_equal. apply IH; try done. destruct (g x); [by apply NoDup_cons in Hnd as [_ ?] | done].
Qed.

Lemma NoDup_distinct_paths (env : Env) (targetDir : string) (files : list ManifestFile) :
  NoDup (mod_keys env targetDir files) → distinct_paths env targetDir files.
Proof.
  intros Hnd i j mi mj (fi & Hi & Hji) (fj & Hj & Hjj) Hk.
  eapply (NoDup_omap_lookup _ _ i j fi fj _ Hnd Hi Hj).
  - unfold mod_key. by rewrite Hji.
  - unfold mod_key. by rewrite Hjj, Hk.
Qed.

(** The files on disk after a download phase in which every task
    completed. *)
Lemma download_file_paths (b : build) (env : Env) (targetDir : string)
    (files : list ManifestFile) (sched rest : list nat) (w : World) (s' : Download) :
  await_all env targetDir files sched (launch files b w) = (AllDone, s', rest) →
  Fs.file_paths (fs (world s'))
  = Fs.file_paths (fs w) ∪ list_to_set (mod_keys env targetDir files)
  ∧ length (mod_keys env targetDir files) = length files.
Proof.
  intros Haw. apply await_all_exec in Haw as (pre & _ & -> & [?|Hst]); [done|].
  apply status_AllDone in Hst as (Hall & _).
  destruct (reachable b env targetDir files pre w) as ([Hlen _ _ _ _] & Hfs & _).
  destruct (all_done_opened env targetDir files (fs w) _ Hlen Hfs Hall) as [Hop Hsome].
  split; [|by apply omap_length_all].
  apply set_eq. intros k.
  rewrite elem_of_union, !elem_of_file_paths, elem_of_list_to_set, <- Hop.
  by destruct Hfs as [_ _ _ ->].
Qed.

(** ** The extraction phase: what it does to the filesystem *)

Lemma has_trailing_slash_cons (c : ascii) (s : string) :
  s ≠ "" → Path.has_trailing_slash (String c s) = Path.has_trailing_slash s.
Proof.
  intros Hs. destruct s as [|d s]; [done|]. reflexivity.
Qed.

Lemma strip_prefix_trailing (pre s rel : string) :
  Zip.strip_prefix pre s = Some rel → rel ≠ "" →
  Path.has_trailing_slash rel = Path.has_trailing_slash s.
Proof.
  revert s. induction pre as [|a pre IH]; intros s; simpl.
  - by intros [= ->].
  - destruct s as [|b s]; [done|]. destruct (Ascii.eqb a b); [|done].
    intros H Hrel. rewrite (IH s H Hrel). symmetry. apply has_trailing_slash_cons.
    intros ->. destruct pre; simpl in H; [|done]. by injection H as <-.
Qed.

Lemma forceTrailingSlash_trailing (n : string) :
  Path.has_trailing_slash (Zip.forceTrailingSlash n) = true.
Proof.
  unfold Zip.forceTrailingSlash.
  destruct (Path.has_trailing_slash n) eqn:H; [done|].
  unfold Path.has_trailing_slash. rewrite unstr_app.
  change (unstr "/") with ["/"%char]. by rewrite last_snoc.
Qed.

Lemma override_entries_wf (modpack : Zip.JSZip) :
  wf_archive modpack →
  Forall (λ e, Zip.dir e.2 = true → Path.has_trailing_slash e.1 = true)
    (override_entries modpack).
Proof.
  intros Hwf. unfold override_entries, Zip.folder. simpl.
  unfold Zip.forEach. simpl. apply Forall_forall. intros [rel o] Hin.
  apply list_elem_of_omap in Hin as ([n o'] & Hin & Hrel). simpl in Hrel.
  destruct (Zip.strip_prefix _ n) as [rel'|] eqn:Hs; [|done].
  destruct (String.eqb rel' "") eqn:He; [done|]. injection Hrel as -> ->.
  apply String.eqb_neq in He. simpl. intros Hd.
  rewrite (strip_prefix_trailing _ _ _ Hs He).
  assert (Hall : wf_archive (Zip.folderAdd
            (Zip.forceTrailingSlash (Zip.root modpack +:+ "overrides")) modpack)).
  { unfold Zip.folderAdd. destruct (Zip.lookup _ _); [done|].
    unfold wf_archive. simpl. apply Forall_app. split; [done|].
    apply Forall_singleton. intros _. simpl. apply forceTrailingSlash_trailing. }
  unfold wf_archive in Hall. rewrite Forall_forall in Hall.
  by apply (Hall (n, o)).
Qed.

Lemma open_write_no_slash (p : string) (f f' : gmap string node) :
  Fs.open_write p f = inr f' → Path.has_trailing_slash p = false.
Proof. unfold Fs.open_write. by destruct (Path.has_trailing_slash p). Qed.

Lemma extract_file_ok (targetDir path : string) (fileData : Zip.ZipObject)
    (w w' : World) :
  extract_file targetDir path fileData w = (Return (), w') →
  Path.has_trailing_slash path = false
  ∧ ∀ k, Fs.is_file (fs w') k = true
         ↔ Fs.key (Path.join [targetDir; path]) = k ∨ Fs.is_file (fs w) k = true.
Proof.
  unfold extract_file.
  destruct (Fs.mkdir_recursive _ _) as [e|f1] eqn:Hmk; [done|].
  destruct (Fs.open_write _ _) as [e|f2] eqn:Ho; [done|]. intros [= <-].
  split.
  - apply open_write_no_slash in Ho.
    destruct (Path.has_trailing_slash path) eqn:Hp; [|done].
    by rewrite (join_trailing_slash targetDir path Hp) in Ho.
  - intros k. apply open_write_ok in Ho as ->. simpl. unfold Fs.finish_write.
    rewrite !is_file_insert. apply mkdir_recursive_ok in Hmk as [_ ->]. tauto.
Qed.

Lemma extract_dir_ok (targetDir path : string) (w w' : World) :
  extract_dir targetDir path w = (Return (), w') →
  ∀ k, Fs.is_file (fs w') k = Fs.is_file (fs w) k.
Proof.
  unfold extract_dir.
  destruct (Fs.mkdir_recursive _ _) as [e|f1] eqn:Hmk; [done|]. intros [= <-] k.
  simpl. by apply mkdir_recursive_ok in Hmk as [_ ->].
Qed.

(** A successful extraction adds exactly the files of the file entries. *)
Lemma extract_all_ok (b : build) (targetDir : string)
    (entries : list (string * Zip.ZipObject)) (w w' : World) :
  Forall (λ e, Zip.dir e.2 = true → Path.has_trailing_slash e.1 = true) entries →
  extract_all b targetDir entries w = (Return (), w') →
  ∀ k, Fs.is_file (fs w') k = true
       ↔ Fs.is_file (fs w) k = true
         ∨ k ∈ (override_key targetDir <$> List.filter is_file_entry entries).
Proof.
  intros Hwf. revert w. induction Hwf as [|[path o] entries Hd _ IH]; intros w.
  - simpl. intros [= <-] k. split; [by left | intros [?|?%elem_of_nil]; done].
  - cbn [extract_all].
    destruct (extract_entry b targetDir (path, o) w) as [[[]| | | |] w1] eqn:He;
      try done.
    intros Hrest k. rewrite (IH w1 Hrest k). cbn [List.filter].
    change (is_file_entry (path, o)) with (negb (Zip.dir o)).
    unfold extract_entry in He.
    assert (Hfile : extract_file targetDir path o w = (Return (), w1) →
              Zip.dir o = false
              ∧ (Fs.is_file (fs w1) k = true
                 ↔ override_key targetDir (path, o) = k ∨ Fs.is_file (fs w) k = true)).
    { intros Hf. apply extract_file_ok in Hf as [Hs Hk]. split; [|exact (Hk k)].
      destruct (Zip.dir o) eqn:E; [|done]. simpl in Hd. rewrite Hd in Hs; done. }
    destruct b.
    + destruct (Zip.dir o) eqn:Hdir; rewrite ?Hdir in He; cbn [negb].
      * by rewrite (extract_dir_ok _ _ _ _ He k).
      * destruct (Hfile He) as [_ ->]. rewrite fmap_cons, elem_of_cons.
        split; intros H; destruct_or!; auto.
    + destruct (Hfile He) as [-> ->]. cbn [negb]. rewrite fmap_cons, elem_of_cons.
      split; intros H; destruct_or!; auto.
Qed.

Lemma expandOverrides_ok (b : build) (modpack : Zip.JSZip) (targetDir : string)
    (w w' : World) :
  wf_archive modpack →
  expandOverrides b modpack targetDir w = (Return (), w') →
  Fs.file_paths (fs w') = Fs.file_paths (fs w) ∪ list_to_set (override_keys targetDir modpack).
Proof.
  intros Hwf Hex. apply set_eq. intros k.
  rewrite elem_of_union, !elem_of_file_paths, elem_of_list_to_set.
  unfold override_keys, file_entries.
  pose proof (override_entries_wf modpack Hwf) as Hent.
  unfold expandOverrides in Hex. unfold override_entries in *.
  destruct (Zip.folder "overrides" modpack) as [o|]; [|done].
  by rewrite (extract_all_ok _ _ _ _ _ Hent Hex k).
Qed.

Lemma downloadMods_ok (b : build) (env : Env) (modpack : Zip.JSZip)
    (targetDir : string) (sched : list nat) (w w' : World) :
  downloadMods b env modpack targetDir sched w = (Return (), w') →
  ∃ f1 manifestData manifest s rest,
    Fs.mkdir_recursive (Path.join [targetDir; "mods"]) (fs w) = inr f1
    ∧ Zip.file "manifest.json" modpack = Some manifestData
    ∧ json_manifest env (Zip.data manifestData) = Some manifest
    ∧ await_all env targetDir (files manifest) sched
        (launch (files manifest) b
           (write_stderr (downloading_line (length (files manifest)))
              (set_fs f1 w)))
      = (AllDone, s, rest)
    ∧ w' = world s.
Proof.
  unfold downloadMods.
  destruct (Fs.mkdir_recursive _ _) as [e|f1] eqn:Hmk; [done|].
  destruct (Zip.file _ _) as [manifestData|] eqn:Hf; [|done].
  destruct (json_manifest _ _) as [manifest|] eqn:Hj;
    [|by destruct (json_parse env _)].
  destruct (await_all _ _ _ _ _) as [[r s] rest] eqn:Haw.
  intros [= Hr <-]. destruct r; try done.
  by exists f1, manifestData, manifest, s, rest.
Qed.

(** C2, as amended.  After a successful run on a well-formed archive
    the files on disk are those that were there before, the files
    [<target>/mods/<fileName>] of the manifest's entries and the files
    [<target>/<path>] of the file entries of [overrides/], and no others.
    All [K] manifest entries resolve to a path and there is one path per
    file entry; these are [K] and [M] distinct files when the paths
    are pairwise distinct (entries with the same file name share one
    file). *)
Theorem install_files (b : build) (env : Env) (modpack : Zip.JSZip)
    (targetDir : string) (sched : list nat) (w w' : World)
    (manifestData : Zip.ZipObject) (manifest : ModpackManifest) :
  wf_archive modpack →
  Zip.file "manifest.json" modpack = Some manifestData →
  json_manifest env (Zip.data manifestData) = Some manifest →
  install b env modpack targetDir sched w = (Return (), w') →
  Fs.file_paths (fs w')
  = Fs.file_paths (fs w)
    ∪ list_to_set (mod_keys env targetDir (files manifest))
    ∪ list_to_set (override_keys targetDir modpack)
  ∧ length (mod_keys env targetDir (files manifest))
    = length (files manifest)
  ∧ length (override_keys targetDir modpack) = length (file_entries modpack)
  ∧ (NoDup (mod_keys env targetDir (files manifest)) →
     size (list_to_set (C:=gset string)
             (mod_keys env targetDir (files manifest)))
     = length (files manifest))
  ∧ (NoDup (override_keys targetDir modpack) →
     size (list_to_set (C:=gset string) (override_keys targetDir modpack))
     = length (file_entries modpack)).
Proof.
  intros Hwf Hfile Hjson Hrun. unfold install in Hrun.
  destruct (downloadMods _ _ _ _ _ _) as [[[]| | | |] w1] eqn:Hdl; try done.
  destruct (expandOverrides _ _ _ _) as [[[]| | | |] w2] eqn:Hex; try done.
  injection Hrun as <-.
  apply downloadMods_ok in Hdl as (f1 & md & m & s & rest & Hmk & Hf & Hj & Haw & ->).
  assert (md = manifestData) as -> by congruence.
  assert (m = manifest) as -> by congruence.
  apply download_file_paths in Haw as [Hpaths Hlen]. simpl in Hpaths.
  apply mkdir_recursive_file_paths in Hmk.
  apply (expandOverrides_ok _ _ _ _ _ Hwf) in Hex.
  assert (Hlen' : length (override_keys targetDir modpack)
                  = length (file_entries modpack)).
  { unfold override_keys. by rewrite length_fmap. }
  repeat split.
  - simpl. by rewrite Hex, Hpaths, Hmk.
  - done.
  - done.
  - intros Hnd. by rewrite size_list_to_set.
  - intros Hnd. by rewrite size_list_to_set.
Qed.

Lemma install_files_witness :
  Fs.file_paths
    (fs (snd (install IndexTs Sample.env Sample.pack_dirs "out" [0; 0; 0] empty_world)))
  = Fs.file_paths (fs empty_world)
    ∪ list_to_set (mod_keys Sample.env "out" [Sample.entry12])
    ∪ list_to_set (override_keys "out" Sample.pack_dirs).
Proof.
  apply (install_files IndexTs Sample.env Sample.pack_dirs "out" [0; 0; 0] empty_world
           (snd (install IndexTs Sample.env Sample.pack_dirs "out" [0; 0; 0] empty_world))
           (snd (Sample.file_entry "manifest.json" (Sample.text "m12")))
           {| files := [Sample.entry12] |}).
  - unfold wf_archive. simpl.
    repeat (apply Forall_cons; split;
            [first [intros _; reflexivity | intros H; discriminate H] |]).
    apply Forall_nil_2.
  - reflexivity.
  - reflexivity.
  - vm_compute. reflexivity.
Defined.

(** C2 as stated fails when two manifest entries resolve to the same
    file name: this manifest lists [K = 2] entries (the same file twice),
    the run succeeds, and [out/mods] holds one file. *)
Lemma duplicate_entries_share_a_file :
  Sample.manifest_of (Sample.text "m12,12")
  = Some {| files := [Sample.entry12; Sample.entry12] |}
  ∧ fst (install IndexTs Sample.env Sample.pack_twice "out" [0; 1; 0; 1; 0; 1] empty_world)
    = Return ()
  ∧ Fs.files_under (Path.join ["out"; "mods"])
      (fs (snd (install IndexTs Sample.env Sample.pack_twice "out" [0; 1; 0; 1; 0; 1]
                  empty_world)))
    ≠ length [Sample.entry12; Sample.entry12].
Proof. repeat split; vm_compute; done. Qed.

(** ** Permuting the manifest *)

(** Two download phases over permuted file lists, started on the same
    filesystem, end with the same filesystem if both complete and no two
    entries resolve to the same path. *)
Lemma download_same_fs (b1 b2 : build) (env : Env) (targetDir : string)
    (files1 files2 : list ManifestFile) (sched1 sched2 rest1 rest2 : list nat)
    (w1 w2 : World) (s1 s2 : Download) :
  files1 ≡ₚ files2 → fs w1 = fs w2 →
  NoDup (mod_keys env targetDir files1) →
  await_all env targetDir files1 sched1 (launch files1 b1 w1) = (AllDone, s1, rest1) →
  await_all env targetDir files2 sched2 (launch files2 b2 w2) = (AllDone, s2, rest2) →
  fs (world s1) = fs (world s2).
Proof.
  intros Hperm Hfs0 Hnd1 Haw1 Haw2.
  assert (Hnd2 : NoDup (mod_keys env targetDir files2)).
  { unfold mod_keys in *. by rewrite <- Hperm. }
  assert (Hfinal : ∀ b files sched rest w s,
            NoDup (mod_keys env targetDir files) →
            await_all env targetDir files sched (launch files b w) = (AllDone, s, rest) →
            (∀ k, k ∉ mod_keys env targetDir files → fs (world s) !! k = fs w !! k)
            ∧ (∀ k, k ∈ mod_keys env targetDir files →
                 ∃ f m body, f ∈ files
                   ∧ http_json env (api_url (projectID f) (fileID f))
                     = Some m
                   ∧ Fs.key (mod_path targetDir m) = k
                   ∧ http_body env (downloadUrl m) = Some body
                   ∧ fs (world s) !! k = Some (File body))).
  { intros b files sched rest w s Hnd Haw.
    apply await_all_exec in Haw as (pre & _ & -> & [?|Hst]); [done|].
    apply status_AllDone in Hst as (Hall & _).
    destruct (reachable b env targetDir files pre w) as ([Hlen _ _ _ _] & Hfs & Hc).
    specialize (Hc (NoDup_distinct_paths _ _ _ Hnd)).
    destruct (all_done_opened env targetDir files (fs w) _ Hlen Hfs Hall) as [Hop _].
    split.
    - intros k Hk. apply Hc. by rewrite Hop.
    - intros k Hk. apply Hop in Hk as (i & p & m & Hi & Hh & Hkey).
      destruct (all_done_lookup _ _ _ Hall Hi) as [m' ->]. injection Hh as ->.
      destruct Hfs as [Hinfo _ Hdone _].
      destruct (Hinfo i _ m Hi eq_refl) as (f & Hf & Hj).
      destruct (Hdone i m Hi) as [body Hb].
      exists f, m, body. repeat split; try done.
      + by eapply list_elem_of_lookup_2.
      + rewrite <- Hkey. by eapply Hc. }
  destruct (Hfinal b1 files1 sched1 rest1 w1 s1 Hnd1 Haw1) as [Hout1 Hin1].
  destruct (Hfinal b2 files2 sched2 rest2 w2 s2 Hnd2 Haw2) as [Hout2 Hin2].
  assert (Hkeys : ∀ k, k ∈ mod_keys env targetDir files1 ↔ k ∈ mod_keys env targetDir files2).
  { intros k. unfold mod_keys. by rewrite Hperm. }
  apply map_eq. intros k.
  destruct (decide (k ∈ mod_keys env targetDir files1)) as [Hk|Hk].
  - destruct (Hin1 k Hk) as (f & m & body & Hf & Hj & Hkey & Hb & ->).
    destruct (Hin2 k (proj1 (Hkeys k) Hk)) as (f' & m' & body' & Hf' & Hj' & Hkey' & Hb' & ->).
    rewrite <- Hperm in Hf'.
    apply list_elem_of_lookup in Hf as [i Hi]. apply list_elem_of_lookup in Hf' as [j Hj2].
    assert (i = j) as ->.
    { eapply (NoDup_distinct_paths _ _ _ Hnd1 i j m m'); [by exists f | by exists f' |].
      congruence. }
    congruence.
  - rewrite Hout1 by done. rewrite Hout2 by (by rewrite <- Hkeys). by rewrite Hfs0.
Qed.

(** C8, as amended.  Two manifests whose file lists are permutations of
    each other, and whose entries resolve to pairwise distinct paths,
    leave the same filesystem behind (so the same set of paths and
    contents under [<target>/mods]) whenever both download phases
    succeed: whatever the build and the order in which the tasks
    complete. *)
Theorem permuted_manifest_same_files (b1 b2 : build) (env : Env) (targetDir : string)
    (modpack1 modpack2 : Zip.JSZip) (md1 md2 : Zip.ZipObject) (m1 m2 : ModpackManifest)
    (sched1 sched2 : list nat) (w w1 w2 : World) :
  Zip.file "manifest.json" modpack1 = Some md1 →
  json_manifest env (Zip.data md1) = Some m1 →
  Zip.file "manifest.json" modpack2 = Some md2 →
  json_manifest env (Zip.data md2) = Some m2 →
  files m1 ≡ₚ files m2 →
  NoDup (mod_keys env targetDir (files m1)) →
  downloadMods b1 env modpack1 targetDir sched1 w = (Return (), w1) →
  downloadMods b2 env modpack2 targetDir sched2 w = (Return (), w2) →
  fs w1 = fs w2.
Proof.
  intros Hf1 Hj1 Hf2 Hj2 Hperm Hnd Hd1 Hd2.
  apply downloadMods_ok in Hd1 as (f1 & md1' & m1' & s1 & rest1 & Hmk1 & Hf1' & Hj1' & Haw1 & ->).
  apply downloadMods_ok in Hd2 as (f2 & md2' & m2' & s2 & rest2 & Hmk2 & Hf2' & Hj2' & Haw2 & ->).
  assert (md1' = md1) as -> by congruence. assert (m1' = m1) as -> by congruence.
  assert (md2' = md2) as -> by congruence. assert (m2' = m2) as -> by congruence.
  assert (f2 = f1) as -> by congruence.
  refine (download_same_fs b1 b2 env targetDir _ _ _ _ _ _ _ _ s1 s2 Hperm _ Hnd Haw1 Haw2).
  reflexivity.
Qed.

Lemma permuted_manifest_same_files_witness :
  fs (snd (downloadMods IndexTs Sample.env (Sample.pack_of "m12,34") "out"
             [0; 0; 0; 1; 1; 1] empty_world))
  = fs (snd (downloadMods Part000 Sample.env (Sample.pack_of "m34,12") "out"
               [1; 0; 1; 0; 0; 1] empty_world)).
Proof.
  apply (permuted_manifest_same_files IndexTs Part000 Sample.env "out"
           (Sample.pack_of "m12,34") (Sample.pack_of "m34,12")
           (snd (Sample.file_entry "manifest.json" (Sample.text "m12,34")))
           (snd (Sample.file_entry "manifest.json" (Sample.text "m34,12")))
           {| files := [Sample.entry12; Sample.entry34] |}
           {| files := [Sample.entry34; Sample.entry12] |}
           [0; 0; 0; 1; 1; 1] [1; 0; 1; 0; 0; 1] empty_world).
  - reflexivity.
  - reflexivity.
  - reflexivity.
  - reflexivity.
  - apply perm_swap.
  - vm_compute. repeat constructor; intros H;
      repeat (apply elem_of_cons in H as [H|H]; [discriminate H|]);
      by apply elem_of_nil in H.
  - vm_compute. reflexivity.
  - vm_compute. reflexivity.
Defined.

(** C8 as stated fails when two entries resolve to the same file name:
    these two manifests are permutations of each other, both download
    phases succeed with the tasks completing in manifest order, and
    [out/mods/a.jar] ends with different contents. *)
Lemma permuted_manifest_different_file :
  [Sample.entry12; Sample.entry56] ≡ₚ [Sample.entry56; Sample.entry12]
  ∧ fst (downloadMods IndexTs Sample.env (Sample.pack_of "m12,56") "out"
           [0; 0; 0; 1; 1; 1] empty_world) = Return ()
  ∧ fst (downloadMods IndexTs Sample.env (Sample.pack_of "m56,12") "out"
           [0; 0; 0; 1; 1; 1] empty_world) = Return ()
  ∧ fs (snd (downloadMods IndexTs Sample.env (Sample.pack_of "m12,56") "out"
               [0; 0; 0; 1; 1; 1] empty_world)) !! "out/mods/a.jar"
    ≠ fs (snd (downloadMods IndexTs Sample.env (Sample.pack_of "m56,12") "out"
                 [0; 0; 0; 1; 1; 1] empty_world)) !! "out/mods/a.jar".
Proof. split; [apply perm_swap|]. repeat split; vm_compute; done. Qed.

(** The end-to-end example: one manifest entry, ten bytes. *)
Example end_to_end :
  let r := install IndexTs Sample.env Sample.pack "out" [0; 0; 0] empty_world in
  fst r = Return ()
  ∧ fs (snd r) !! "out/mods/a.jar" = Some (File Sample.bodyA)
  ∧ length Sample.bodyA = 10
  ∧ progress_line 1 1 Sample.infoA ∈ stderr (snd r).
Proof. repeat split; try (vm_compute; reflexivity). vm_compute. set_solver. Qed.

(* ===================================================================== *)
(** * Further properties of the program *)
(* ===================================================================== *)

(** ** The top level and the argument parser *)

(** [parseCommandLineArgs] touches neither the filesystem nor the
    network, and writes to standard error only when it exits. *)
Lemma parseCommandLineArgs_world (env : Env) (argv : list string) (w : World) :
  snd (parseCommandLineArgs env argv w) = w
  ∨ parseCommandLineArgs env argv w = (Exit 1, printUsage w).
Proof.
  unfold parseCommandLineArgs. destruct (_ || _ || _); [by right|]. left.
  destruct (Url.parse _) as [u| |scheme]; [|done|by destruct (special_url env _)].
  destruct (negb _ || negb _); [done|]. by destruct (_ || _).
Qed.

(** X1. With fewer than two arguments, with an empty first or second
    argument, or with [--help] as the first argument, both builds print
    the usage line and exit with status 1: nothing is requested and the
    filesystem is not touched. *)
Theorem usage_exit (b : build) (env : Env) (argv : list string) (sched : list nat)
    (w : World) :
  length argv < 4 ∨ argv !! 2 = Some "" ∨ argv !! 2 = Some "--help" ∨ argv !! 3 = Some "" →
  main b env argv sched w = (Exit 1, write_stderr usage w)
  ∧ fs (snd (main b env argv sched w)) = fs w
  ∧ requests (snd (main b env argv sched w)) = requests w.
Proof.
  intros H.
  assert (Hparse : parseCommandLineArgs env argv w = (Exit 1, printUsage w)).
  { unfold parseCommandLineArgs.
    assert (falsy (argv !! 2) || bool_decide (argv !! 2 = Some "--help")
            || falsy (argv !! 3) = true) as ->; [|done].
    destruct H as [Hlen|[H|[H|H]]]; rewrite ?H; try done.
    - assert (argv !! 3 = None) as -> by (apply lookup_ge_None; lia).
      simpl. by rewrite orb_true_r.
    - simpl. by rewrite orb_true_r. }
  assert (main b env argv sched w = (Exit 1, write_stderr usage w)) as ->; [|done].
  unfold main, steps. rewrite Hparse. by destruct b.
Qed.

Lemma usage_exit_witness :
  main IndexTs Sample.env ["node"; "index.js"; "curseforge://install?addonId=1&fileId=2"]
    [] empty_world
  = (Exit 1, write_stderr usage empty_world).
Proof.
  apply (usage_exit IndexTs Sample.env
           ["node"; "index.js"; "curseforge://install?addonId=1&fileId=2"] [] empty_world).
  left. simpl. lia.
Defined.

(** X2. Whenever [parseCommandLineArgs] returns, the world is unchanged,
    the target directory is the second argument, the URL has scheme
    [curseforge] and host [install], the identifiers are what the URL's
    [addonId] and [fileId] parameters decode to, and none of the three
    strings is empty. *)
Theorem parse_returns_checked_args (env : Env) (argv : list string) (w w' : World)
    (args : Args) :
  parseCommandLineArgs env argv w = (Return args, w') →
  w' = w
  ∧ argv !! 3 = Some (targetDir args)
  ∧ targetDir args ≠ "" ∧ addonId args ≠ "" ∧ fileId args ≠ ""
  ∧ ∃ s u, argv !! 2 = Some s ∧ s ≠ "--help" ∧ Url.parse s = Url.Parsed u
           ∧ Url.protocol u = "curseforge:" ∧ Url.hostname u = "install"
           ∧ Url.get "addonId" (Url.searchParams u) = Some (addonId args)
           ∧ Url.get "fileId" (Url.searchParams u) = Some (fileId args).
Proof.
  unfold parseCommandLineArgs.
  destruct (argv !! 2) as [s|] eqn:Hs; [|done].
  destruct (argv !! 3) as [t|] eqn:Ht; [|by rewrite orb_true_r].
  destruct (falsy (Some s)) eqn:Hfs; [done|].
  destruct (bool_decide (Some s = Some "--help")) eqn:Hh; [done|].
  destruct (falsy (Some t)) eqn:Hft; [done|]. simpl.
  destruct (Url.parse s) as [u| |scheme] eqn:Hu;
    [|done|by destruct (special_url env s)].
  destruct (String.eqb (Url.protocol u) "curseforge:") eqn:Hp; [|done].
  destruct (String.eqb (Url.hostname u) "install") eqn:Hhost; [|done]. simpl.
  destruct (Url.get "addonId" _) as [a|] eqn:Ha; [|done].
  destruct (Url.get "fileId" _) as [f|] eqn:Hf; [|by rewrite orb_true_r].
  destruct (falsy (Some a)) eqn:Hfa; [done|].
  destruct (falsy (Some f)) eqn:Hff; [done|]. simpl.
  intros [= <- <-]. simpl.
  apply falsy_Some in Hft, Hfa, Hff. apply String.eqb_eq in Hp, Hhost.
  apply bool_decide_eq_false in Hh.
  repeat split; try done. exists s, u. repeat split; try done. congruence.
Qed.

Lemma parse_returns_checked_args_witness :
  targetDir {| targetDir := "out"; addonId := "1"; fileId := "2" |} ≠ ""
  ∧ addonId {| targetDir := "out"; addonId := "1"; fileId := "2" |} ≠ ""
  ∧ fileId {| targetDir := "out"; addonId := "1"; fileId := "2" |} ≠ "".
Proof.
  pose proof (parse_returns_checked_args Sample.env
                ["node"; "index.js"; "curseforge://install?addonId=1&fileId=2"; "out"]
                empty_world empty_world
                {| targetDir := "out"; addonId := "1"; fileId := "2" |} eq_refl)
    as (_ & _ & H1 & H2 & H3 & _).
  exact (conj H1 (conj H2 H3)).
Defined.

(** X3. When argument parsing throws (the URL parser rejects the
    string, the scheme or host is wrong, or an identifier is missing or
    empty), neither build requests anything or touches the filesystem;
    [IndexTs] catches the error, hands it to [console.error], whose
    output is the one chunk added to standard error, and ends normally;
    [Part000] ends with the error uncaught. *)
Theorem parse_error_ends_run (env : Env) (argv : list string) (sched : list nat)
    (w w' : World) (e : error) :
  parseCommandLineArgs env argv w = (Throw e, w') →
  fst (main IndexTs env argv sched w) = Return ()
  ∧ fs (snd (main IndexTs env argv sched w)) = fs w
  ∧ requests (snd (main IndexTs env argv sched w)) = requests w
  ∧ stderr (snd (main IndexTs env argv sched w)) = stderr w ++ [console_error env e]
  ∧ main Part000 env argv sched w = (Crash e, w).
Proof.
  intros Hp.
  assert (w' = w) as ->.
  { destruct (parseCommandLineArgs_world env argv w) as [H|H]; rewrite Hp in H;
      [done | discriminate]. }
  unfold main, steps. by rewrite Hp.
Qed.

Lemma parse_error_ends_run_witness :
  stderr (snd (main IndexTs Sample.env
                 ["node"; "index.js"; "curseforge://other?addonId=1&fileId=2"; "out"]
                 [] empty_world))
  = [console_error Sample.env (Error "bad url")]
  ∧ main Part000 Sample.env
      ["node"; "index.js"; "curseforge://other?addonId=1&fileId=2"; "out"] [] empty_world
    = (Crash (Error "bad url"), empty_world).
Proof.
  pose proof (parse_error_ends_run Sample.env
                ["node"; "index.js"; "curseforge://other?addonId=1&fileId=2"; "out"] []
                empty_world empty_world (Error "bad url") eq_refl)
    as (_ & _ & _ & H1 & H2).
  exact (conj H1 H2).
Defined.

(** ** The download phase: logs, empty manifests, failures *)

(** Starting a task and freeing a slot change nothing but the tasks, the
    limiter and the log of requests. *)
Lemma start_keeps (files : list ManifestFile) (j : nat) (s : Download) :
  fs (world (start files j s)) = fs (world s)
  ∧ stderr (world (start files j s)) = stderr (world s)
  ∧ downloadedCount (start files j s) = downloadedCount s
  ∧ rejected (start files j s) = rejected s
  ∧ crashed (start files j s) = crashed s.
Proof. unfold start. by destruct (files !! j). Qed.

Lemma settle_keeps (files : list ManifestFile) (s : Download) :
  fs (world (settle files s)) = fs (world s)
  ∧ stderr (world (settle files s)) = stderr (world s)
  ∧ downloadedCount (settle files s) = downloadedCount s
  ∧ rejected (settle files s) = rejected s
  ∧ crashed (settle files s) = crashed s.
Proof.
  unfold settle. destruct (limiter s) as [l|]; [|done].
  destruct (Limit.release l) as [l' [j|]]; [|done].
  match goal with |- context [start files j ?s0] =>
    destruct (start_keeps files j s0) as (-> & -> & -> & -> & ->) end.
  done.
Qed.

(** With an empty manifest, [downloadMods] returns at once in both
    builds, whatever the schedule: it has created [<target>/mods], written
    the line "Downloading 0 files..." and requested nothing. *)
Lemma downloadMods_empty_manifest (b : build) (env : Env) (modpack : Zip.JSZip)
    (targetDir : string) (sched : list nat) (w : World) (f1 : gmap string node)
    (manifestData : Zip.ZipObject) (manifest : ModpackManifest) :
  Fs.mkdir_recursive (Path.join [targetDir; "mods"]) (fs w) = inr f1 →
  Zip.file "manifest.json" modpack = Some manifestData →
  json_manifest env (Zip.data manifestData) = Some manifest →
  files manifest = [] →
  downloadMods b env modpack targetDir sched w
  = (Return (), write_stderr (downloading_line 0) (set_fs f1 w))
  ∧ requests (snd (downloadMods b env modpack targetDir sched w)) = requests w.
Proof.
  intros Hmk Hf Hj Hnil.
  assert (downloadMods b env modpack targetDir sched w
          = (Return (), write_stderr (downloading_line 0) (set_fs f1 w))) as ->; [|done].
  unfold downloadMods. rewrite Hmk, Hf, Hj, Hnil. simpl.
  by destruct sched, b.
Qed.

(** X5. [downloadMods] returns normally only if every entry of the
    manifest was resolved and its body fetched: one failed metadata or
    file request makes the whole phase fail, in both builds and whatever
    the order in which the tasks complete. *)
Theorem download_success_needs_every_file (b : build) (env : Env) (modpack : Zip.JSZip)
    (targetDir : string) (sched : list nat) (w w' : World)
    (manifestData : Zip.ZipObject) (manifest : ModpackManifest) :
  Zip.file "manifest.json" modpack = Some manifestData →
  json_manifest env (Zip.data manifestData) = Some manifest →
  downloadMods b env modpack targetDir sched w = (Return (), w') →
  Forall (λ f, ∃ m body,
            http_json env (api_url (projectID f) (fileID f)) = Some m
            ∧ http_body env (downloadUrl m) = Some body
            ∧ Fs.is_file (fs w') (Fs.key (mod_path targetDir m)) = true)
    (files manifest).
Proof.
  intros Hf Hj Hdl.
  apply downloadMods_ok in Hdl as (f1 & md & m & s & rest & Hmk & Hf' & Hj' & Haw & ->).
  assert (md = manifestData) as -> by congruence.
  assert (m = manifest) as -> by congruence.
  apply await_all_exec in Haw as (pre & _ & -> & [?|Hst]); [done|].
  apply status_AllDone in Hst as (Hall & _).
  match goal with |- context [launch _ b ?w0] =>
    destruct (reachable b env targetDir (files manifest) pre w0)
      as ([Hlen _ _ _ _] & [Hinfo _ Hdone Hfiles] & _)
  end.
  apply Forall_lookup. intros i f Hi.
  destruct (lookup_lt_is_Some_2 (tasks (exec env targetDir (files manifest) pre
              (launch (files manifest) b
                 (write_stderr (downloading_line (length (files manifest)))
                    (set_fs f1 w))))) i) as [p Hp].
  { rewrite Hlen. by eapply lookup_lt_Some. }
  destruct (all_done_lookup _ _ _ Hall Hp) as [m ->].
  destruct (Hinfo i _ m Hp eq_refl) as (f' & Hf'' & Hjson).
  assert (f' = f) as -> by congruence.
  destruct (Hdone i m Hp) as [body Hb].
  exists m, body. repeat split; try done.
  apply Hfiles. right. by exists i, (Done m), m.
Qed.

Lemma download_success_needs_every_file_witness :
  Forall (λ f, ∃ m body,
            http_json Sample.env (api_url (projectID f) (fileID f))
            = Some m
            ∧ http_body Sample.env (downloadUrl m) = Some body
            ∧ Fs.is_file
                (fs (snd (downloadMods Part000 Sample.env (Sample.pack_of "m12,34") "out"
                            [1; 0; 1; 0; 0; 1] empty_world)))
                (Fs.key (mod_path "out" m)) = true)
    [Sample.entry12; Sample.entry34].
Proof.
  apply (download_success_needs_every_file Part000 Sample.env (Sample.pack_of "m12,34")
           "out" [1; 0; 1; 0; 0; 1] empty_world
           (snd (downloadMods Part000 Sample.env (Sample.pack_of "m12,34") "out"
                   [1; 0; 1; 0; 0; 1] empty_world))
           (snd (Sample.file_entry "manifest.json" (Sample.text "m12,34")))
           {| files := [Sample.entry12; Sample.entry34] |}).
  - reflexivity.
  - reflexivity.
  - vm_compute. reflexivity.
Defined.

(** A failed request, seen from the other side: this manifest's second
    entry has no metadata, and the phase fails. *)
Example download_fails_on_one_missing_entry :
  fst (downloadMods IndexTs
         (Sample.with_reply
            (λ url, if String.eqb url (api_url "1" "2") then Reply Sample.infoA
                    else NoReply))
         (Sample.pack_of "m12,34") "out" [0; 1; 0; 0] empty_world)
  = Throw (FetchError (api_url "3" "4")).
Proof. vm_compute. reflexivity. Qed.

(** The same with the reply [null] for the second entry: reading
    [modInfo.downloadUrl] throws. *)
Example download_fails_on_null_reply :
  fst (downloadMods IndexTs
         (Sample.with_reply
            (λ url, if String.eqb url (api_url "1" "2") then Reply Sample.infoA
                    else NullReply))
         (Sample.pack_of "m12,34") "out" [0; 1; 0; 0] empty_world)
  = Throw (TypeError "Cannot read properties of null (reading 'downloadUrl')").
Proof. vm_compute. reflexivity. Qed.

(** ** Nothing is ever removed *)

Lemma fs_grows_refl (f : gmap string node) : fs_grows f f.
Proof. intros k n H. by exists n. Qed.

Lemma fs_grows_trans (f g h : gmap string node) :
  fs_grows f g → fs_grows g h → fs_grows f h.
Proof.
  intros H1 H2 k n Hk. destruct (H1 k n Hk) as (n1 & Hk1 & E1).
  destruct (H2 k n1 Hk1) as (n2 & Hk2 & E2). exists n2. split; [done|]. congruence.
Qed.

Lemma fs_grows_is_file (f f' : gmap string node) (k : string) :
  fs_grows f f' → Fs.is_file f k = true → Fs.is_file f' k = true.
Proof.
  intros H. unfold Fs.is_file. destruct (f !! k) as [n|] eqn:Hk; [|done].
  destruct (H k n Hk) as (n' & -> & ->). done.
Qed.

Lemma fs_grows_is_dir (f f' : gmap string node) (k : string) :
  fs_grows f f' → Fs.is_dir f k = true → Fs.is_dir f' k = true.
Proof.
  intros H. unfold Fs.is_dir. destruct (Fs.is_root k); [done|]. cbn [orb].
  destruct (f !! k) as [[|c]|] eqn:Hk; try done.
  destruct (H k Dir Hk) as ([|c] & -> & E); done.
Qed.

Lemma mkdir_recursive_grows (p : string) (f f1 : gmap string node) :
  Fs.mkdir_recursive p f = inr f1 → fs_grows f f1.
Proof.
  unfold Fs.mkdir_recursive.
  destruct (existsb _ _) eqn:Hex; [discriminate|]. intros [= <-] k n Hk.
  rewrite make_dirs_lookup. destruct (decide _) as [Hin|]; [|by exists n].
  exists Dir. split; [done|].
  pose proof (existsb_false_elem _ _ _ Hex Hin) as Hf. unfold Fs.is_file in Hf.
  rewrite Hk in Hf. by destruct n.
Qed.

Lemma insert_file_grows (f : gmap string node) (k : string) (c : bytes) :
  f !! k ≠ Some Dir → fs_grows f (<[k:=File c]> f).
Proof.
  intros Hd k' n Hk'. destruct (decide (k = k')) as [->|Hne].
  - rewrite lookup_insert_eq. exists (File c). split; [done|].
    destruct n; [done|]. done.
  - rewrite lookup_insert_ne by done. by exists n.
Qed.

Lemma open_write_grows (p : string) (f f' : gmap string node) :
  Fs.open_write p f = inr f' → fs_grows f f'.
Proof.
  unfold Fs.open_write. destruct (Path.has_trailing_slash p); [done|]. simpl.
  destruct (Fs.is_dir f (Fs.key p)) eqn:Hd; [done|].
  destruct (Fs.is_dir f (Path.dirname _)); [|done]. intros [= <-].
  apply insert_file_grows. intros Hk. unfold Fs.is_dir in Hd. rewrite Hk in Hd.
  by destruct (Fs.is_root _).
Qed.

Lemma is_file_not_dir (f : gmap string node) (k : string) :
  Fs.is_file f k = true → f !! k ≠ Some Dir.
Proof. unfold Fs.is_file. intros H Hk. by rewrite Hk in H. Qed.

(** One step of the download phase removes nothing. *)
Lemma step_grows (env : Env) (targetDir : string) (files : list ManifestFile)
    (f0 : gmap string node) (i : nat) (s s' : Download) :
  fs_inv env targetDir files f0 s →
  step env targetDir files i s s' →
  fs_grows (fs (world s)) (fs (world s')).
Proof.
  intros [_ _ _ Hfiles]
    [f m Hi Hf Hj | f Hi Hf Hj | m body f' Hi Hb Hn Ho
    | m body e Hi Hb Hn Ho | m body message Hi Hb Hn | m Hi Hb | m body Hi].
  - apply fs_grows_refl.
  - unfold fail.
    match goal with |- context [settle files ?s1] =>
      destruct (settle_keeps files s1) as (-> & _) end. apply fs_grows_refl.
  - by apply open_write_grows in Ho.
  - apply fs_grows_refl.
  - unfold fail.
    match goal with |- context [settle files ?s1] =>
      destruct (settle_keeps files s1) as (-> & _) end. apply fs_grows_refl.
  - unfold fail.
    match goal with |- context [settle files ?s1] =>
      destruct (settle_keeps files s1) as (-> & _) end. apply fs_grows_refl.
  - unfold finished.
    match goal with |- context [settle files ?s1] =>
      destruct (settle_keeps files s1) as (-> & _) end.
    simpl. unfold Fs.finish_write. apply insert_file_grows, is_file_not_dir.
    apply Hfiles. right. by exists i, (Piping m body), m.
Qed.

Lemma exec_snoc (env : Env) (targetDir : string) (files : list ManifestFile)
    (sched : list nat) (i : nat) (s : Download) :
  exec env targetDir files (sched ++ [i]) s
  = default (exec env targetDir files sched s)
      (resume env targetDir files i (exec env targetDir files sched s)).
Proof. unfold exec. by rewrite foldl_app. Qed.

Lemma exec_grows (b : build) (env : Env) (targetDir : string)
    (files : list ManifestFile) (sched : list nat) (w : World) :
  fs_grows (fs w) (fs (world (exec env targetDir files sched (launch files b w)))).
Proof.
  induction sched as [|i sched IH] using rev_ind.
  - destruct (launch_fresh files b w) as [Hfs _]. simpl. rewrite Hfs.
    apply fs_grows_refl.
  - rewrite exec_snoc.
    destruct (reachable b env targetDir files sched w) as (_ & Hfi & _).
    destruct (resume _ _ _ i _) as [s'|] eqn:Hr; [|done]. simpl.
    apply resume_step in Hr as [_ Hstep].
    eapply fs_grows_trans; [exact IH|]. by eapply step_grows.
Qed.

(** A value that is not a manifest leaves the filesystem as it is. *)
Lemma malformed_manifest_fs (b : build) (j : manifest_json) (w : World) :
  fs (snd (malformed_manifest b j w)) = fs w.
Proof.
  destruct j as [| | |entries message]; try done. simpl.
  match goal with |- context [launch ?fl b ?w0] =>
    by destruct (launch_fresh fl b w0) as [-> _] end.
Qed.

Lemma downloadMods_grows (b : build) (env : Env) (modpack : Zip.JSZip)
    (targetDir : string) (sched : list nat) (w : World) :
  fs_grows (fs w) (fs (snd (downloadMods b env modpack targetDir sched w))).
Proof.
  unfold downloadMods.
  destruct (Fs.mkdir_recursive _ _) as [e|f1] eqn:Hmk; [apply fs_grows_refl|].
  apply mkdir_recursive_grows in Hmk.
  destruct (Zip.file _ _) as [manifestData|]; [|done].
  destruct (json_manifest _ _) as [manifest|]; [|by rewrite malformed_manifest_fs].
  destruct (await_all _ _ _ _ _) as [[r s] rest] eqn:Haw. simpl.
  apply await_all_exec in Haw as (pre & _ & -> & _).
  eapply fs_grows_trans; [exact Hmk|].
  match goal with |- context [launch ?fl b ?w0] =>
    exact (exec_grows b env targetDir fl pre w0) end.
Qed.

Lemma extract_file_grows (targetDir path : string) (fileData : Zip.ZipObject)
    (w : World) :
  fs_grows (fs w) (fs (snd (extract_file targetDir path fileData w))).
Proof.
  unfold extract_file.
  destruct (Fs.mkdir_recursive _ _) as [e|f1] eqn:Hmk; [apply fs_grows_refl|].
  apply mkdir_recursive_grows in Hmk.
  destruct (Fs.open_write _ _) as [e|f2] eqn:Ho; [done|]. simpl.
  eapply fs_grows_trans; [exact Hmk|].
  pose proof (open_write_grows _ _ _ Ho) as Hg.
  eapply fs_grows_trans; [exact Hg|].
  apply open_write_ok in Ho as ->. unfold Fs.finish_write.
  apply insert_file_grows. by rewrite lookup_insert_eq.
Qed.

Lemma extract_dir_grows (targetDir path : string) (w : World) :
  fs_grows (fs w) (fs (snd (extract_dir targetDir path w))).
Proof.
  unfold extract_dir.
  destruct (Fs.mkdir_recursive _ _) as [e|f1] eqn:Hmk; [apply fs_grows_refl|].
  by apply mkdir_recursive_grows in Hmk.
Qed.

Lemma extract_entry_grows (b : build) (targetDir : string)
    (entry : string * Zip.ZipObject) (w : World) :
  fs_grows (fs w) (fs (snd (extract_entry b targetDir entry w))).
Proof.
  destruct entry as [path o]. unfold extract_entry.
  destruct b; [destruct (Zip.dir o)|];
    auto using extract_dir_grows, extract_file_grows.
Qed.

Lemma extract_all_grows (b : build) (targetDir : string)
    (entries : list (string * Zip.ZipObject)) (w : World) :
  fs_grows (fs w) (fs (snd (extract_all b targetDir entries w))).
Proof.
  revert w. induction entries as [|entry entries IH]; intros w;
    [apply fs_grows_refl|].
  cbn [extract_all]. pose proof (extract_entry_grows b targetDir entry w) as H1.
  destruct (extract_entry b targetDir entry w) as [[[]| | | |] w1]; try done.
  eapply fs_grows_trans; [exact H1|]. apply IH.
Qed.

Lemma install_grows (b : build) (env : Env) (modpack : Zip.JSZip)
    (targetDir : string) (sched : list nat) (w : World) :
  fs_grows (fs w) (fs (snd (install b env modpack targetDir sched w))).
Proof.
  unfold install. pose proof (downloadMods_grows b env modpack targetDir sched w) as H1.
  destruct (downloadMods b env modpack targetDir sched w) as [[[]| | | |] w1]; try done.
  simpl in H1.
  assert (H2 : fs_grows (fs w1) (fs (snd (expandOverrides b modpack targetDir w1)))).
  { unfold expandOverrides. destruct (Zip.folder _ _) as [o|]; [|apply fs_grows_refl].
    apply (extract_all_grows b targetDir (Zip.forEach o)
             (write_stderr "Expanding overrides..." w1)). }
  destruct (expandOverrides b modpack targetDir w1) as [[[]| | | |] w2];
    by eapply fs_grows_trans.
Qed.

(** X6. The program never removes anything: however a run ends (normally,
    with an error, or stuck), in both builds and under every schedule,
    every path that named a file before the run names a file after it,
    and every path that named a directory names a directory. *)
Theorem run_removes_nothing (b : build) (env : Env) (argv : list string)
    (sched : list nat) (w : World) (k : string) :
  (Fs.is_file (fs w) k = true
   → Fs.is_file (fs (snd (main b env argv sched w))) k = true)
  ∧ (Fs.is_dir (fs w) k = true
     → Fs.is_dir (fs (snd (main b env argv sched w))) k = true).
Proof.
  assert (H : fs_grows (fs w) (fs (snd (main b env argv sched w)))).
  { assert (Hs : fs_grows (fs w) (fs (snd (steps b env argv sched w)))).
    { unfold steps.
      destruct (parseCommandLineArgs_world env argv w) as [Hw|Hw];
        [|rewrite Hw; apply fs_grows_refl].
      destruct (parseCommandLineArgs env argv w) as [[args| | | |] w0]; simpl in Hw;
        subst w0; try apply fs_grows_refl.
      unfold fetchModFileInfo.
      destruct (reply env _) as [| |info]; [apply fs_grows_refl | apply fs_grows_refl |].
      unfold downloadModpack. destruct (http_body env _) as [buffer|]; [|apply fs_grows_refl].
      destruct (loadAsync env buffer) as [zip|]; [|apply fs_grows_refl].
      match goal with |- context [install b env zip ?t sched ?w1] =>
        exact (install_grows b env zip t sched w1) end. }
    unfold main. destruct (steps b env argv sched w) as [[[]| | | |] w1]; destruct b; done. }
  split; [by apply fs_grows_is_file | by apply fs_grows_is_dir].
Qed.

(** ** The extraction phase: log, contents, directories *)

Lemma wf_file_entry (targetDir path : string) (o : Zip.ZipObject) (w w' : World) :
  (Zip.dir o = true → Path.has_trailing_slash path = true) →
  extract_file targetDir path o w = (Return (), w') → Zip.dir o = false.
Proof.
  intros Hd Hf. apply extract_file_ok in Hf as [Hs _].
  destruct (Zip.dir o); [|done]. rewrite Hd in Hs; done.
Qed.

(** A successful iteration of the loop is the file branch on a file
    entry, or (in [IndexTs]) the directory branch on a directory entry. *)
Lemma extract_entry_cases (b : build) (targetDir path : string) (o : Zip.ZipObject)
    (w w' : World) :
  (Zip.dir o = true → Path.has_trailing_slash path = true) →
  extract_entry b targetDir (path, o) w = (Return (), w') →
  (Zip.dir o = false ∧ extract_file targetDir path o w = (Return (), w'))
  ∨ (Zip.dir o = true ∧ b = IndexTs ∧ extract_dir targetDir path w = (Return (), w')).
Proof.
  intros Hd. unfold extract_entry. destruct b.
  - destruct (Zip.dir o) eqn:E; auto.
  - intros Hf. left. split; [|done]. by eapply wf_file_entry.
Qed.

Lemma extract_file_log (targetDir path : string) (o : Zip.ZipObject) (w w' : World) :
  extract_file targetDir path o w = (Return (), w') →
  stderr w' = stderr w ++ [entry_line (path, o)] ∧ requests w' = requests w.
Proof.
  unfold extract_file. destruct (Fs.mkdir_recursive _ _); [done|].
  destruct (Fs.open_write _ _); [done|]. by intros [= <-].
Qed.

Lemma extract_dir_log (targetDir path : string) (w w' : World) :
  extract_dir targetDir path w = (Return (), w') →
  stderr w' = stderr w ∧ requests w' = requests w.
Proof.
  unfold extract_dir. destruct (Fs.mkdir_recursive _ _); [done|]. by intros [= <-].
Qed.

Lemma extract_all_log (b : build) (targetDir : string)
    (entries : list (string * Zip.ZipObject)) (w w' : World) :
  Forall (λ e, Zip.dir e.2 = true → Path.has_trailing_slash e.1 = true) entries →
  extract_all b targetDir entries w = (Return (), w') →
  stderr w' = stderr w ++ (entry_line <$> List.filter is_file_entry entries)
  ∧ requests w' = requests w.
Proof.
  intros Hwf. revert w. induction Hwf as [|[path o] entries Hd _ IH]; intros w.
  - simpl. intros [= <-]. by rewrite app_nil_r.
  - cbn [extract_all].
    destruct (extract_entry b targetDir (path, o) w) as [[[]| | | |] w1] eqn:He;
      try done.
    intros Hrest. destruct (IH w1 Hrest) as [-> ->]. cbn [List.filter].
    change (is_file_entry (path, o)) with (negb (Zip.dir o)).
    simpl in Hd.
    apply (extract_entry_cases _ _ _ _ _ _ Hd) in He as [[-> Hf]|(-> & _ & Hf)];
      cbn [negb].
    + apply extract_file_log in Hf as [-> ->]. by rewrite fmap_cons, <- app_assoc.
    + by apply extract_dir_log in Hf as [-> ->].
Qed.

(** X7. What a successful [expandOverrides] writes to standard error:
    the chunk "Expanding overrides..." (with no line break after it) and
    then one line per file entry of [overrides/], in the order of the
    archive; directory entries are not reported.  It requests nothing. *)
Theorem expandOverrides_log (b : build) (modpack : Zip.JSZip) (targetDir : string)
    (w w' : World) :
  wf_archive modpack →
  expandOverrides b modpack targetDir w = (Return (), w') →
  stderr w' = stderr w ++ "Expanding overrides..." :: (entry_line <$> file_entries modpack)
  ∧ requests w' = requests w.
Proof.
  intros Hwf Hex. pose proof (override_entries_wf modpack Hwf) as Hent.
  unfold file_entries. unfold expandOverrides in Hex. unfold override_entries in *.
  destruct (Zip.folder "overrides" modpack) as [o|]; [|done].
  apply (extract_all_log _ _ _ _ _ Hent) in Hex as [-> ->]. simpl.
  by rewrite <- app_assoc.
Qed.

Lemma expandOverrides_log_witness :
  stderr (snd (expandOverrides IndexTs Sample.pack_dirs "out" empty_world))
  = "Expanding overrides..." :: (entry_line <$> file_entries Sample.pack_dirs).
Proof.
  apply (proj1 (expandOverrides_log IndexTs Sample.pack_dirs "out" empty_world
                  (snd (expandOverrides IndexTs Sample.pack_dirs "out" empty_world))
                  ltac:(unfold wf_archive; repeat constructor; done)
                  ltac:(vm_compute; reflexivity))).
Defined.

(** [mkdir] leaves the files and their contents alone. *)
Lemma mkdir_recursive_content (p : string) (f f1 : gmap string node)
    (k : string) (c : bytes) :
  Fs.mkdir_recursive p f = inr f1 → f !! k = Some (File c) → f1 !! k = Some (File c).
Proof.
  unfold Fs.mkdir_recursive.
  destruct (existsb _ _) eqn:Hex; [discriminate|]. intros [= <-] Hk.
  rewrite make_dirs_lookup. destruct (decide _) as [Hin|]; [|done].
  pose proof (existsb_false_elem _ _ _ Hex Hin) as Hf. unfold Fs.is_file in Hf.
  by rewrite Hk in Hf.
Qed.

Lemma extract_file_content (targetDir path : string) (o : Zip.ZipObject)
    (w w' : World) :
  extract_file targetDir path o w = (Return (), w') →
  fs w' !! override_key targetDir (path, o) = Some (File (Zip.data o))
  ∧ ∀ k c, k ≠ override_key targetDir (path, o) →
           fs w !! k = Some (File c) → fs w' !! k = Some (File c).
Proof.
  unfold extract_file.
  destruct (Fs.mkdir_recursive _ _) as [e|f1] eqn:Hmk; [done|].
  destruct (Fs.open_write _ _) as [e|f2] eqn:Ho; [done|]. intros [= <-].
  apply open_write_ok in Ho as ->. simpl. unfold Fs.finish_write, override_key. simpl.
  split; [by rewrite lookup_insert_eq|]. intros k c Hne Hk.
  rewrite !lookup_insert_ne by done. by eapply mkdir_recursive_content.
Qed.

Lemma extract_dir_content (targetDir path : string) (w w' : World)
    (k : string) (c : bytes) :
  extract_dir targetDir path w = (Return (), w') →
  fs w !! k = Some (File c) → fs w' !! k = Some (File c).
Proof.
  unfold extract_dir.
  destruct (Fs.mkdir_recursive _ _) as [e|f1] eqn:Hmk; [done|]. intros [= <-].
  simpl. by eapply mkdir_recursive_content.
Qed.

(** A file whose path no file entry resolves to keeps its content. *)
Lemma extract_all_keeps (b : build) (targetDir : string)
    (entries : list (string * Zip.ZipObject)) (w w' : World) (k : string) (c : bytes) :
  Forall (λ e, Zip.dir e.2 = true → Path.has_trailing_slash e.1 = true) entries →
  extract_all b targetDir entries w = (Return (), w') →
  k ∉ (override_key targetDir <$> List.filter is_file_entry entries) →
  fs w !! k = Some (File c) → fs w' !! k = Some (File c).
Proof.
  intros Hwf. revert w. induction Hwf as [|[path o] entries Hd _ IH]; intros w.
  - simpl. by intros [= <-].
  - cbn [extract_all].
    destruct (extract_entry b targetDir (path, o) w) as [[[]| | | |] w1] eqn:He;
      try done.
    intros Hrest. cbn [List.filter].
    change (is_file_entry (path, o)) with (negb (Zip.dir o)).
    simpl in Hd.
    apply (extract_entry_cases _ _ _ _ _ _ Hd) in He as [[-> Hf]|(-> & _ & Hf)];
      cbn [negb].
    + rewrite fmap_cons, not_elem_of_cons. intros [Hne Hnin] Hk.
      apply (IH w1 Hrest Hnin). by apply (extract_file_content _ _ _ _ _ Hf).
    + intros Hnin Hk. apply (IH w1 Hrest Hnin). by eapply extract_dir_content.
Qed.

Lemma extract_all_last (b : build) (targetDir : string)
    (entries : list (string * Zip.ZipObject)) (w w' : World)
    (pre post : list (string * Zip.ZipObject)) (e : string * Zip.ZipObject) :
  Forall (λ e, Zip.dir e.2 = true → Path.has_trailing_slash e.1 = true) entries →
  extract_all b targetDir entries w = (Return (), w') →
  List.filter is_file_entry entries = pre ++ e :: post →
  override_key targetDir e ∉ (override_key targetDir <$> post) →
  fs w' !! override_key targetDir e = Some (File (Zip.data e.2)).
Proof.
  intros Hwf. revert w pre. induction Hwf as [|[path o] entries Hd Hwf IH]; intros w pre.
  - simpl. intros _ Hnil. by destruct pre.
  - cbn [extract_all].
    destruct (extract_entry b targetDir (path, o) w) as [[[]| | | |] w1] eqn:He;
      try done.
    intros Hrest. cbn [List.filter].
    change (is_file_entry (path, o)) with (negb (Zip.dir o)).
    simpl in Hd.
    apply (extract_entry_cases _ _ _ _ _ _ Hd) in He as [[-> Hf]|(-> & _ & Hf)];
      cbn [negb].
    + destruct pre as [|e0 pre]; simpl.
      * intros [= <- Hpost] Hnin. rewrite <- Hpost in Hnin.
        apply (extract_all_keeps b targetDir entries w1 w' _ _ Hwf Hrest Hnin).
        by apply extract_file_content in Hf as [? _].
      * intros [= _ Hfil]. by apply (IH w1 pre).
    + by apply (IH w1 pre).
Qed.

(** X8. After a successful [expandOverrides], the file a file entry of
    [overrides/] is extracted to holds that entry's data, unless a later
    file entry resolves to the same path: of the entries that share a
    path the last one wins. *)
Theorem override_contents (b : build) (modpack : Zip.JSZip) (targetDir : string)
    (w w' : World) (i : nat) (e : string * Zip.ZipObject) :
  wf_archive modpack →
  expandOverrides b modpack targetDir w = (Return (), w') →
  file_entries modpack !! i = Some e →
  (∀ j e', i < j → file_entries modpack !! j = Some e' →
           override_key targetDir e' ≠ override_key targetDir e) →
  fs w' !! override_key targetDir e = Some (File (Zip.data e.2)).
Proof.
  intros Hwf Hex Hi Hlater. pose proof (override_entries_wf modpack Hwf) as Hent.
  unfold file_entries in *. unfold expandOverrides in Hex. unfold override_entries in *.
  destruct (Zip.folder "overrides" modpack) as [o|]; [|done].
  eapply (extract_all_last b targetDir (Zip.forEach o) _ w'
            (take i (List.filter is_file_entry (Zip.forEach o)))
            (drop (S i) (List.filter is_file_entry (Zip.forEach o))) e Hent Hex).
  - by rewrite take_drop_middle.
  - intros (e' & Heq & Hin)%list_elem_of_fmap.
    apply list_elem_of_lookup in Hin as [j Hj]. rewrite lookup_drop in Hj.
    apply (Hlater (S i + j) e'); [lia | done | done].
Qed.

Lemma override_contents_witness :
  fs (snd (expandOverrides Part000 Sample.pack "out" empty_world))
    !! override_key "out"
         ("options.txt", snd (Sample.file_entry "overrides/options.txt" (Sample.text "opt")))
  = Some (File (Sample.text "opt")).
Proof.
  apply (override_contents Part000 Sample.pack "out" empty_world
           (snd (expandOverrides Part000 Sample.pack "out" empty_world)) 0
           ("options.txt",
            snd (Sample.file_entry "overrides/options.txt" (Sample.text "opt")))).
  - unfold wf_archive. repeat constructor; done.
  - vm_compute. reflexivity.
  - vm_compute. reflexivity.
  - intros [|[|[|j]]] e' Hlt Hj; try lia; try done.
    injection Hj as <-. vm_compute. done.
Defined.

Lemma extract_entry_dir (b : build) (targetDir path : string) (o : Zip.ZipObject)
    (w w' : World) :
  (Zip.dir o = true → Path.has_trailing_slash path = true) →
  extract_entry b targetDir (path, o) w = (Return (), w') →
  Fs.is_dir (fs w')
    (Fs.key (Path.join [targetDir; if Zip.dir o then path else Path.dirname path]))
  = true.
Proof.
  intros Hd He.
  apply (extract_entry_cases _ _ _ _ _ _ Hd) in He as [[-> Hf]|(-> & _ & Hf)].
  - unfold extract_file in Hf.
    destruct (Fs.mkdir_recursive _ _) as [e|f1] eqn:Hmk; [done|].
    destruct (Fs.open_write _ _) as [e|f2] eqn:Ho; [done|]. injection Hf as <-.
    apply mkdir_recursive_ok in Hmk as [Hdir _]. simpl.
    pose proof (open_write_grows _ _ _ Ho) as Hg.
    apply open_write_ok in Ho as ->. unfold Fs.finish_write.
    eapply fs_grows_is_dir; [|apply (fs_grows_is_dir _ _ _ Hg Hdir)].
    apply insert_file_grows. by rewrite lookup_insert_eq.
  - unfold extract_dir in Hf.
    destruct (Fs.mkdir_recursive _ _) as [e|f1] eqn:Hmk; [done|]. injection Hf as <-.
    by apply mkdir_recursive_ok in Hmk as [Hdir _].
Qed.

Lemma extract_all_dirs (b : build) (targetDir : string)
    (entries : list (string * Zip.ZipObject)) (w w' : World) (e : string * Zip.ZipObject) :
  Forall (λ e, Zip.dir e.2 = true → Path.has_trailing_slash e.1 = true) entries →
  extract_all b targetDir entries w = (Return (), w') →
  e ∈ entries →
  Fs.is_dir (fs w')
    (Fs.key (Path.join [targetDir; if Zip.dir e.2 then e.1 else Path.dirname e.1]))
  = true.
Proof.
  intros Hwf. revert w. induction Hwf as [|[path o] entries Hd _ IH]; intros w.
  - by intros _ ?%elem_of_nil.
  - cbn [extract_all].
    destruct (extract_entry b targetDir (path, o) w) as [[[]| | | |] w1] eqn:He;
      try done.
    intros Hrest [->|Hin]%elem_of_cons; [|by apply (IH w1)].
    simpl in Hd. pose proof (extract_entry_dir _ _ _ _ _ _ Hd He) as Hdir.
    pose proof (extract_all_grows b targetDir entries w1) as Hg. rewrite Hrest in Hg.
    by apply (fs_grows_is_dir _ _ _ Hg).
Qed.

(** X9. After a successful [expandOverrides] every directory the
    archive's [overrides/] calls for exists below the target: the path
    of each directory entry ([src/index.ts] creates it; the other build
    does not get this far when there is one) and the parent directory
    of each file entry. *)
Theorem override_directories (b : build) (modpack : Zip.JSZip) (targetDir : string)
    (w w' : World) (e : string * Zip.ZipObject) :
  wf_archive modpack →
  expandOverrides b modpack targetDir w = (Return (), w') →
  e ∈ override_entries modpack →
  Fs.is_dir (fs w')
    (Fs.key (Path.join [targetDir; if Zip.dir e.2 then e.1 else Path.dirname e.1]))
  = true.
Proof.
  intros Hwf Hex Hin. pose proof (override_entries_wf modpack Hwf) as Hent.
  unfold expandOverrides in Hex. unfold override_entries in *.
  destruct (Zip.folder "overrides" modpack) as [o|]; [|done].
  by eapply extract_all_dirs.
Qed.

Lemma override_directories_witness :
  Fs.is_dir (fs (snd (expandOverrides IndexTs Sample.pack_dirs "out" empty_world)))
    "out/saves"
  = true.
Proof.
  apply (override_directories IndexTs Sample.pack_dirs "out" empty_world
           (snd (expandOverrides IndexTs Sample.pack_dirs "out" empty_world))
           ("saves/", snd (Sample.dir_entry "overrides/saves/"))).
  - unfold wf_archive. repeat constructor; done.
  - vm_compute. reflexivity.
  - vm_compute. do 2 apply list_elem_of_further. apply list_elem_of_here.
Defined.

(** ** The contents of the downloaded files *)

(** X10. After a successful run in which no two manifest entries resolve
    to the same path, the file of every manifest entry holds exactly the
    body that was served for it, unless a file entry of [overrides/] is
    extracted to the same path (the extraction runs second). *)
Theorem mods_hold_bodies (b : build) (env : Env) (modpack : Zip.JSZip)
    (targetDir : string) (sched : list nat) (w w' : World)
    (manifestData : Zip.ZipObject) (manifest : ModpackManifest)
    (f : ManifestFile) (m : ModFileInfo) :
  wf_archive modpack →
  Zip.file "manifest.json" modpack = Some manifestData →
  json_manifest env (Zip.data manifestData) = Some manifest →
  distinct_paths env targetDir (files manifest) →
  install b env modpack targetDir sched w = (Return (), w') →
  f ∈ files manifest →
  http_json env (api_url (projectID f) (fileID f)) = Some m →
  Fs.key (mod_path targetDir m) ∉ override_keys targetDir modpack →
  ∃ body, http_body env (downloadUrl m) = Some body
          ∧ fs w' !! Fs.key (mod_path targetDir m) = Some (File body).
Proof.
  intros Hwf Hfile Hjson Hdist Hrun Hin Hm Hnin. unfold install in Hrun.
  destruct (downloadMods _ _ _ _ _ _) as [[[]| | | |] w1] eqn:Hdl; try done.
  destruct (expandOverrides _ _ _ _) as [[[]| | | |] w2] eqn:Hex; try done.
  injection Hrun as <-.
  apply downloadMods_ok in Hdl as (f1 & md & mf & s & rest & Hmk & Hf & Hj & Haw & ->).
  assert (md = manifestData) as -> by congruence.
  assert (mf = manifest) as -> by congruence.
  apply await_all_exec in Haw as (pre & _ & -> & [?|Hst]); [done|].
  apply status_AllDone in Hst as (Hall & _).
  match type of Hex with context [launch _ b ?w0] =>
    destruct (reachable b env targetDir (files manifest) pre w0)
      as ([Hlen _ _ _ _] & [Hinfo _ Hdone _] & Hcont)
  end.
  destruct (Hcont Hdist) as [Hbody _].
  apply list_elem_of_lookup in Hin as [i Hi].
  match type of Hlen with length (tasks ?s0) = _ => set (s := s0) in * end.
  destruct (lookup_lt_is_Some_2 (tasks s) i) as [p Hp].
  { rewrite Hlen. by eapply lookup_lt_Some. }
  destruct (all_done_lookup _ _ _ Hall Hp) as [m' ->].
  destruct (Hinfo i _ m' Hp eq_refl) as (f' & Hf' & Hjs).
  assert (f' = f) as -> by congruence.
  assert (m' = m) as -> by congruence.
  destruct (Hdone i m Hp) as [body Hb]. exists body. split; [done|].
  specialize (Hbody i m body Hp Hb).
  pose proof (override_entries_wf modpack Hwf) as Hent.
  unfold expandOverrides in Hex. unfold override_keys, file_entries, override_entries in *.
  destruct (Zip.folder "overrides" modpack) as [o|]; [|done]. simpl.
  eapply (extract_all_keeps b targetDir (Zip.forEach o) _ w2 _ body Hent Hex Hnin).
  done.
Qed.

Lemma mods_hold_bodies_witness :
  ∃ body, http_body Sample.env (downloadUrl Sample.infoA) = Some body
          ∧ fs (snd (install IndexTs Sample.env Sample.pack_dirs "out" [0; 0; 0] empty_world))
              !! Fs.key (mod_path "out" Sample.infoA)
            = Some (File body).
Proof.
  apply (mods_hold_bodies IndexTs Sample.env Sample.pack_dirs "out" [0; 0; 0] empty_world
           (snd (install IndexTs Sample.env Sample.pack_dirs "out" [0; 0; 0] empty_world))
           (snd (Sample.file_entry "manifest.json" (Sample.text "m12")))
           {| files := [Sample.entry12] |} Sample.entry12 Sample.infoA).
  - unfold wf_archive. repeat constructor; done.
  - reflexivity.
  - reflexivity.
  - intros i j mi mj (fi & Hi & _) (fj & Hj & _) _.
    destruct i as [|i]; [|done]. by destruct j as [|j].
  - vm_compute. reflexivity.
  - apply list_elem_of_singleton. reflexivity.
  - reflexivity.
  - intros Hin. vm_compute in Hin.
    apply elem_of_cons in Hin as [Heq|Hin]; [discriminate Heq|].
    by apply elem_of_nil in Hin.
Defined.

(** ** The download phase: requests and failures *)

Lemma start_requests (env : Env) (files : list ManifestFile) (j : nat) (s : Download) :
  ∃ new, requests (world (start files j s)) = requests (world s) ++ new
         ∧ Forall (expected_request env files) new.
Proof.
  unfold start. destruct (files !! j) as [f|] eqn:Hj.
  - exists [api_url (projectID f) (fileID f)]. split; [done|].
    apply Forall_singleton. exists f. split; [by eapply list_elem_of_lookup_2 | by left].
  - exists []. by rewrite app_nil_r.
Qed.

Lemma settle_requests (env : Env) (files : list ManifestFile) (s : Download) :
  ∃ new, requests (world (settle files s)) = requests (world s) ++ new
         ∧ Forall (expected_request env files) new.
Proof.
  unfold settle. destruct (limiter s) as [l|]; [|exists []; by rewrite app_nil_r].
  destruct (Limit.release l) as [l' [j|]]; [|exists []; by rewrite app_nil_r].
  apply (start_requests env files j (set_limiter (Some l') s)).
Qed.

Lemma launch_requests (env : Env) (files : list ManifestFile) (b : build) (w : World) :
  ∃ new, requests (world (launch files b w)) = requests w ++ new
         ∧ Forall (expected_request env files) new.
Proof.
  unfold launch.
  assert (H0 : ∃ new, requests (world (idle files b w)) = requests w ++ new
                      ∧ Forall (expected_request env files) new).
  { exists []. by rewrite app_nil_r. }
  revert H0. generalize (idle files b w). generalize (seq 0 (length files)). intros l.
  induction l as [|i l IH] using rev_ind; intros s0 H0; [done|].
  rewrite foldl_app. simpl. destruct (IH s0 H0) as (new & Hreq & Hall).
  set (s := foldl (submit files) s0 l) in *.
  assert (Hst : ∀ s1, requests (world s1) = requests (world s) →
            ∃ new, requests (world (start files i s1)) = requests w ++ new
                   ∧ Forall (expected_request env files) new).
  { intros s1 H1. destruct (start_requests env files i s1) as (new' & -> & Hall').
    exists (new ++ new'). rewrite H1, Hreq, app_assoc. split; [done|].
    by apply Forall_app. }
  unfold submit. destruct (limiter s) as [lim|]; [|by apply Hst].
  destruct (Limit.submit i lim) as [lim' []]; [by apply Hst|]. by exists new.
Qed.

Lemma step_requests (env : Env) (targetDir : string) (files : list ManifestFile)
    (i : nat) (s s' : Download) :
  step env targetDir files i s s' →
  ∃ new, requests (world s') = requests (world s) ++ new
         ∧ Forall (expected_request env files) new.
Proof.
  intros [f m Hi Hf Hj | f Hi Hf Hj | m body f' Hi Hb Hn Ho
         | m body e Hi Hb Hn Ho | m body message Hi Hb Hn | m Hi Hb | m body Hi].
  - exists [downloadUrl m]. split; [done|]. apply Forall_singleton.
    exists f. split; [by eapply list_elem_of_lookup_2 | right; by exists m].
  - unfold fail. match goal with |- context [settle files ?s1] =>
      destruct (settle_requests env files s1) as (new & -> & Hall) end.
    by exists new.
  - exists []. by rewrite app_nil_r.
  - exists []. by rewrite app_nil_r.
  - unfold fail. match goal with |- context [settle files ?s1] =>
      destruct (settle_requests env files s1) as (new & -> & Hall) end.
    by exists new.
  - unfold fail. match goal with |- context [settle files ?s1] =>
      destruct (settle_requests env files s1) as (new & -> & Hall) end.
    by exists new.
  - unfold finished. match goal with |- context [settle files ?s1] =>
      destruct (settle_requests env files s1) as (new & -> & Hall) end.
    by exists new.
Qed.

Lemma exec_requests (b : build) (env : Env) (targetDir : string)
    (files : list ManifestFile) (sched : list nat) (w : World) :
  ∃ new, requests (world (exec env targetDir files sched (launch files b w)))
         = requests w ++ new
         ∧ Forall (expected_request env files) new.
Proof.
  induction sched as [|i sched IH] using rev_ind; [apply launch_requests|].
  rewrite exec_snoc. destruct (resume _ _ _ i _) as [s'|] eqn:Hr; [|done]. simpl.
  apply resume_step in Hr as [_ Hstep]. destruct IH as (new & Hreq & Hall).
  destruct (step_requests env targetDir files i _ _ Hstep) as (new' & -> & Hall').
  exists (new ++ new'). rewrite Hreq, app_assoc. split; [done|]. by apply Forall_app.
Qed.

Lemma mapM_omap {A} (l : list (option A)) (k : list A) :
  mapM (λ e, e) l = Some k → omap (λ e, e) l = k.
Proof.
  intros H%mapM_Some. induction H as [|x y l k Hx _ IH]; [done|].
  cbn [omap list_omap]. by rewrite Hx, IH.
Qed.

(** A manifest is what [JSON.parse] returned, when that is an object
    whose [files] is an array without a [null]. *)
Lemma json_manifest_files (env : Env) (data : bytes) (manifest : ModpackManifest) :
  json_manifest env data = Some manifest →
  ∃ entries message,
    json_parse env data = Files entries message
    ∧ omap (λ e, e) entries = files manifest.
Proof.
  unfold json_manifest. destruct (json_parse env data) as [| | |entries message]; try done.
  destruct (mapM _ entries) as [k|] eqn:Hk; [|done]. intros [= <-].
  exists entries, message. split; [done|]. by apply mapM_omap.
Qed.

Lemma span_fst_elem {A} (p : A → bool) (l : list A) (x : A) :
  x ∈ fst (span p l) → x ∈ l.
Proof.
  induction l as [|y l IH]; simpl; [done|].
  destruct (p y); [by intros ?%elem_of_nil|].
  destruct (span p l) as [a r]. simpl in *.
  intros [->|?]%elem_of_cons; [apply list_elem_of_here|].
  by apply list_elem_of_further, IH.
Qed.

Lemma expected_request_mono (env : Env) (files files' : list ManifestFile)
    (url : string) :
  (∀ f, f ∈ files → f ∈ files') →
  expected_request env files url → expected_request env files' url.
Proof. intros Hsub (f & Hf & H). exists f. auto. Qed.

(** X11. Whatever the outcome and the schedule, the only requests
    [downloadMods] issues are the metadata requests of the manifest's
    entries and the file requests for the download URLs that metadata
    named; and it issues none when [mkdir] fails, when the archive has no
    [manifest.json], and when what [JSON.parse] makes of it has no array
    of files. *)
Theorem downloadMods_requests (b : build) (env : Env) (modpack : Zip.JSZip)
    (targetDir : string) (sched : list nat) (w : World) :
  ∃ new, requests (snd (downloadMods b env modpack targetDir sched w))
         = requests w ++ new
         ∧ match Fs.mkdir_recursive (Path.join [targetDir; "mods"]) (fs w),
                 Zip.file "manifest.json" modpack with
           | inr _, Some manifestData =>
               match json_parse env (Zip.data manifestData) with
               | Files entries _ =>
                   Forall (expected_request env (omap (λ e, e) entries)) new
               | NotJSON _ | NoFiles _ | NoMap _ _ => new = []
               end
           | _, _ => new = []
           end.
Proof.
  unfold downloadMods.
  destruct (Fs.mkdir_recursive _ _) as [e|f1];
    [exists []; by rewrite app_nil_r|].
  destruct (Zip.file _ _) as [manifestData|]; [|exists []; by rewrite app_nil_r].
  destruct (json_manifest _ _) as [manifest|] eqn:Hj.
  - apply json_manifest_files in Hj as (entries & message & -> & ->).
    destruct (await_all _ _ _ _ _) as [[r s] rest] eqn:Haw. simpl.
    apply await_all_exec in Haw as (pre & _ & -> & _).
    match goal with |- context [launch ?fl b ?w0] =>
      exact (exec_requests b env targetDir fl pre w0) end.
  - destruct (json_parse env _) as [| | |entries message];
      try (exists []; by rewrite app_nil_r).
    simpl.
    match goal with |- context [launch ?fl b ?w0] =>
      destruct (launch_requests env fl b w0) as (new & -> & Hall) end.
    exists new. split; [done|].
    eapply Forall_impl; [exact Hall|]. intros url. apply expected_request_mono.
    destruct b; [|done].
    intros f (o & Ho & Hf)%list_elem_of_omap.
    apply list_elem_of_omap. exists o. split; [|done]. by eapply span_fst_elem.
Qed.

(** The same, seen on a manifest with a [null] entry between two
    entries: [IndexTs] has asked for the first entry's metadata when
    [map] throws, the other build for both. *)
Example requests_before_null_entry :
  let env :=
    Sample.with_json
      (λ _, Files [Some Sample.entry12; None; Some Sample.entry34]
              "Cannot destructure property 'projectID' of 'object null'") in
  downloadMods IndexTs env (Sample.pack_of "m12") "out" [] empty_world
  = (Throw (TypeError "Cannot destructure property 'projectID' of 'object null'"),
     {| fs := Fs.make_dirs ["out/mods"; "out"] ∅;
        stderr := [downloading_line 3];
        requests := [api_url "1" "2"] |})
  ∧ requests (snd (downloadMods Part000 env (Sample.pack_of "m12") "out" [] empty_world))
    = [api_url "1" "2"; api_url "3" "4"].
Proof. split; vm_compute; reflexivity. Qed.

Lemma launch_clean (files : list ManifestFile) (b : build) (w : World) :
  rejected (launch files b w) = None ∧ crashed (launch files b w) = None.
Proof.
  unfold launch.
  assert (H0 : rejected (idle files b w) = None ∧ crashed (idle files b w) = None)
    by done.
  revert H0. generalize (idle files b w). generalize (seq 0 (length files)). intros l.
  induction l as [|i l IH] using rev_ind; intros s0 H0; [done|].
  rewrite foldl_app. simpl. specialize (IH s0 H0).
  set (s := foldl (submit files) s0 l) in *. destruct IH as [H1 H2].
  unfold submit. destruct (limiter s) as [lim|].
  - destruct (Limit.submit i lim) as [lim' []]; [|done].
    match goal with |- context [start files i ?s1] =>
      destruct (start_keeps files i s1) as (_ & _ & _ & -> & ->) end. done.
  - destruct (start_keeps files i s) as (_ & _ & _ & -> & ->). done.
Qed.

(** ** The download phase: completions and progress *)

Lemma step_advance (env : Env) (targetDir : string) (files : list ManifestFile)
    (i : nat) (s s' : Download) :
  invariant 0 (length files) files s →
  step env targetDir files i s s' →
  advance files i s s'.
Proof.
  intros Hinv Hstep.
  assert (Hself : ∀ old new, tasks s !! i = Some old →
                             <[i:=new]> (tasks s) !! i = Some new).
  { intros old new Hi. apply list_lookup_insert_eq. by eapply lookup_lt_Some. }
  assert (Hend : ∀ old new s1,
            tasks s !! i = Some old → in_flight old = true →
            in_flight new = false → is_queued new = false →
            tasks s1 = <[i:=new]> (tasks s) → limiter s1 = limiter s →
            downloadedCount s1
            = downloadedCount s + (if is_done new then 1 else 0) →
            tasks (settle files s1) !! i = Some new).
  { intros old new s1 Hi Hfly Hnf Hnq Ht Hl Hc.
    assert (invariant 1 (length files) files s1) as H1
      by (by eapply (inv_end files i old new s)).
    destruct (settle_effect files s1 H1) as [_ Hund]. rewrite Ht in Hund.
    by eapply settled_self. }
  assert (Hfail : ∀ old e,
            tasks s !! i = Some old → in_flight old = true →
            advance files i s (fail files i e s)).
  { intros old e Hi Hfly. unfold fail.
    match goal with |- advance _ _ _ (settle files ?s1) =>
      pose proof (Hend old (Failed e) s1 Hi Hfly eq_refl eq_refl eq_refl eq_refl)
        as Hnew;
      destruct (settle_keeps files s1) as (_ & Herr & Hcnt & Hrej & Hcr)
    end.
    eapply (adv_fail files i s _ old); try done.
    + apply Hnew. simpl. lia.
    + rewrite Hrej. simpl. by destruct (rejected s). }
  destruct Hstep as [f m Hi Hf Hj | f Hi Hf Hj | m body f' Hi Hb Hn Ho
                    | m body e Hi Hb Hn Ho | m body message Hi Hb Hn
                    | m Hi Hb | m body Hi].
  - eapply (adv_move files i s _ AwaitInfo (AwaitBody m)); try done.
    + simpl. by eapply Hself.
    + simpl. lia.
  - by apply (Hfail AwaitInfo).
  - eapply (adv_move files i s _ (AwaitBody m) (Piping m body)); try done.
    + simpl. by eapply Hself.
    + simpl. lia.
  - by eapply (adv_crash files i s _ m).
  - by apply (Hfail (AwaitBody m)).
  - by apply (Hfail (AwaitBody m)).
  - unfold finished.
    match goal with |- advance _ _ _ (settle files ?s1) =>
      pose proof (Hend (Piping m body) (Done m) s1
                    Hi eq_refl eq_refl eq_refl eq_refl eq_refl) as Hnew;
      destruct (settle_keeps files s1) as (_ & Herr & Hcnt & Hrej & Hcr)
    end.
    eapply (adv_finish files i s _ m body); try done.
    apply Hnew. simpl. lia.
Qed.

Lemma omap_pointwise {A B} (f : A → option B) (l l' : list A) :
  length l' = length l →
  (∀ j, (l' !! j ≫= f) = (l !! j ≫= f)) →
  omap f l' = omap f l.
Proof.
  revert l'. induction l as [|x l IH]; intros [|x' l'] Hlen H; try done.
  pose proof (H 0) as H0. simpl in H0. cbn [omap list_omap]. rewrite H0.
  rewrite (IH l'); [done | by injection Hlen | intros j; exact (H (S j))].
Qed.

Lemma omap_one_more {A B} (f : A → option B) (l l' : list A) (i : nat)
    (x y : A) (b : B) :
  length l' = length l →
  l !! i = Some x → f x = None → l' !! i = Some y → f y = Some b →
  (∀ j, j ≠ i → (l' !! j ≫= f) = (l !! j ≫= f)) →
  omap f l' ≡ₚ b :: omap f l.
Proof.
  revert l' i. induction l as [|a l IH]; intros [|a' l'] i Hlen Hx Hfx Hy Hfy H;
    try done.
  destruct i as [|i]; simpl in Hx, Hy.
  - injection Hx as ->. injection Hy as ->. cbn [omap list_omap]. rewrite Hfx, Hfy.
    rewrite (omap_pointwise f l l'); [done | by injection Hlen |].
    intros j. apply (H (S j)). lia.
  - pose proof (H 0 ltac:(lia)) as H0. simpl in H0. cbn [omap list_omap]. rewrite H0.
    assert (IH' : omap f l' ≡ₚ b :: omap f l).
    { apply (IH l' i); try done; [by injection Hlen|].
      intros j Hj. apply (H (S j)). lia. }
    destruct (f a); [|done]. rewrite IH'. apply Permutation_swap.
Qed.

Lemma undisturbed_done_info (ts ts' : list phase) (j : nat) :
  undisturbed ts ts' j → (ts' !! j ≫= done_info) = (ts !! j ≫= done_info).
Proof. intros [->|[-> ->]]; done. Qed.

Lemma in_flight_not_done (p : phase) : in_flight p = true → done_info p = None.
Proof. by destruct p. Qed.

(** The completed tasks after a step: those before, and the task that
    has finished if one has. *)
Lemma completed_step (env : Env) (targetDir : string) (files : list ManifestFile)
    (i : nat) (s s' : Download) :
  invariant 0 (length files) files s →
  step env targetDir files i s s' →
  (completed (tasks s') = completed (tasks s)
   ∧ downloadedCount s' = downloadedCount s
   ∧ stderr (world s') = stderr (world s))
  ∨ (∃ m, completed (tasks s') ≡ₚ completed (tasks s) ++ [m]
          ∧ downloadedCount s' = S (downloadedCount s)
          ∧ stderr (world s')
            = stderr (world s)
              ++ [progress_line (S (downloadedCount s)) (length files) m]).
Proof.
  intros Hinv Hstep.
  destruct (step_effect env targetDir files i s s' Hinv Hstep) as [Hund _].
  pose proof (inv_step env targetDir files i s s' Hinv Hstep) as [Hlen' _ _ _ _].
  pose proof Hinv as [Hlen _ _ _ _].
  assert (Hsame : ∀ old new, tasks s !! i = Some old → tasks s' !! i = Some new →
            done_info old = None → done_info new = None →
            completed (tasks s') = completed (tasks s)).
  { intros old new Hi Hi' Ho Hn. apply omap_pointwise; [congruence|].
    intros j. destruct (decide (j = i)) as [->|Hne].
    - rewrite Hi, Hi'. simpl. congruence.
    - by apply undisturbed_done_info, Hund. }
  destruct (step_advance env targetDir files i s s' Hinv Hstep)
    as [m Hi Ht Hc Hr Hn He | old new Hi Hi' Ho Hn Hlt Hc Hr Hcnt He
       | old e Hi Hi' Ho Hc Hr Hcnt He | m body Hi Hi' Hc Hr Hcnt He].
  - left. by rewrite Ht.
  - left. split; [|done].
    eapply Hsame; eauto using in_flight_not_done.
  - left. split; [|done]. eapply Hsame; eauto using in_flight_not_done.
  - right. exists m. split; [|done].
    rewrite <- Permutation_cons_append.
    apply (omap_one_more done_info (tasks s) (tasks s') i (Piping m body) (Done m));
      try done; [congruence|].
    intros j Hne. by apply undisturbed_done_info, Hund.
Qed.

Lemma launch_tasks (files : list ManifestFile) (b : build) (w : World) :
  Forall (λ p, p = Queued ∨ p = AwaitInfo) (tasks (launch files b w)).
Proof.
  unfold launch.
  assert (H0 : Forall (λ p, p = Queued ∨ p = AwaitInfo) (tasks (idle files b w))).
  { simpl. apply Forall_replicate. by left. }
  revert H0. generalize (idle files b w). generalize (seq 0 (length files)). intros l.
  induction l as [|i l IH] using rev_ind; intros s0 H0; [done|].
  rewrite foldl_app. simpl. specialize (IH s0 H0).
  set (s := foldl (submit files) s0 l) in *.
  assert (Hst : ∀ s1, tasks s1 = tasks s →
            Forall (λ p, p = Queued ∨ p = AwaitInfo) (tasks (start files i s1))).
  { intros s1 H1. unfold start. destruct (files !! i); [|by rewrite H1].
    simpl. rewrite H1. apply Forall_insert; [done | by right]. }
  unfold submit. destruct (limiter s) as [lim|]; [|by apply Hst].
  destruct (Limit.submit i lim) as [lim' []]; [by apply Hst | done].
Qed.

Lemma launch_completed (files : list ManifestFile) (b : build) (w : World) :
  completed (tasks (launch files b w)) = [].
Proof.
  pose proof (launch_tasks files b w) as H. unfold completed.
  induction H as [|p ts [->| ->] _ IH]; [done| |]; cbn [omap list_omap]; by rewrite IH.
Qed.

Lemma launch_stderr (files : list ManifestFile) (b : build) (w : World) :
  stderr (world (launch files b w)) = stderr w
  ∧ downloadedCount (launch files b w) = 0.
Proof.
  unfold launch.
  assert (H0 : stderr (world (idle files b w)) = stderr w
               ∧ downloadedCount (idle files b w) = 0) by done.
  revert H0. generalize (idle files b w). generalize (seq 0 (length files)). intros l.
  induction l as [|i l IH] using rev_ind; intros s0 H0; [done|].
  rewrite foldl_app. simpl. specialize (IH s0 H0).
  set (s := foldl (submit files) s0 l) in *. destruct IH as [H1 H2].
  unfold submit. destruct (limiter s) as [lim|].
  - destruct (Limit.submit i lim) as [lim' []]; [|done].
    match goal with |- context [start files i ?s1] =>
      destruct (start_keeps files i s1) as (_ & -> & -> & _) end. done.
  - destruct (start_keeps files i s) as (_ & -> & -> & _). done.
Qed.

(** The log of the download phase, from any state that satisfies the
    invariant. *)
Lemma exec_progress (env : Env) (targetDir : string) (files : list ManifestFile)
    (sched : list nat) (s : Download) (base : list string) (ms0 : list ModFileInfo) :
  invariant 0 (length files) files s →
  ms0 ≡ₚ completed (tasks s) →
  length ms0 = downloadedCount s →
  stderr (world s) = base ++ progress_lines (length files) ms0 →
  ∃ ms, ms ≡ₚ completed (tasks (exec env targetDir files sched s))
        ∧ length ms = downloadedCount (exec env targetDir files sched s)
        ∧ stderr (world (exec env targetDir files sched s))
          = base ++ progress_lines (length files) ms.
Proof.
  intros Hinv Hperm0 Hlen0 Herr0.
  induction sched as [|i sched IH] using rev_ind; [by exists ms0|].
  rewrite exec_snoc.
  pose proof (inv_exec env targetDir files sched s Hinv) as Hinv'.
  destruct (resume _ _ _ i _) as [s'|] eqn:Hr; [|done]. simpl.
  apply resume_step in Hr as [_ Hstep]. destruct IH as (ms & Hperm & Hlen & Herr).
  destruct (completed_step _ _ _ _ _ _ Hinv' Hstep)
    as [(-> & -> & ->)|(m & Hp & -> & ->)].
  - by exists ms.
  - exists (ms ++ [m]). split; [by rewrite Hp, Hperm|].
    split; [rewrite length_app; simpl; lia|].
    unfold progress_lines in *. rewrite imap_app, app_assoc, <- Herr. simpl.
    by rewrite Hlen, Nat.add_0_r.
Qed.

(** X13. In both builds and in every state the download phase can reach,
    what the phase has written to standard error is one progress line
    per completed task and nothing else: the lines name the files of
    the completed tasks, and the [n]-th line carries the number [n],
    whatever the order in which the tasks complete. *)
Theorem progress_lines_numbered (b : build) (env : Env) (targetDir : string)
    (files : list ManifestFile) (sched : list nat) (w : World) :
  ∃ ms, ms ≡ₚ completed (tasks (exec env targetDir files sched (launch files b w)))
        ∧ length ms = downloadedCount (exec env targetDir files sched (launch files b w))
        ∧ stderr (world (exec env targetDir files sched (launch files b w)))
          = stderr w ++ progress_lines (length files) ms.
Proof.
  destruct (launch_stderr files b w) as [Herr Hcnt].
  apply (exec_progress env targetDir files sched (launch files b w) (stderr w) []).
  - apply inv_launch.
  - by rewrite launch_completed.
  - by rewrite Hcnt.
  - by rewrite Herr, app_nil_r.
Qed.

(** ** The download phase cannot get stuck *)

Lemma failed_step (env : Env) (targetDir : string) (files : list ManifestFile)
    (i : nat) (s s' : Download) :
  invariant 0 (length files) files s →
  step env targetDir files i s s' →
  (∀ j e, tasks s !! j = Some (Failed e) → is_Some (rejected s)) →
  ∀ j e, tasks s' !! j = Some (Failed e) → is_Some (rejected s').
Proof.
  intros Hinv Hstep Hfailed j e Hj.
  destruct (step_effect env targetDir files i s s' Hinv Hstep) as [Hund _].
  assert (Hother : j ≠ i → rejected s' = rejected s → is_Some (rejected s')).
  { intros Hne ->. destruct (Hund j Hne) as [E|[_ E]]; [|congruence].
    rewrite E in Hj. by eapply Hfailed. }
  destruct (step_advance env targetDir files i s s' Hinv Hstep)
    as [m Hi Ht Hc Hr Hn He | old new Hi Hi' Ho Hn Hlt Hc Hr Hcnt He
       | old e' Hi Hi' Ho Hc Hr Hcnt He | m body Hi Hi' Hc Hr Hcnt He].
  - rewrite Hr. rewrite Ht in Hj. by eapply Hfailed.
  - destruct (decide (j = i)) as [->|Hne]; [|by apply Hother].
    rewrite Hi' in Hj. injection Hj as ->. done.
  - done.
  - destruct (decide (j = i)) as [->|Hne]; [|by apply Hother]. congruence.
Qed.

Lemma exec_failed (b : build) (env : Env) (targetDir : string)
    (files : list ManifestFile) (sched : list nat) (w : World) (j : nat) (e : error) :
  tasks (exec env targetDir files sched (launch files b w)) !! j = Some (Failed e) →
  is_Some (rejected (exec env targetDir files sched (launch files b w))).
Proof.
  revert j e. induction sched as [|i sched IH] using rev_ind; intros j e.
  - simpl. intros Hj. pose proof (launch_tasks files b w) as H.
    rewrite Forall_lookup in H. by destruct (H j _ Hj).
  - rewrite exec_snoc.
    pose proof (inv_reachable b env targetDir files sched w) as Hinv.
    destruct (resume _ _ _ i _) as [s'|] eqn:Hr; [|by apply IH]. simpl.
    apply resume_step in Hr as [_ Hstep]. by eapply failed_step.
Qed.

Lemma count_if_pos {A} (p : A → bool) (l : list A) :
  0 < count_if p l → ∃ i x, l !! i = Some x ∧ p x = true.
Proof.
  induction l as [|x l IH]; simpl; [lia|]. destruct (p x) eqn:Hp.
  - intros _. by exists 0, x.
  - intros H. destruct (IH H) as (i & y & Hi & Hy). by exists (S i), y.
Qed.

Lemma forallb_false_lookup {A} (p : A → bool) (l : list A) :
  forallb p l = false → ∃ i x, l !! i = Some x ∧ p x = false.
Proof.
  induction l as [|x l IH]; simpl; [done|]. destruct (p x) eqn:Hp.
  - intros H. destruct (IH H) as (i & y & Hi & Hy). by exists (S i), y.
  - intros _. by exists 0, x.
Qed.

(** While [Promise.all] has not settled, some task is suspended at an
    await: the limiter holds no task back while slots are free. *)
Lemma unsettled_in_flight (files : list ManifestFile) (s : Download) :
  invariant 0 (length files) files s →
  (∀ j e, tasks s !! j = Some (Failed e) → is_Some (rejected s)) →
  status s = None →
  crashed s = None ∧ ∃ i p, tasks s !! i = Some p ∧ in_flight p = true.
Proof.
  intros [Hlen _ _ _ Hlim] Hfailed Hst. unfold status in Hst.
  destruct (crashed s); [done|]. destruct (rejected s) eqn:Hrej; [done|].
  destruct (forallb is_done (tasks s)) eqn:Hall; [done|]. split; [done|].
  apply forallb_false_lookup in Hall as (i & p & Hi & Hp).
  destruct p as [| |m|m body|m|e]; try done.
  - assert (Hlt : i < length files) by (rewrite <- Hlen; by eapply lookup_lt_Some).
    unfold limiter_ok in Hlim. destruct (limiter s) as [l|].
    + destruct Hlim as (_ & Hout & _ & _ & _ & Hq & Hfull).
      assert (Hne : Limit.jobs l ≠ []).
      { intros E. specialize (Hq i Hlt Hi). rewrite E in Hq. by apply elem_of_nil in Hq. }
      specialize (Hfull Hne). rewrite Hfull in Hout.
      destruct (count_if_pos in_flight (tasks s)) as (j & q & Hj & Hq'); [lia|].
      by exists j, q.
    + by destruct (Hlim i Hlt).
  - by exists i, AwaitInfo.
  - by exists i, (AwaitBody m).
  - by exists i, (Piping m body).
  - by destruct (Hfailed i e Hi).
Qed.

Lemma resume_in_flight (env : Env) (targetDir : string) (files : list ManifestFile)
    (i : nat) (p : phase) (s : Download) :
  length (tasks s) = length files → crashed s = None →
  tasks s !! i = Some p → in_flight p = true →
  is_Some (resume env targetDir files i s).
Proof.
  intros Hlen Hc Hi Hp. unfold resume. rewrite Hc, Hi.
  destruct p as [| |m|m body|m|e]; try done.
  - destruct (lookup_lt_is_Some_2 files i) as [f ->].
    { rewrite <- Hlen. by eapply lookup_lt_Some. }
    by destruct (http_json env _).
  - destruct (http_body env _); [|done]. destruct (fileNameError m); [done|].
    by destruct (Fs.open_write _ _).
Qed.

Lemma work_left_decrease (ts ts' : list phase) (i : nat) (old new : phase) :
  length ts' = length ts →
  ts !! i = Some old → ts' !! i = Some new → awaits_left new < awaits_left old →
  (∀ j, j ≠ i → undisturbed ts ts' j) →
  work_left ts' < work_left ts.
Proof.
  assert (Hsame : ∀ ts ts' : list phase, length ts' = length ts →
            (∀ j, undisturbed ts ts' j) → work_left ts' = work_left ts).
  { clear. induction ts as [|p ts IH]; intros [|p' ts'] Hlen H; try done.
    simpl. rewrite (IH ts'); [|by injection Hlen | intros j; exact (H (S j))].
    destruct (H 0) as [E|[E E']]; simpl in *;
      [injection E as -> | injection E as ->; injection E' as ->]; done. }
  revert ts' i. induction ts as [|p ts IH]; intros [|p' ts'] i Hlen Hi Hi' Hlt H;
    try done.
  destruct i as [|i]; simpl in Hi, Hi'.
  - injection Hi as ->. injection Hi' as ->. simpl.
    rewrite (Hsame ts ts'); [lia | by injection Hlen |].
    intros j. apply (H (S j)). lia.
  - simpl. assert (work_left ts' < work_left ts) as Hrec.
    { apply (IH ts' i); try done; [by injection Hlen|].
      intros j Hj. apply (H (S j)). lia. }
    destruct (H 0 ltac:(lia)) as [E|[E E']]; simpl in *;
      [injection E as -> | injection E as ->; injection E' as ->]; simpl; lia.
Qed.

Lemma work_left_le (ts : list phase) : work_left ts ≤ 3 * length ts.
Proof. induction ts as [|p ts IH]; simpl; [lia|]. destruct p; simpl; lia. Qed.

Lemma work_left_pos (ts : list phase) (i : nat) (p : phase) :
  ts !! i = Some p → awaits_left p ≤ work_left ts.
Proof.
  revert i. induction ts as [|q ts IH]; intros [|i] Hi; simpl in *; try done.
  - injection Hi as ->. lia.
  - specialize (IH i Hi). lia.
Qed.

(** From a state with [n] awaits left, at most [n] completions settle
    [Promise.all]. *)
Lemma settles_within (env : Env) (targetDir : string) (files : list ManifestFile)
    (n : nat) (s : Download) :
  invariant 0 (length files) files s →
  (∀ j e, tasks s !! j = Some (Failed e) → is_Some (rejected s)) →
  work_left (tasks s) ≤ n →
  ∃ more, length more ≤ n ∧ is_Some (status (exec env targetDir files more s)).
Proof.
  revert s. induction n as [|n IH]; intros s Hinv Hfailed Hn;
    (destruct (status s) as [r|] eqn:Hst; [exists []; split; [simpl; lia | by exists r]|]);
    destruct (unsettled_in_flight files s Hinv Hfailed Hst) as (Hc & i & p & Hi & Hp);
    destruct (resume_in_flight env targetDir files i p s (inv_length _ _ _ _ Hinv) Hc Hi Hp)
      as [s' Hr];
    pose proof Hr as Hr'; apply resume_step in Hr' as [_ Hstep];
    destruct (step_effect env targetDir files i s s' Hinv Hstep) as [Hund _];
    pose proof (inv_step env targetDir files i s s' Hinv Hstep) as Hinv';
    pose proof (failed_step env targetDir files i s s' Hinv Hstep Hfailed) as Hfailed';
    pose proof (work_left_pos _ _ _ Hi) as Hpos.
  - destruct p; simpl in *; try done; lia.
  - assert (Hsettled : is_Some (crashed s') → is_Some (status s')).
    { intros [e He]. unfold status. rewrite He. by eexists. }
    assert (Hone : is_Some (status s') →
              ∃ more, length more ≤ S n
                      ∧ is_Some (status (exec env targetDir files more s))).
    { intros H. exists [i]. split; [simpl; lia|]. simpl. by rewrite Hr. }
    assert (Hless : work_left (tasks s') < work_left (tasks s) →
              ∃ more, length more ≤ S n
                      ∧ is_Some (status (exec env targetDir files more s))).
    { intros Hlt. destruct (IH s' Hinv' Hfailed' ltac:(lia)) as (more & Hlen & Hsome).
      exists (i :: more). split; [simpl; lia|]. simpl. by rewrite Hr. }
    assert (Hlen : length (tasks s') = length (tasks s)).
    { rewrite (inv_length _ _ _ _ Hinv), (inv_length _ _ _ _ Hinv'). done. }
    destruct (step_advance env targetDir files i s s' Hinv Hstep)
      as [m Hi0 Ht Hcr Hrj Hcn He | old new Hi0 Hi' Ho Hnw Hlt Hcr Hrj Hcnt He
         | old e' Hi0 Hi' Ho Hcr Hrj Hcnt He | m body Hi0 Hi' Hcr Hrj Hcnt He].
    + by apply Hone, Hsettled.
    + apply Hless. by eapply work_left_decrease.
    + apply Hone. unfold status. rewrite Hcr, Hc. destruct Hrj as [e0 ->]. by eexists.
    + apply Hless. eapply work_left_decrease; eauto.
Qed.

Lemma exec_app (env : Env) (targetDir : string) (files : list ManifestFile)
    (pre more : list nat) (s : Download) :
  exec env targetDir files (pre ++ more) s
  = exec env targetDir files more (exec env targetDir files pre s).
Proof. unfold exec. by rewrite foldl_app. Qed.

Lemma await_all_settles (env : Env) (targetDir : string) (files : list ManifestFile)
    (sched : list nat) (s : Download) :
  is_Some (status (exec env targetDir files sched s)) →
  (await_all env targetDir files sched s).1.1 ≠ Stalled.
Proof.
  revert s. induction sched as [|i sched IH]; intros s; simpl.
  - intros [r Hr]. rewrite Hr. simpl. unfold status in Hr.
    destruct (crashed s), (rejected s); try (injection Hr as <-; done).
    destruct (forallb _ _); [injection Hr as <-; done | done].
  - intros H. destruct (status s) as [r|] eqn:Hr; [|by apply IH]. simpl.
    unfold status in Hr.
    destruct (crashed s), (rejected s); try (injection Hr as <-; done).
    destruct (forallb _ _); [injection Hr as <-; done | done].
Qed.

(** X14. The download phase cannot get stuck: in both builds, after any
    number of completions in any order, [downloadMods] ends (it returns,
    throws, or the process dies) once the awaits that are pending have
    completed, and that takes at most three completions per manifest
    entry.  In particular the limiter of [src/index.ts] never holds a
    task back for ever. *)
Theorem downloadMods_can_settle (b : build) (env : Env) (modpack : Zip.JSZip)
    (targetDir : string) (pre : list nat) (w : World) :
  ∃ more,
    fst (downloadMods b env modpack targetDir (pre ++ more) w) ≠ Hang
    ∧ match Zip.file "manifest.json" modpack
            ≫= (λ manifestData, json_manifest env (Zip.data manifestData)) with
      | Some manifest => length more ≤ 3 * length (files manifest)
      | None => more = []
      end.
Proof.
  unfold downloadMods.
  destruct (Fs.mkdir_recursive _ _) as [e|f1].
  { destruct (_ ≫= _) as [manifest|]; exists []; split; simpl; done || lia. }
  destruct (Zip.file _ _) as [manifestData|]; simpl; [|by exists []].
  destruct (json_manifest _ _) as [manifest|];
    [|exists []; split; [by destruct (json_parse env _) | done]].
  match goal with |- context [launch ?fl b ?w0] =>
    pose proof (inv_reachable b env targetDir fl pre w0) as Hinv;
    pose proof (exec_failed b env targetDir fl pre w0) as Hfailed;
    set (s0 := launch fl b w0) in *
  end.
  destruct (settles_within env targetDir (files manifest) (3 * length (files manifest))
              (exec env targetDir (files manifest) pre s0) Hinv Hfailed)
    as (more & Hlen & Hsome).
  { rewrite <- (inv_length _ _ _ _ Hinv). apply work_left_le. }
  exists more. split; [|done]. rewrite <- exec_app in Hsome.
  apply await_all_settles in Hsome.
  destruct (await_all _ _ _ _ _) as [[r s] rest]. simpl in *. by destruct r.
Qed.

(** ** Whole runs *)

(** A run on the sample arguments: one mod is downloaded, one file and
    two directories are extracted. *)
Example sample_run :
  main IndexTs serving_env sample_argv [0; 0; 0] empty_world
  = (Return (),
     {| fs := {[ "out" := Dir; "out/mods" := Dir; "out/config" := Dir; "out/saves" := Dir;
                 "out/mods/a.jar" := File Sample.bodyA;
                 "out/config/a.cfg" := File (Sample.text "cfg") ]};
        stderr := preamble pack_info
                  ++ [downloading_line 1; progress_line 1 1 Sample.infoA;
                      "Expanding overrides..."; "config/a.cfg
"; "Finish!
"];
        requests := [api_url "7" "8"; "http://x/pack.zip"; api_url "1" "2";
                     "http://x/a.jar"] |}).
Proof. vm_compute. reflexivity. Qed.

(** X15. When the modpack's metadata or archive cannot be obtained, the
    run ends before anything is written to the filesystem.  The steps
    throw after one request when the API does not answer (the error of
    the request) or answers [null] (the [TypeError] of reading
    [displayName]), and nothing has been printed; they throw after two
    requests, and after the two chunks that announce the download, when
    the archive cannot be fetched (the error of the request) or read (the
    error of [JSZip.loadAsync]).  [src/index.ts] hands the error to
    [console.error] and ends normally, the other build dies of it. *)
Theorem no_archive_no_files (b : build) (env : Env) (argv : list string)
    (sched : list nat) (w : World) (args : Args) :
  parseCommandLineArgs env argv w = (Return args, w) →
  fetch_archive env args = None →
  ∃ e w1,
    steps b env argv sched w = (Throw e, w1)
    ∧ main b env argv sched w
      = match b with
        | IndexTs => (Return (), write_stderr (console_error env e) w1)
        | Part000 => (Crash e, w1)
        end
    ∧ fs w1 = fs w
    ∧ match reply env (api_url (addonId args) (fileId args)) with
      | NoReply =>
          e = FetchError (api_url (addonId args) (fileId args))
          ∧ requests w1 = requests w ++ [api_url (addonId args) (fileId args)]
          ∧ stderr w1 = stderr w
      | NullReply =>
          e = TypeError (read_of_null env "displayName")
          ∧ requests w1 = requests w ++ [api_url (addonId args) (fileId args)]
          ∧ stderr w1 = stderr w
      | Reply info =>
          requests w1
          = requests w ++ [api_url (addonId args) (fileId args); downloadUrl info]
          ∧ stderr w1
            = stderr w ++ ["Modpack name: " +:+ displayName info +:+ "
"; "Downloading modpack zip..."]
          ∧ match http_body env (downloadUrl info) with
            | None => e = FetchError (downloadUrl info)
            | Some buffer => e = Error (loadAsync_error env buffer)
            end
      end.
Proof.
  intros Hp Ha.
  assert (∃ e w1,
    steps b env argv sched w = (Throw e, w1)
    ∧ fs w1 = fs w
    ∧ match reply env (api_url (addonId args) (fileId args)) with
      | NoReply =>
          e = FetchError (api_url (addonId args) (fileId args))
          ∧ requests w1 = requests w ++ [api_url (addonId args) (fileId args)]
          ∧ stderr w1 = stderr w
      | NullReply =>
          e = TypeError (read_of_null env "displayName")
          ∧ requests w1 = requests w ++ [api_url (addonId args) (fileId args)]
          ∧ stderr w1 = stderr w
      | Reply info =>
          requests w1
          = requests w ++ [api_url (addonId args) (fileId args); downloadUrl info]
          ∧ stderr w1
            = stderr w ++ ["Modpack name: " +:+ displayName info +:+ "
"; "Downloading modpack zip..."]
          ∧ match http_body env (downloadUrl info) with
            | None => e = FetchError (downloadUrl info)
            | Some buffer => e = Error (loadAsync_error env buffer)
            end
      end)
    as (e & w1 & Hs & Hfs & Hreq).
  { unfold steps. rewrite Hp. unfold fetchModFileInfo, fetch_archive, http_json in *.
    destruct (reply env _) as [| |info] eqn:Hj; simpl in Ha.
    - eexists _, _. split; [done|]. by repeat split.
    - eexists _, _. split; [done|]. by repeat split.
    - unfold downloadModpack. destruct (http_body env _) as [buffer|] eqn:Hb; simpl in Ha.
      + destruct (loadAsync env buffer) as [zip|] eqn:Hl; [done|].
        eexists _, _. split; [done|]. split; [done|]. simpl.
        rewrite <- !app_assoc. done.
      + eexists _, _. split; [done|]. split; [done|]. simpl.
        rewrite <- !app_assoc. done. }
  exists e, w1. split; [done|]. split; [|done].
  unfold main. rewrite Hs. by destruct b.
Qed.

Lemma no_archive_no_files_witness :
  ∃ e w1,
    steps IndexTs Sample.env sample_argv [] empty_world = (Throw e, w1)
    ∧ main IndexTs Sample.env sample_argv [] empty_world
      = (Return (), write_stderr (console_error Sample.env e) w1)
    ∧ fs w1 = fs empty_world
    ∧ e = FetchError (api_url "7" "8")
    ∧ requests w1 = requests empty_world ++ [api_url "7" "8"]
    ∧ stderr w1 = stderr empty_world.
Proof.
  apply (no_archive_no_files IndexTs Sample.env sample_argv [] empty_world
           {| targetDir := "out"; addonId := "7"; fileId := "8" |});
    vm_compute; reflexivity.
Defined.

(** The same on an archive that is served but is not a zip file, and on
    the reply [null]. *)
Example unreadable_archive :
  let env :=
    Sample.with_reply (λ url, if String.eqb url (api_url "7" "8") then Reply Sample.infoA
                              else NoReply) in
  main IndexTs env sample_argv [] empty_world
  = (Return (),
     {| fs := ∅;
        stderr := ["Modpack name: A
"; "Downloading modpack zip...";
                   console_error env (Error "Can't find end of central directory")];
        requests := [api_url "7" "8"; "http://x/a.jar"] |}).
Proof. vm_compute. reflexivity. Qed.
Example null_modpack_info :
  main Part000 (Sample.with_reply (λ _, NullReply)) sample_argv [] empty_world
  = (Crash (TypeError "Cannot read properties of null (reading 'displayName')"),
     {| fs := ∅; stderr := []; requests := [api_url "7" "8"] |}).
Proof. vm_compute. reflexivity. Qed.

Lemma all_done_completed (env : Env) (files : list ManifestFile) (ts : list phase) :
  length ts = length files →
  (∀ i m, ts !! i = Some (Done m) → resolves env files i m) →
  forallb is_done ts = true →
  completed ts = mod_infos env files.
Proof.
  revert files. induction ts as [|p ts IH]; intros [|f files] Hlen Hres Hall; try done.
  simpl in Hall. apply andb_true_iff in Hall as [Hp Hall].
  apply is_done_Done in Hp as [m ->].
  destruct (Hres 0 m eq_refl) as (f' & [= <-] & Hj).
  unfold completed, mod_infos. cbn [omap list_omap done_info]. rewrite Hj. f_equal.
  apply IH; [by injection Hlen | | done].
  intros i m' Hi. destruct (Hres (S i) m' Hi) as (f' & Hf' & Hj'). by exists f'.
Qed.

(** What a successful [downloadMods] has written and requested. *)
Lemma downloadMods_log (b : build) (env : Env) (modpack : Zip.JSZip)
    (targetDir : string) (sched : list nat) (w w' : World)
    (manifestData : Zip.ZipObject) (manifest : ModpackManifest) :
  Zip.file "manifest.json" modpack = Some manifestData →
  json_manifest env (Zip.data manifestData) = Some manifest →
  downloadMods b env modpack targetDir sched w = (Return (), w') →
  ∃ ms reqs,
    ms ≡ₚ mod_infos env (files manifest)
    ∧ stderr w'
      = stderr w ++ downloading_line (length (files manifest))
                    :: progress_lines (length (files manifest)) ms
    ∧ requests w' = requests w ++ reqs
    ∧ Forall (expected_request env (files manifest)) reqs.
Proof.
  intros Hf Hj Hdl.
  apply downloadMods_ok in Hdl as (f1 & md & m & s & rest & Hmk & Hf' & Hj' & Haw & ->).
  assert (md = manifestData) as -> by congruence.
  assert (m = manifest) as -> by congruence.
  apply await_all_exec in Haw as (pre & _ & -> & [?|Hst]); [done|].
  apply status_AllDone in Hst as (Hall & _).
  match type of Hall with context [launch ?fl b ?w0] =>
    destruct (reachable b env targetDir fl pre w0) as ([Hlen _ _ _ _] & [Hinfo _ _ _] & _);
    destruct (launch_stderr fl b w0) as [Herr0 Hcnt0];
    destruct (exec_progress env targetDir fl pre (launch fl b w0) (stderr w0) [])
      as (ms & Hperm & _ & Herr);
      [ apply inv_launch | by rewrite launch_completed | by rewrite Hcnt0
      | by rewrite Herr0, app_nil_r | ];
    destruct (exec_requests b env targetDir fl pre w0) as (reqs & Hreq & Hexp)
  end.
  exists ms, reqs. split; [|split; [|split; [exact Hreq | exact Hexp]]].
  - rewrite Hperm. erewrite all_done_completed; [done | done | | done].
    intros i m Hi. by apply (Hinfo i (Done m) m).
  - rewrite Herr. simpl. by rewrite <- app_assoc.
Qed.

(** X16. The whole log of a successful run, in both builds: the name of
    the modpack, the two chunks around the download of the archive, the
    number of files, one numbered progress line per manifest entry (in
    the order of completion), the line of the extraction and one line
    per extracted file (in archive order), and "Finish!".  The requests
    are the modpack's metadata, the archive, and then only requests of
    manifest entries. *)
Theorem successful_run_log (b : build) (env : Env) (argv : list string)
    (sched : list nat) (w w' : World) (args : Args) (info : ModFileInfo)
    (modpack : Zip.JSZip) (manifestData : Zip.ZipObject) (manifest : ModpackManifest) :
  parseCommandLineArgs env argv w = (Return args, w) →
  fetch_archive env args = Some (info, modpack) →
  Zip.file "manifest.json" modpack = Some manifestData →
  json_manifest env (Zip.data manifestData) = Some manifest →
  wf_archive modpack →
  steps b env argv sched w = (Return (), w') →
  ∃ ms reqs,
    ms ≡ₚ mod_infos env (files manifest)
    ∧ stderr w'
      = stderr w ++ preamble info
        ++ downloading_line (length (files manifest))
           :: progress_lines (length (files manifest)) ms
        ++ "Expanding overrides..." :: (entry_line <$> file_entries modpack)
        ++ ["Finish!
"]
    ∧ requests w'
      = requests w ++ api_url (addonId args) (fileId args) :: downloadUrl info :: reqs
    ∧ Forall (expected_request env (files manifest)) reqs.
Proof.
  intros Hp Ha Hf Hj Hwf. unfold steps. rewrite Hp.
  unfold fetch_archive, http_json in Ha. unfold fetchModFileInfo.
  destruct (reply env _) as [| |info']; [done | done |]. simpl in Ha.
  unfold downloadModpack.
  destruct (http_body env _) as [buffer|]; [|done]. simpl in Ha.
  destruct (loadAsync env buffer) as [zip|]; [|done]. simpl in Ha.
  injection Ha as -> ->. unfold install.
  destruct (downloadMods _ _ _ _ _ _) as [[[]| | | |] w1] eqn:Hdl; try done.
  destruct (expandOverrides _ _ _ _) as [[[]| | | |] w2] eqn:Hex; try done.
  intros [= <-].
  destruct (downloadMods_log _ _ _ _ _ _ _ _ _ Hf Hj Hdl)
    as (ms & reqs & Hperm & Herr & Hreq & Hexp).
  pose proof (override_entries_wf modpack Hwf) as Hent.
  unfold expandOverrides in Hex. unfold file_entries, override_entries in *.
  destruct (Zip.folder "overrides" modpack) as [o|]; [|done].
  apply (extract_all_log _ _ _ _ _ Hent) in Hex as [Herr2 Hreq2].
  exists ms, reqs. split; [done|]. split; [|split; [|done]].
  - simpl. rewrite Herr2. simpl. rewrite Herr. simpl. unfold preamble.
    rewrite <- !app_assoc. done.
  - simpl. rewrite Hreq2. simpl. rewrite Hreq. simpl. rewrite <- !app_assoc. done.
Qed.

Lemma successful_run_log_witness :
  ∃ ms reqs,
    ms ≡ₚ mod_infos serving_env [Sample.entry12]
    ∧ stderr (snd (steps IndexTs serving_env sample_argv [0; 0; 0] empty_world))
      = stderr empty_world
        ++ preamble pack_info
        ++ downloading_line 1 :: progress_lines 1 ms
        ++ "Expanding overrides..." :: (entry_line <$> file_entries Sample.pack_dirs)
        ++ ["Finish!
"]
    ∧ requests (snd (steps IndexTs serving_env sample_argv [0; 0; 0] empty_world))
      = requests empty_world ++ api_url "7" "8" :: "http://x/pack.zip" :: reqs
    ∧ Forall (expected_request serving_env [Sample.entry12]) reqs.
Proof.
  apply (successful_run_log IndexTs serving_env sample_argv [0; 0; 0] empty_world
           (snd (steps IndexTs serving_env sample_argv [0; 0; 0] empty_world))
           {| targetDir := "out"; addonId := "7"; fileId := "8" |}
           pack_info
           Sample.pack_dirs
           (snd (Sample.file_entry "manifest.json" (Sample.text "m12")))
           {| files := [Sample.entry12] |}).
  - vm_compute. reflexivity.
  - vm_compute. reflexivity.
  - reflexivity.
  - reflexivity.
  - unfold wf_archive. repeat constructor; done.
  - vm_compute. reflexivity.
Defined.

(** ** How a run can end *)

Lemma open_write_error (p : string) (f : gmap string node) (e : error) :
  Fs.open_write p f = inl e → ∃ code, e = SystemError code p.
Proof.
  unfold Fs.open_write. destruct (_ || _); [intros [= <-]; by eexists|].
  destruct (Fs.is_dir f (Path.dirname _)); [done|]. intros [= <-]. by eexists.
Qed.

(** An iteration of the extraction loop returns or throws; when it
    throws, the error is the system error of the entry's [mkdir] or of
    opening its file, nothing has been printed or requested, and no file
    has been created. *)
Lemma extract_entry_outcomes (b : build) (targetDir : string)
    (entry : string * Zip.ZipObject) (w : World) :
  match extract_entry b targetDir entry w with
  | (Return _, _) => True
  | (Throw e, w') =>
      (∃ code, e = SystemError code (Path.join [targetDir; entry.1])
               ∨ e = SystemError code (Path.join [targetDir; Path.dirname entry.1]))
      ∧ stderr w' = stderr w
      ∧ requests w' = requests w
      ∧ ∀ k, Fs.is_file (fs w') k = Fs.is_file (fs w) k
  | _ => False
  end.
Proof.
  destruct entry as [path o].
  assert (Hfile : ∀ o, match extract_file targetDir path o w with
            | (Return _, _) => True
            | (Throw e, w') =>
                (∃ code, e = SystemError code (Path.join [targetDir; path])
                         ∨ e = SystemError code (Path.join [targetDir; Path.dirname path]))
                ∧ stderr w' = stderr w
                ∧ requests w' = requests w
                ∧ ∀ k, Fs.is_file (fs w') k = Fs.is_file (fs w) k
            | _ => False
            end).
  { intros o'. unfold extract_file.
    destruct (Fs.mkdir_recursive _ _) as [e|f1] eqn:Hmk.
    - apply mkdir_recursive_error in Hmk as [code ->]. split; [|done].
      exists code. by right.
    - destruct (Fs.open_write _ _) as [e|f2] eqn:Ho; [|done].
      apply open_write_error in Ho as (code & ->). split; [exists code; by left|].
      repeat split. simpl. by apply mkdir_recursive_ok in Hmk as [_ ?]. }
  unfold extract_entry. destruct b; [destruct (Zip.dir o)|]; try apply Hfile.
  unfold extract_dir. destruct (Fs.mkdir_recursive _ _) as [e|f1] eqn:Hmk; [|done].
  apply mkdir_recursive_error in Hmk as [code ->]. split; [|done].
  exists code. by left.
Qed.

(** The loop ends at the first iteration that throws. *)
Lemma extract_all_outcomes (b : build) (targetDir : string)
    (entries : list (string * Zip.ZipObject)) (w : World) :
  match extract_all b targetDir entries w with
  | (Return _, _) => True
  | (Throw e, w') =>
      ∃ pre entry post w1,
        entries = pre ++ entry :: post
        ∧ extract_all b targetDir pre w = (Return (), w1)
        ∧ extract_entry b targetDir entry w1 = (Throw e, w')
  | _ => False
  end.
Proof.
  revert w. induction entries as [|entry entries IH]; intros w; [done|].
  cbn [extract_all]. pose proof (extract_entry_outcomes b targetDir entry w) as H1.
  destruct (extract_entry b targetDir entry w) as [[[]|e| | |] w1] eqn:He; try done.
  - specialize (IH w1).
    destruct (extract_all b targetDir entries w1) as [[[]|e| | |] w2]; try done.
    destruct IH as (pre & entry' & post & w3 & -> & Hpre & Hent).
    exists (entry :: pre), entry', post, w3. split; [done|]. split; [|done].
    cbn [extract_all]. by rewrite He.
  - by exists [], entry, entries, w.
Qed.



(** The run of that witness: the directory and the file before the
    failing entry are in place, the file is reported, and [out/saves] is
    still the file it was. *)
Example extraction_stops_sample :
  expandOverrides IndexTs Sample.pack_dirs "out" world_saves_is_file
  = (Throw (SystemError "ENOTDIR" "out/saves/"),
     {| fs := {[ "out" := Dir; "out/saves" := File []; "out/config" := Dir;
                 "out/config/a.cfg" := File (Sample.text "cfg") ]};
        stderr := ["Expanding overrides..."; "config/a.cfg
"];
        requests := [] |}).
Proof. vm_compute. reflexivity. Qed.

(** Without the separator at the end of the path the code of [mkdir] on
    a regular file is [EEXIST]. *)
Example mkdir_on_a_file :
  Fs.mkdir_recursive "out/saves" (fs world_saves_is_file)
  = inl (SystemError "EEXIST" "out/saves")
  ∧ Fs.mkdir_recursive "out/saves/" (fs world_saves_is_file)
    = inl (SystemError "ENOTDIR" "out/saves/")
  ∧ Fs.mkdir_recursive "out/saves/x" (fs world_saves_is_file)
    = inl (SystemError "ENOTDIR" "out/saves/x").
Proof. repeat split; vm_compute; reflexivity. Qed.

Lemma expandOverrides_outcomes (b : build) (modpack : Zip.JSZip) (targetDir : string)
    (w : World) :
  match fst (expandOverrides b modpack targetDir w) with
  | Return _ | Throw _ => True
  | _ => False
  end.
Proof.
  unfold expandOverrides. destruct (Zip.folder _ _) as [o|]; [|done].
  pose proof (extract_all_outcomes b targetDir (Zip.forEach o)
                (write_stderr "Expanding overrides..." w)) as H.
  by destruct (extract_all _ _ _ _) as [[[]|e| | |] w2].
Qed.

(** [downloadMods] never calls [process.exit]. *)
Lemma downloadMods_no_exit (b : build) (env : Env) (modpack : Zip.JSZip)
    (targetDir : string) (sched : list nat) (w : World) (n : nat) :
  fst (downloadMods b env modpack targetDir sched w) ≠ Exit n.
Proof.
  unfold downloadMods.
  destruct (Fs.mkdir_recursive _ _) as [e|f1]; [done|].
  destruct (Zip.file _ _) as [manifestData|]; [|done].
  destruct (json_manifest _ _) as [manifest|]; [|by destruct (json_parse env _)].
  destruct (await_all _ _ _ _ _) as [[r s] rest]. by destruct r.
Qed.

Lemma parseCommandLineArgs_exit (env : Env) (argv : list string) (w w' : World)
    (n : nat) :
  parseCommandLineArgs env argv w = (Exit n, w') →
  falsy (argv !! 2) || bool_decide (argv !! 2 = Some "--help") || falsy (argv !! 3)
  = true
  ∧ n = 1 ∧ w' = write_stderr usage w.
Proof.
  unfold parseCommandLineArgs.
  destruct (falsy (argv !! 2) || bool_decide (argv !! 2 = Some "--help")
            || falsy (argv !! 3)) eqn:Hu.
  - by intros [= <- <-].
  - destruct (Url.parse _) as [u| |scheme]; [|done|by destruct (special_url env _)].
    destruct (negb _ || negb _); [done|]. by destruct (falsy _ || falsy _).
Qed.

(** X18. The process is ended by [process.exit] only for a usage error,
    in both builds and under every schedule: the status is then 1, only
    the usage line has been written, and the arguments are fewer than
    two, or the first or second is empty, or the first is [--help]. *)
Theorem run_outcomes (b : build) (env : Env) (argv : list string) (sched : list nat)
    (w w' : World) (n : nat) :
  main b env argv sched w = (Exit n, w') →
  n = 1
  ∧ w' = write_stderr usage w
  ∧ (length argv < 4 ∨ argv !! 2 = Some "" ∨ argv !! 2 = Some "--help"
     ∨ argv !! 3 = Some "").
Proof.
  intros Hmain.
  assert (Hsteps : steps b env argv sched w = (Exit n, w')).
  { unfold main in Hmain.
    destruct (steps b env argv sched w) as [[[]|e|n'|e|] w1]; destruct b; done. }
  assert (Hparse : parseCommandLineArgs env argv w = (Exit n, w')).
  { unfold steps in Hsteps.
    destruct (parseCommandLineArgs env argv w) as [[args|e|n'|e|] w0];
      [exfalso | done | by injection Hsteps as -> -> | done | done].
    unfold fetchModFileInfo, downloadModpack in Hsteps.
    destruct (reply env _) as [| |info]; [done | done |].
    destruct (http_body env _) as [buffer|]; [|done].
    destruct (loadAsync env buffer) as [zip|]; [|done].
    unfold install in Hsteps.
    match type of Hsteps with context [downloadMods b env zip ?t sched ?w1] =>
      pose proof (downloadMods_no_exit b env zip t sched w1 n) as Hd;
      destruct (downloadMods b env zip t sched w1) as [[[]|e|n'|e|] w2]; try done
    end.
    - pose proof (expandOverrides_outcomes b zip (targetDir args) w2) as He.
      by destruct (expandOverrides b zip (targetDir args) w2) as [[[]|e|n'|e|] w3].
    - injection Hsteps as -> _. by destruct Hd. }
  apply parseCommandLineArgs_exit in Hparse as (Hu & -> & ->).
  split; [done|]. split; [done|].
  apply orb_true_iff in Hu as [Hu|Hu]; [apply orb_true_iff in Hu as [Hu|Hu]|].
  - destruct (argv !! 2) as [s|] eqn:H2; simpl in Hu.
    + apply String.eqb_eq in Hu as ->. auto.
    + left. apply lookup_ge_None in H2. lia.
  - apply bool_decide_eq_true in Hu. auto.
  - destruct (argv !! 3) as [s|] eqn:H3; simpl in Hu.
    + apply String.eqb_eq in Hu as ->. auto.
    + left. apply lookup_ge_None in H3. lia.
Qed.

Lemma run_outcomes_witness :
  snd (main Part000 Sample.env ["node"; "index.js"; "--help"; "out"] [] empty_world)
  = write_stderr usage empty_world
  ∧ (length ["node"; "index.js"; "--help"; "out"] < 4
     ∨ ["node"; "index.js"; "--help"; "out"] !! 2 = Some ""
     ∨ ["node"; "index.js"; "--help"; "out"] !! 2 = Some "--help"
     ∨ ["node"; "index.js"; "--help"; "out"] !! 3 = Some "").
Proof.
  pose proof (run_outcomes Part000 Sample.env ["node"; "index.js"; "--help"; "out"] []
                empty_world
                (snd (main Part000 Sample.env ["node"; "index.js"; "--help"; "out"] []
                        empty_world))
                1 eq_refl) as (_ & H1 & H2).
  exact (conj H1 H2).
Defined.
